(** * gulp-html-partial: a shallow embedding of [gulp-html-partial.js]

    The plugin resolves [<partial src=... />] tags of an HTML document with
    regular expressions and [String.prototype.replace].  The embedding has
    three layers:

    - [Str]: the string operations of JavaScript the source relies on
      ([indexOf], [String.prototype.replace] with a string pattern, the
      replacement patterns [$$], [$&], ...);
    - [RegExp]: the pattern syntax and the backtracking matcher of
      ECMAScript regular expressions, restricted to the constructs the
      source uses, together with [exec], global [match] and global
      [replace];
    - [Plugin]: the functions of the source file, one definition per
      function, with the file system, the logger and the third-party
      pretty printer made explicit.

    Text is modelled as [string] (8-bit characters), so the development
    covers documents whose characters have code points below 256. *)

From Stdlib Require Import String Ascii List Arith Lia Bool.
Import ListNotations.
Open Scope string_scope.

(** ** Characters that cannot be written inside a string literal *)

Definition LF : ascii := ascii_of_nat 10.
Definition CR : ascii := ascii_of_nat 13.
Definition DQ : ascii := ascii_of_nat 34.
Definition lf : string := String LF "".
Definition cr : string := String CR "".
Definition dq : string := String DQ "".

(** ** JavaScript string operations *)

Module Str.

Fixpoint drop (n : nat) (s : string) : string :=
  match n, s with
  | 0, _ => s
  | S n', String _ s' => drop n' s'
  | S _, EmptyString => EmptyString
  end.

Fixpoint take (n : nat) (s : string) : string :=
  match n, s with
  | 0, _ => EmptyString
  | S n', String a s' => String a (take n' s')
  | S _, EmptyString => EmptyString
  end.

(** [s.substring(i, j)] for [i <= j]. *)
Definition slice (i j : nat) (s : string) : string := take (j - i) (drop i s).

(** [starts p s]: [s.startsWith(p)]; on success the rest of [s]. *)
Fixpoint starts (p s : string) : option string :=
  match p, s with
  | EmptyString, _ => Some s
  | String a p', String b s' => if Ascii.eqb a b then starts p' s' else None
  | String _ _, EmptyString => None
  end.

(** [s.indexOf(p)], as the text before and after the first occurrence. *)
Fixpoint split_at (p s : string) : option (string * string) :=
  match starts p s with
  | Some rest => Some (EmptyString, rest)
  | None =>
      match s with
      | EmptyString => None
      | String a s' =>
          match split_at p s' with
          | Some (before, after) => Some (String a before, after)
          | None => None
          end
      end
  end.

(** [s.includes(p)]. *)
Definition includes (p s : string) : bool :=
  match split_at p s with Some _ => true | None => false end.

Definition is_digit (a : ascii) : bool :=
  ((48 <=? nat_of_ascii a) && (nat_of_ascii a <=? 57))%nat.

Definition digit_val (a : ascii) : nat := nat_of_ascii a - 48.

(** GetSubstitution of ECMAScript: the expansion of a replacement string.
    [matched] is the matched text, [before] and [after] the text around it,
    [caps] the captures of the match (none for a string pattern). *)
Fixpoint expand (matched before after : string) (caps : list (option string))
         (repl : string) : string :=
  match repl with
  | EmptyString => EmptyString
  | String "$" (String "$" r) => String "$" (expand matched before after caps r)
  | String "$" (String "&" r) => matched ++ expand matched before after caps r
  | String "$" (String "`" r) => before ++ expand matched before after caps r
  | String "$" (String "'" r) => after ++ expand matched before after caps r
  | String "$" ((String d1 r1) as r) =>
      let m := List.length caps in
      let cap n := match nth (n - 1) caps None with Some t => t | None => EmptyString end in
      let one :=
        if (is_digit d1 && (1 <=? digit_val d1) && (digit_val d1 <=? m))%nat
        then cap (digit_val d1) ++ expand matched before after caps r1
        else String "$" (expand matched before after caps r) in
      match r1 with
      | String d2 r2 =>
          let nn := 10 * digit_val d1 + digit_val d2 in
          if (is_digit d1 && is_digit d2 && (1 <=? nn) && (nn <=? m))%nat
          then cap nn ++ expand matched before after caps r2
          else one
      | EmptyString => one
      end
  | String a r => String a (expand matched before after caps r)
  end.

(** [s.replace(pattern, replacement)] with a string pattern: the first
    occurrence only, the replacement expanded. *)
Definition replace_first (pattern replacement s : string) : string :=
  match split_at pattern s with
  | Some (before, after) =>
      before ++ expand pattern before after [] replacement ++ after
  | None => s
  end.

End Str.

(** ** ECMAScript regular expressions *)

Module RegExp.

(** *** Abstract syntax *)

Inductive ClassItem : Type :=
| CIChar (c : ascii)
| CIRange (lo hi : ascii)
| CISpace (negated : bool)      (* \s and \S *)
| CIDigit (negated : bool)      (* \d and \D *)
| CIWord (negated : bool).      (* \w and \W *)

Inductive CharSet : Type :=
| CSChar (c : ascii)
| CSDot
| CSClass (negated : bool) (items : list ClassItem).

Inductive Regex : Type :=
| REmpty
| RChar (cs : CharSet)
| RSeq (r1 r2 : Regex)
| RAlt (r1 r2 : Regex)
| RQuant (min : nat) (max : option nat) (greedy : bool) (r : Regex)
| RGroup (idx : nat) (r : Regex)
| RLook (negative : bool) (r : Regex)
| RBol
| REol.

(** *** Character predicates *)

Definition between (lo hi : nat) (a : ascii) : bool :=
  ((lo <=? nat_of_ascii a) && (nat_of_ascii a <=? hi))%nat.

(** LineTerminator: LF and CR (U+2028 and U+2029 lie outside the model). *)
Definition is_line_terminator (a : ascii) : bool :=
  (nat_of_ascii a =? 10)%nat || (nat_of_ascii a =? 13)%nat.

(** WhiteSpace and LineTerminator below 256: TAB, LF, VT, FF, CR, SP, NBSP. *)
Definition is_space (a : ascii) : bool :=
  between 9 13 a || (nat_of_ascii a =? 32)%nat || (nat_of_ascii a =? 160)%nat.

Definition is_word (a : ascii) : bool :=
  between 97 122 a || between 65 90 a || between 48 57 a || (nat_of_ascii a =? 95)%nat.

Definition item_matches (it : ClassItem) (a : ascii) : bool :=
  match it with
  | CIChar c => Ascii.eqb c a
  | CIRange lo hi => between (nat_of_ascii lo) (nat_of_ascii hi) a
  | CISpace neg => xorb neg (is_space a)
  | CIDigit neg => xorb neg (between 48 57 a)
  | CIWord neg => xorb neg (is_word a)
  end.

Definition cs_matches (cs : CharSet) (a : ascii) : bool :=
  match cs with
  | CSChar c => Ascii.eqb c a
  | CSDot => negb (is_line_terminator a)
  | CSClass neg items => xorb neg (existsb (fun it => item_matches it a) items)
  end.

(** *** The pattern parser ([new RegExp(source)])

    A recursive-descent parser of the Pattern grammar.  It returns [None]
    for a source that is a SyntaxError and for a source it does not cover
    (bounded quantifiers, back references, word boundaries, look-behind and
    named groups); [covered], below, tells the two apart. *)

Definition escape_item (c : ascii) : option ClassItem :=
  match c with
  | "s"%char => Some (CISpace false)
  | "S"%char => Some (CISpace true)
  | "d"%char => Some (CIDigit false)
  | "D"%char => Some (CIDigit true)
  | "w"%char => Some (CIWord false)
  | "W"%char => Some (CIWord true)
  | "n"%char => Some (CIChar LF)
  | "r"%char => Some (CIChar CR)
  | "t"%char => Some (CIChar (ascii_of_nat 9))
  | "v"%char => Some (CIChar (ascii_of_nat 11))
  | "f"%char => Some (CIChar (ascii_of_nat 12))
  | _ => if is_word c then None else Some (CIChar c)   (* identity escape *)
  end.

Definition single_char (it : ClassItem) : option ascii :=
  match it with CIChar c => Some c | _ => None end.

(** The body of a character class, up to the closing bracket. *)
Fixpoint parse_class (fuel : nat) (s : string) : option (list ClassItem * string) :=
  match fuel with
  | 0 => None
  | S fuel' =>
      match s with
      | EmptyString => None
      | String "]" rest => Some ([], rest)
      | String a rest =>
          let first :=
            match a, rest with
            | "\"%char, String e rest' =>
                match escape_item e with
                | Some it => Some (it, rest')
                | None => None
                end
            | "\"%char, EmptyString => None
            | _, _ => Some (CIChar a, rest)
            end in
          match first with
          | None => None
          | Some (it, rest1) =>
              match rest1 with
              | String "-" (String "]" rest2) =>
                  Some ([it; CIChar "-"], rest2)
              | String "-" (String b rest2) =>
                  let second :=
                    match b, rest2 with
                    | "\"%char, String e rest' =>
                        match escape_item e with
                        | Some it2 => Some (it2, rest')
                        | None => None
                        end
                    | "\"%char, EmptyString => None
                    | _, _ => Some (CIChar b, rest2)
                    end in
                  match second with
                  | None => None
                  | Some (it2, rest3) =>
                      match single_char it, single_char it2 with
                      | Some lo, Some hi =>
                          if (nat_of_ascii lo <=? nat_of_ascii hi)%nat
                          then
                            match parse_class fuel' rest3 with
                            | Some (items, rest4) => Some (CIRange lo hi :: items, rest4)
                            | None => None
                            end
                          else None   (* range out of order *)
                      | _, _ =>
                          match parse_class fuel' rest3 with
                          | Some (items, rest4) => Some (it :: CIChar "-" :: it2 :: items, rest4)
                          | None => None
                          end
                      end
                  end
              | _ =>
                  match parse_class fuel' rest1 with
                  | Some (items, rest2) => Some (it :: items, rest2)
                  | None => None
                  end
              end
          end
      end
  end.

(** A quantifier after an atom, if there is one. *)
Definition parse_quantifier (r : Regex) (s : string) : Regex * string :=
  let lazy min max rest :=
    match rest with
    | String "?" rest' => (RQuant min max false r, rest')
    | _ => (RQuant min max true r, rest)
    end in
  match s with
  | String "*" rest => lazy 0 None rest
  | String "+" rest => lazy 1 None rest
  | String "?" rest => lazy 0 (Some 1) rest
  | _ => (r, s)
  end.

(** Disjunction, Alternative and Term.  [n] is the index of the next
    capturing group, counted by opening parentheses from 1. *)
Fixpoint parse_disjunction (fuel : nat) (s : string) (n : nat)
  : option (Regex * string * nat) :=
  match fuel with
  | 0 => None
  | S fuel' =>
      match parse_alternative fuel' s n with
      | Some (r1, String "|" rest, n1) =>
          match parse_disjunction fuel' rest n1 with
          | Some (r2, rest2, n2) => Some (RAlt r1 r2, rest2, n2)
          | None => None
          end
      | other => other
      end
  end
with parse_alternative (fuel : nat) (s : string) (n : nat)
  : option (Regex * string * nat) :=
  match fuel with
  | 0 => None
  | S fuel' =>
      match s with
      | EmptyString => Some (REmpty, s, n)
      | String "|" _ => Some (REmpty, s, n)
      | String ")" _ => Some (REmpty, s, n)
      | _ =>
          match parse_term fuel' s n with
          | Some (t, rest, n1) =>
              match parse_alternative fuel' rest n1 with
              | Some (r, rest2, n2) => Some (RSeq t r, rest2, n2)
              | None => None
              end
          | None => None
          end
      end
  end
with parse_term (fuel : nat) (s : string) (n : nat)
  : option (Regex * string * nat) :=
  match fuel with
  | 0 => None
  | S fuel' =>
      let quantified (r : Regex) (rest : string) (n' : nat) :=
        let (q, rest') := parse_quantifier r rest in Some (q, rest', n') in
      let closing (k : Regex -> Regex) (quant : bool) (inner : option (Regex * string * nat)) :=
        match inner with
        | Some (r, String ")" rest, n') =>
            if quant then quantified (k r) rest n' else Some (k r, rest, n')
        | _ => None
        end in
      match s with
      | EmptyString => None
      | String "^" rest => Some (RBol, rest, n)
      | String "$" rest => Some (REol, rest, n)
      | String "(" (String "?" (String ":" rest)) =>
          closing (fun r => r) true (parse_disjunction fuel' rest n)
      | String "(" (String "?" (String "=" rest)) =>
          closing (RLook false) true (parse_disjunction fuel' rest n)
      | String "(" (String "?" (String "!" rest)) =>
          closing (RLook true) true (parse_disjunction fuel' rest n)
      | String "(" (String "?" _) => None
      | String "(" rest =>
          closing (RGroup n) true (parse_disjunction fuel' rest (S n))
      | String "." rest => quantified (RChar CSDot) rest n
      | String "[" (String "^" rest) =>
          match parse_class (S (String.length rest)) rest with
          | Some (items, rest') => quantified (RChar (CSClass true items)) rest' n
          | None => None
          end
      | String "[" rest =>
          match parse_class (S (String.length rest)) rest with
          | Some (items, rest') => quantified (RChar (CSClass false items)) rest' n
          | None => None
          end
      | String "\" (String e rest) =>
          match escape_item e with
          | Some (CIChar c) => quantified (RChar (CSChar c)) rest n
          | Some it => quantified (RChar (CSClass false [it])) rest n
          | None => None
          end
      | String "\" EmptyString => None
      | String "*" _ | String "+" _ | String "?" _ | String "{" _ => None
      | String a rest => quantified (RChar (CSChar a)) rest n
      end
  end.

(** [new RegExp(source)]: the syntax tree and the number of capturing groups. *)
Definition parse (source : string) : option (Regex * nat) :=
  match parse_disjunction (3 * String.length source + 3) source 1 with
  | Some (r, EmptyString, n) => Some (r, n - 1)
  | _ => None
  end.

(** The sources outside the part of the pattern language that the parser
    covers hold a brace (bounded quantifiers), a group that opens with [(?]
    and is not [(?:], [(?=] or [(?!] (look-behind, named groups), or a
    backslash before a letter, a digit or an underscore that [escape_item]
    does not know (word boundaries, back references, control, hexadecimal
    and unicode escapes).  The test is on the characters alone and errs on the
    side of calling a source uncovered. *)
Fixpoint uncovered_escape (s : string) : bool :=
  match s with
  | EmptyString => false
  | String a tail =>
      match a, tail with
      | "\"%char, String e _ =>
          match escape_item e with
          | None => true
          | Some _ => uncovered_escape tail
          end
      | _, _ => uncovered_escape tail
      end
  end.

Fixpoint uncovered_group (s : string) : bool :=
  match s with
  | EmptyString => false
  | String a tail =>
      match a, tail with
      | "("%char, String "?" (String c _) =>
          negb (existsb (Ascii.eqb c) [":"; "="; "!"]%char) || uncovered_group tail
      | _, _ => uncovered_group tail
      end
  end.

Definition covered (source : string) : bool :=
  negb (Str.includes "{" source) && negb (uncovered_group source)
  && negb (uncovered_escape source).

(** *** The backtracking matcher

    The matcher follows the continuation-passing semantics of the
    ECMAScript specification.  A state is the text that remains to be read,
    the index reached in the input and the captures, each the pair of the
    indices where the group started and ended. *)

Definition Captures : Type := nat -> option (nat * nat).
Definition no_captures : Captures := fun _ => None.

Definition set_capture (c : Captures) (g : nat) (v : option (nat * nat)) : Captures :=
  fun g' => if (g' =? g)%nat then v else c g'.

Definition MatchResult : Type := (nat * Captures)%type.
Definition Continuation : Type := string -> nat -> Captures -> option MatchResult.
Definition Matcher : Type := string -> nat -> Captures -> Continuation -> option MatchResult.

(** The capturing groups inside a pattern: RepeatMatcher clears them at the
    start of every iteration. *)
Fixpoint groups_of (r : Regex) : list nat :=
  match r with
  | REmpty | RChar _ | RBol | REol => []
  | RSeq r1 r2 | RAlt r1 r2 => groups_of r1 ++ groups_of r2
  | RQuant _ _ _ r' | RLook _ r' => groups_of r'
  | RGroup g r' => g :: groups_of r'
  end.

Definition clear_captures (gs : list nat) (c : Captures) : Captures :=
  fun g => if existsb (Nat.eqb g) gs then None else c g.

(** RepeatMatcher.  Every iteration either lowers [min] or reads at least one
    character, so [min + length s + 1] units of fuel are never used up. *)
Fixpoint repeat_matcher (fuel : nat) (m : Matcher) (gs : list nat)
         (min : nat) (max : option nat) (greedy : bool)
         (s : string) (i : nat) (c : Captures) (k : Continuation)
  : option MatchResult :=
  match fuel with
  | 0 => None
  | S fuel' =>
      match max with
      | Some 0 => k s i c
      | _ =>
          let d : Continuation := fun s' i' c' =>
            if (min =? 0)%nat && (i' =? i)%nat then None
            else repeat_matcher fuel' m gs (pred min) (option_map pred max) greedy s' i' c' k in
          let cleared := clear_captures gs c in
          if negb (min =? 0)%nat then m s i cleared d
          else if greedy then
            match m s i cleared d with
            | Some z => Some z
            | None => k s i c
            end
          else
            match k s i c with
            | Some z => Some z
            | None => m s i cleared d
            end
      end
  end.

Definition accept : Continuation := fun _ i c => Some (i, c).

Fixpoint matcher (r : Regex) : Matcher :=
  fun s i c k =>
  match r with
  | REmpty => k s i c
  | RChar cs =>
      match s with
      | String a s' => if cs_matches cs a then k s' (S i) c else None
      | EmptyString => None
      end
  | RSeq r1 r2 => matcher r1 s i c (fun s' i' c' => matcher r2 s' i' c' k)
  | RAlt r1 r2 =>
      match matcher r1 s i c k with
      | Some z => Some z
      | None => matcher r2 s i c k
      end
  | RQuant min max greedy r' =>
      repeat_matcher (min + String.length s + 1) (matcher r') (groups_of r')
                     min max greedy s i c k
  | RGroup g r' =>
      matcher r' s i c (fun s' i' c' => k s' i' (set_capture c' g (Some (i, i'))))
  | RLook negative r' =>
      match matcher r' s i c accept with
      | Some (_, c') => if negative then None else k s i c'
      | None => if negative then k s i c else None
      end
  | RBol => if (i =? 0)%nat then k s i c else None
  | REol => match s with EmptyString => k s i c | _ => None end
  end.

(** *** [exec], global [match] and global [replace] *)

(** The result of a successful [exec]: where the match starts and ends and
    the captured texts, group 1 first. *)
Record Match : Type := { index : nat; endIndex : nat; groups : list (option string) }.

Definition capture_texts (input : string) (ngroups : nat) (c : Captures)
  : list (option string) :=
  map (fun g => match c g with
                | Some (a, b) => Some (Str.slice a b input)
                | None => None
                end) (seq 1 ngroups).

(** The search loop of RegExpBuiltinExec: the first index, from [i] on, at
    which the pattern matches.  [s] is the input from index [i]. *)
Fixpoint search (r : Regex) (ngroups : nat) (input s : string) (i : nat) : option Match :=
  match matcher r s i no_captures accept with
  | Some (e, c) =>
      Some {| index := i; endIndex := e; groups := capture_texts input ngroups c |}
  | None =>
      match s with
      | EmptyString => None
      | String _ s' => search r ngroups input s' (S i)
      end
  end.

(** [regexp.exec(input)] with [regexp.lastIndex = lastIndex]. *)
Definition exec (re : Regex * nat) (input : string) (lastIndex : nat) : option Match :=
  if (String.length input <? lastIndex)%nat then None
  else search (fst re) (snd re) input (Str.drop lastIndex input) lastIndex.

Definition matched_text (input : string) (m : Match) : string :=
  Str.slice (index m) (endIndex m) input.

(** The matches a global regular expression finds, left to right: after an
    empty match the search resumes one character further. *)
Fixpoint all_matches (fuel : nat) (re : Regex * nat) (input : string) (lastIndex : nat)
  : list Match :=
  match fuel with
  | 0 => []
  | S fuel' =>
      match exec re input lastIndex with
      | None => []
      | Some m =>
          let next := if (endIndex m =? index m)%nat then S (endIndex m) else endIndex m in
          m :: all_matches fuel' re input next
      end
  end.

(** [input.match(re) || []] for a global [re]. *)
Definition match_global (re : Regex * nat) (input : string) : list string :=
  map (matched_text input) (all_matches (String.length input + 2) re input 0).

(** The assembly loop of RegExp.prototype[Symbol.replace]. *)
Fixpoint assemble (input replacement : string) (ms : list Match) (next : nat) : string :=
  match ms with
  | [] => Str.drop next input
  | m :: ms' =>
      if (next <=? index m)%nat then
        Str.slice next (index m) input
        ++ Str.expand (matched_text input m) (Str.take (index m) input)
                      (Str.drop (endIndex m) input) (groups m) replacement
        ++ assemble input replacement ms' (endIndex m)
      else assemble input replacement ms' next
  end.

(** [input.replace(re, replacement)] for a global [re]. *)
Definition replace_global (re : Regex * nat) (replacement input : string) : string :=
  assemble input replacement (all_matches (String.length input + 2) re input 0) 0.

End RegExp.

(** ** The plugin *)

Module Plugin.

(** *** Outcomes of a call

    A call returns a value and the lines it logged, throws (the [RegExp]
    constructor rejects a pattern built from the options), or has no outcome
    in the model ([OutOfFuel]): it recurses beyond the fuel (partials that
    include each other without end), or it builds a pattern that the parser
    of the model does not cover. *)

Inductive LogEntry : Type :=
| Log (plugin message : string).   (* gutil.log(`${plugin}:`, message) *)

Inductive Result (A : Type) : Type :=
| Ok (a : A) (log : list LogEntry)
| Throws
| OutOfFuel.
Arguments Ok {A} a log.
Arguments Throws {A}.
Arguments OutOfFuel {A}.

Definition ret {A} (a : A) : Result A := Ok a [].

Definition bind {A B} (x : Result A) (f : A -> Result B) : Result B :=
  match x with
  | Ok a l =>
      match f a with
      | Ok b l' => Ok b (l ++ l')
      | Throws => Throws
      | OutOfFuel => OutOfFuel
      end
  | Throws => Throws
  | OutOfFuel => OutOfFuel
  end.

Definition log_line (plugin message : string) : Result unit := Ok tt [Log plugin message].

Notation "x <- c1 ;; c2" := (bind c1 (fun x => c2))
  (at level 61, c1 at next level, right associativity).

(** [new RegExp(source, 'g')].  A source the parser rejects is a SyntaxError
    when it is within the part of the pattern language that the parser covers;
    of a source outside it the model says nothing. *)
Definition new_RegExp (source : string) : Result (RegExp.Regex * nat) :=
  match RegExp.parse source with
  | Some re => ret re
  | None => if RegExp.covered source then Throws else OutOfFuel
  end.

(** [xs.map(f)] with the calls made from left to right. *)
Fixpoint mapM {A B} (f : A -> Result B) (xs : list A) : Result (list B) :=
  match xs with
  | [] => ret []
  | x :: xs' => y <- f x ;; ys <- mapM f xs' ;; ret (y :: ys)
  end.

(** *** Settings and data *)

Definition pluginName : string := "gulp-html-partial".

Record Options : Type := {
  tagName : string;
  basePath : string;
  variablePrefix : string
}.

(** The initial value of the module's [options] object. *)
Definition default_options : Options :=
  {| tagName := "partial"; basePath := ""; variablePrefix := "@@" |}.

Record Attribute : Type := { key : string; value : string }.

(** The file system as [fs.existsSync] and [fs.readFileSync] see it. *)
Definition FileSystem : Type := string -> option string.

(** The regular expression literals of the source. *)
Definition attributes_source : string :=
  "(\S+)=[" ++ dq ++ "']?((?:.(?![" ++ dq ++ "']?\s+(?:\S+)=|[>" ++ dq ++ "']))+.)["
  ++ dq ++ "']?".
Definition line_break_source : string := "\r?\n|\r".
Definition escape_source : string := "[-\/\\^$*+?.()|[\]{}]".

Section Engine.

(** [html.prettyPrint] of the third-party package [html]. *)
Variable prettyPrint : string -> string.
Variable fs : FileSystem.
(** The module's [options] object as it is when a document is processed. *)
Variable options : Options.

(** [getTags]: the closed tags, then the self-closed ones. *)
Definition getTags (html : string) : Result (list string) :=
  closed_re <- new_RegExp ("<" ++ tagName options ++ "(.*)/" ++ tagName options ++ ">") ;;
  let closed := RegExp.match_global closed_re html in
  self_re <- new_RegExp ("<" ++ tagName options ++ "(.*?)/>") ;;
  let selfClosed := RegExp.match_global self_re html in
  ret (closed ++ selfClosed)%list.

(** The [while] loop of [getAttributes]: [exec] from [lastIndex] until it
    fails.  A match sets [lastIndex] to its end. *)
Fixpoint getAttributes_loop (fuel : nat) (re : RegExp.Regex * nat) (tag : string)
         (lastIndex : nat) : option (list Attribute) :=
  match fuel with
  | 0 => None
  | S fuel' =>
      match RegExp.exec re tag lastIndex with
      | Some m =>
          let group n := match nth n (RegExp.groups m) None with
                         | Some t => t
                         | None => EmptyString
                         end in
          match getAttributes_loop fuel' re tag (RegExp.endIndex m) with
          | Some attributes => Some ({| key := group 0; value := group 1 |} :: attributes)
          | None => None
          end
      | None => Some []
      end
  end.

Definition getAttributes (tag : string) : Result (list Attribute) :=
  re <- new_RegExp attributes_source ;;
  match getAttributes_loop (String.length tag + 1) re tag 0 with
  | Some attributes => ret attributes
  | None => OutOfFuel
  end.

(** [escapeRegExp]. *)
Definition escapeRegExp (s : string) : Result string :=
  re <- new_RegExp escape_source ;;
  ret (RegExp.replace_global re "\$&" s).

(** [replaceAttributes]; [file] is [None] for [undefined]. *)
Fixpoint replaceAttributes_loop (html : string) (attributes : list Attribute)
  : Result string :=
  match attributes with
  | [] => ret html
  | attrib :: rest =>
      source <- escapeRegExp (variablePrefix options ++ key attrib) ;;
      regex <- new_RegExp source ;;
      replaceAttributes_loop (RegExp.replace_global regex (value attrib) html) rest
  end.

Definition replaceAttributes (file : option string) (attributes : list Attribute)
  : Result string :=
  let html := match file with Some text => text | None => EmptyString end in
  replaceAttributes_loop html attributes.

Definition is_src (attribute : Attribute) : bool := String.eqb (key attribute) "src".

(** [getPartial], given [injectHTML] on the buffer [fs.readFileSync] returns. *)
Definition getPartial (inject : string -> Result string) (attributes : list Attribute)
  : Result string :=
  let splitAttr := List.partition is_src attributes in
  let sourcePath :=
    match fst splitAttr with
    | a :: _ => Some (value a)
    | [] => None
    end in
  file <-
    match sourcePath with
    | Some (String _ _ as sourcePath) =>
        match fs (basePath options ++ sourcePath) with
        | Some bytes => text <- inject bytes ;; ret (Some text)
        | None =>
            _ <- log_line pluginName
                   ("File " ++ basePath options ++ sourcePath ++ " does not exist.") ;;
            ret None
        end
    | _ =>
        _ <- log_line pluginName "Some partial does not have 'src' attribute" ;;
        ret None
    end ;;
  replaceAttributes file (snd splitAttr).

(** The [reduce] of [getHTML]. *)
Fixpoint replace_tags (output : string) (tags partials : list string) : string :=
  match tags, partials with
  | tag :: tags', partial :: partials' =>
      replace_tags (Str.replace_first tag partial output) tags' partials'
  | _, _ => output
  end.

(** The function [getHTML] maps over the tags. *)
Definition partial_of (inject : string -> Result string) (tag : string) : Result string :=
  attributes <- getAttributes tag ;;
  getPartial inject attributes.

Definition getHTML (inject : string -> Result string) (html : string) : Result string :=
  tags <- getTags html ;;
  partials <- mapM (partial_of inject) tags ;;
  ret (replace_tags html tags partials).

(** The three replacements both branches of [injectHTML] apply to the text. *)
Definition format (content : string) : Result string :=
  breaks <- new_RegExp line_break_source ;;
  let content := RegExp.replace_global breaks " " content in
  opening <- new_RegExp ("<" ++ tagName options) ;;
  let content := RegExp.replace_global opening (lf ++ "<" ++ tagName options) content in
  closing <- new_RegExp (tagName options ++ ">") ;;
  ret (RegExp.replace_global closing (tagName options ++ ">" ++ lf) content).

(** What [injectHTML] is called on: a vinyl file whose contents are a
    buffer (from [transform]), or a buffer (from [getPartial]). *)
Inductive FileObject : Type :=
| VinylFile (contents : string)
| NodeBuffer (bytes : string).

Definition text_of (file : FileObject) : string :=
  match file with VinylFile t => t | NodeBuffer t => t end.

(** [injectHTML].  One unit of fuel is spent per level of inclusion. *)
Fixpoint injectHTML (fuel : nat) (file : FileObject) : Result FileObject :=
  match fuel with
  | 0 => OutOfFuel
  | S fuel' =>
      let inject bytes := file <- injectHTML fuel' (NodeBuffer bytes) ;; ret (text_of file) in
      match file with
      | VinylFile contents =>
          content <- format contents ;;
          html <- getHTML inject content ;;
          ret (VinylFile (prettyPrint html))
      | NodeBuffer bytes =>
          content <- format bytes ;;
          html <- getHTML inject content ;;
          ret (NodeBuffer (prettyPrint html))
      end
  end.

(** What a vinyl file holds: nothing, a buffer or a stream. *)
Inductive Contents : Type :=
| Null
| Buffer (text : string)
| Stream (chunks : list string).

(** What the callback of [through2.obj] did with a file: the errors it
    emitted on the stream and the files it handed downstream. *)
Record Handled : Type := { errors : list string; passed : list Contents }.

(** The callback [transform] gives to [through2.obj]. *)
Definition on_file (fuel : nat) (file : Contents) : Result Handled :=
  match file with
  | Stream _ =>
      ret {| errors := ["Streams are not supported"]; passed := [file] |}
  | Buffer text =>
      file' <- injectHTML fuel (VinylFile text) ;;
      ret {| errors := []; passed := [Buffer (text_of file')] |}
  | Null => ret {| errors := []; passed := [file] |}
  end.

End Engine.

(** *** The module state

    [options] is one object of the module; [transform(config)] assigns the
    keys of [config] to it and the callback reads it when a file arrives. *)

Record Config : Type := {
  config_tagName : option string;
  config_basePath : option string;
  config_variablePrefix : option string
}.

Definition no_config : Config :=
  {| config_tagName := None; config_basePath := None; config_variablePrefix := None |}.

Definition or_else (o : option string) (d : string) : string :=
  match o with Some v => v | None => d end.

(** [Object.assign(options, config)]. *)
Definition assign (options : Options) (config : Config) : Options :=
  {| tagName := or_else (config_tagName config) (tagName options);
     basePath := or_else (config_basePath config) (basePath options);
     variablePrefix := or_else (config_variablePrefix config) (variablePrefix options) |}.

(** A run of the module: calls of [transform] and files sent through the
    stream the latest call returned. *)
Inductive Call : Type :=
| Transform (config : Config)
| File (file : Contents).

Fixpoint run (prettyPrint : string -> string) (fs : FileSystem) (fuel : nat)
         (options : Options) (calls : list Call) : list (Result Handled) :=
  match calls with
  | [] => []
  | Transform config :: rest => run prettyPrint fs fuel (assign options config) rest
  | File file :: rest =>
      on_file prettyPrint fs options fuel file :: run prettyPrint fs fuel options rest
  end.

End Plugin.

(** ** Specification-level string functions

    The functions below do not mention regular expressions: they say in
    terms of prefixes and concatenation what the replacements of the
    source are meant to compute. *)

Module Spec.

Import RegExp.

(** The first place, from the left, where [m] recognises a prefix of the
    remaining text: the text before it, the recognised text, the rest. *)
Fixpoint find (m : string -> option nat) (s : string) : option (string * string * string) :=
  match m s with
  | Some n => Some (EmptyString, Str.take n s, Str.drop n s)
  | None =>
      match s with
      | EmptyString => None
      | String a s' =>
          match find m s' with
          | Some (u, w, t) => Some (String a u, w, t)
          | None => None
          end
      end
  end.

(** Replace, from left to right, every recognised text by the expansion of
    [repl]; the search resumes after the recognised text. *)
Fixpoint sweep (fuel : nat) (m : string -> option nat) (repl before rest : string) : string :=
  match fuel with
  | 0 => rest
  | S fuel' =>
      match find m rest with
      | Some (u, w, t) =>
          u ++ Str.expand w (before ++ u) t [] repl
            ++ sweep fuel' m repl (before ++ u ++ w) t
      | None => rest
      end
  end.

(** [p] read literally. *)
Definition literally (p s : string) : option nat :=
  match Str.starts p s with
  | Some _ => Some (String.length p)
  | None => None
  end.

(** Every occurrence of the text [p] replaced by the expansion of [repl]. *)
Definition replace_all (p repl s : string) : string :=
  sweep (String.length s + 2) (literally p) repl EmptyString s.

(** Every occurrence of the text [p] replaced by [v] itself, nothing in [v]
    being interpreted. *)
Fixpoint substitute_from (fuel : nat) (p v s : string) : string :=
  match fuel with
  | 0 => s
  | S fuel' =>
      match Str.split_at p s with
      | Some (before, after) => before ++ v ++ substitute_from fuel' p v after
      | None => s
      end
  end.

Definition substitute_all (p v s : string) : string :=
  substitute_from (String.length s + 2) p v s.

(** The pattern that reads the text [p] and nothing else. *)
Fixpoint literal (p : string) : Regex :=
  match p with
  | EmptyString => REmpty
  | String a p' => RSeq (RChar (CSChar a)) (literal p')
  end.

(** The characters [escapeRegExp] puts a backslash before. *)
Definition needs_escape (a : ascii) : bool :=
  existsb (fun c => Ascii.eqb c a)
    ["-"; "/"; "\"; "^"; "$"; "*"; "+"; "?"; "."; "("; ")"; "|"; "["; "]"; "{"; "}"]%char.

Fixpoint escaped (s : string) : string :=
  match s with
  | EmptyString => EmptyString
  | String a s' =>
      if needs_escape a then String "\" (String a (escaped s')) else String a (escaped s')
  end.

(** The syntax tree of the attribute pattern, piece by piece. *)
Definition non_space : Regex := RChar (CSClass false [CISpace true]).
Definition space : Regex := RChar (CSClass false [CISpace false]).
Definition optional_quote : Regex :=
  RQuant 0 (Some 1) true (RChar (CSClass false [CIChar DQ; CIChar "'"])).
Definition key_pattern : Regex := RSeq (RQuant 1 None true non_space) REmpty.
Definition next_attribute_or_end : Regex :=
  RAlt (RSeq optional_quote
          (RSeq (RQuant 1 None true space)
             (RSeq (RSeq (RQuant 1 None true non_space) REmpty)
                (RSeq (RChar (CSChar "=")) REmpty))))
       (RSeq (RChar (CSClass false [CIChar ">"; CIChar DQ; CIChar "'"])) REmpty).
(** What the value pattern repeats: a character the lookahead does not stop. *)
Definition value_body : Regex :=
  RSeq (RChar CSDot) (RSeq (RLook true next_attribute_or_end) REmpty).
Definition value_pattern : Regex :=
  RSeq (RQuant 1 None true
          (RSeq (RChar CSDot) (RSeq (RLook true next_attribute_or_end) REmpty)))
       (RSeq (RChar CSDot) REmpty).
Definition attribute_pattern : Regex :=
  RSeq (RGroup 1 key_pattern)
    (RSeq (RChar (CSChar "="))
       (RSeq optional_quote
          (RSeq (RGroup 2 value_pattern) (RSeq optional_quote REmpty)))).

(** The least number of characters a pattern reads. *)
Fixpoint min_length (r : Regex) : nat :=
  match r with
  | REmpty | RLook _ _ | RBol | REol => 0
  | RChar _ => 1
  | RSeq r1 r2 => min_length r1 + min_length r2
  | RAlt r1 r2 => Nat.min (min_length r1) (min_length r2)
  | RQuant min max _ r' =>
      match max, min with
      | Some 0, _ => 0
      | _, 0 => 0
      | _, S _ => min_length r'
      end
  | RGroup _ r' => min_length r'
  end.

(** Every character the pattern reads satisfies [p]. *)
Fixpoint only_reads (p : ascii -> bool) (r : Regex) : Prop :=
  match r with
  | REmpty | RLook _ _ | RBol | REol => True
  | RChar cs => forall a, cs_matches cs a = true -> p a = true
  | RSeq r1 r2 | RAlt r1 r2 => only_reads p r1 /\ only_reads p r2
  | RQuant _ _ _ r' | RGroup _ r' => only_reads p r'
  end.

Fixpoint all_chars (p : ascii -> bool) (s : string) : bool :=
  match s with
  | EmptyString => true
  | String a s' => p a && all_chars p s'
  end.

(** What the attribute parser promises of an attribute. *)
Definition well_formed (a : Plugin.Attribute) : Prop :=
  Plugin.key a <> EmptyString
  /\ all_chars (fun c => negb (is_space c)) (Plugin.key a) = true
  /\ 2 <= String.length (Plugin.value a).

(** The pattern of [escapeRegExp] and the prefix it reads. *)
Definition escape_class : Regex :=
  RSeq (RChar (CSClass false
    (map CIChar ["-"; "/"; "\"; "^"; "$"; "*"; "+"; "?"; "."; "("; ")"; "|"; "["; "]"; "{"; "}"]%char)))
    REmpty.

Definition reads_escape (s : string) : option nat :=
  match s with
  | String a _ => if needs_escape a then Some 1 else None
  | EmptyString => None
  end.

(** One attribute applied to the text: every occurrence of its placeholder
    replaced by the expansion of its value. *)
Definition replace_placeholder (options : Plugin.Options) (html : string)
           (attrib : Plugin.Attribute) : string :=
  replace_all (Plugin.variablePrefix options ++ Plugin.key attrib)
              (Plugin.value attrib) html.

(** The source path [getPartial] uses: the value of the first attribute
    whose key is [src]. *)
Definition src_of (attributes : list Plugin.Attribute) : option string :=
  match filter Plugin.is_src attributes with
  | a :: _ => Some (Plugin.value a)
  | [] => None
  end.

(** The text without the first occurrence of [tag]. *)
Definition remove_first (tag s : string) : string :=
  match Str.split_at tag s with
  | Some (before, after) => before ++ after
  | None => s
  end.

(** The line [getPartial] logs for a tag it cannot resolve. *)
Definition unresolved_entry (options : Plugin.Options) (attributes : list Plugin.Attribute)
  : Plugin.LogEntry :=
  match src_of attributes with
  | None => Plugin.Log Plugin.pluginName "Some partial does not have 'src' attribute"
  | Some v =>
      Plugin.Log Plugin.pluginName
        ("File " ++ Plugin.basePath options ++ v ++ " does not exist.")
  end.


(** The syntax tree of the line break pattern and the prefix it reads. *)
Definition line_break_pattern : Regex :=
  RAlt (RSeq (RQuant 0 (Some 1) true (RChar (CSChar CR))) (RSeq (RChar (CSChar LF)) REmpty))
       (RSeq (RChar (CSChar CR)) REmpty).

Definition reads_line_break (s : string) : option nat :=
  match s with
  | String a s' =>
      if Ascii.eqb CR a then
        match s' with
        | String b _ => if Ascii.eqb LF b then Some 2 else Some 1
        | EmptyString => Some 1
        end
      else if Ascii.eqb LF a then Some 1 else None
  | EmptyString => None
  end.

(** Every line break (CR LF, LF or CR) replaced by one space. *)
Fixpoint collapse (s : string) : string :=
  match s with
  | EmptyString => EmptyString
  | String a s' =>
      if Ascii.eqb CR a then
        String " " (match s' with
                    | String b s'' => if Ascii.eqb LF b then collapse s'' else collapse s'
                    | EmptyString => EmptyString
                    end)
      else if Ascii.eqb LF a then String " " (collapse s')
      else String a (collapse s')
  end.

(** What the greedy quantifiers of the attribute pattern compute: [c*] tries
    the continuation after the longest run first. *)
Fixpoint star_greedy (cs : CharSet) (k : Continuation) (s : string) (i : nat)
         (c : Captures) : option MatchResult :=
  match s with
  | String a s' =>
      if cs_matches cs a then
        match star_greedy cs k s' (S i) c with
        | Some z => Some z
        | None => k s i c
        end
      else k s i c
  | EmptyString => k s i c
  end.

Definition plus_greedy (cs : CharSet) (k : Continuation) (s : string) (i : nat)
           (c : Captures) : option MatchResult :=
  match s with
  | String a s' => if cs_matches cs a then star_greedy cs k s' (S i) c else None
  | EmptyString => None
  end.

Definition optional_greedy (cs : CharSet) (k : Continuation) (s : string) (i : nat)
           (c : Captures) : option MatchResult :=
  match s with
  | String a s' =>
      if cs_matches cs a then
        match k s' (S i) c with
        | Some z => Some z
        | None => k s i c
        end
      else k s i c
  | EmptyString => k s i c
  end.

(** Whether [=] occurs in the run of characters other than white space the
    text starts with. *)
Fixpoint equals_in_run (s : string) : bool :=
  match s with
  | EmptyString => false
  | String a s' => if is_space a then false else Ascii.eqb a "=" || equals_in_run s'
  end.

(** The characters of a value written between double quotes that the
    attribute pattern reads as they are: no quote, no [>], no [=], no line
    terminator. *)
Definition value_char (a : ascii) : bool :=
  negb (Ascii.eqb a DQ || Ascii.eqb a "'" || Ascii.eqb a ">" || Ascii.eqb a "="
        || is_line_terminator a).

(** The characters of a key: no white space and no [=]. *)
Definition key_char (a : ascii) : bool := negb (is_space a) && negb (Ascii.eqb a "=").

Definition no_equals (s : string) : bool := all_chars (fun a => negb (Ascii.eqb a "=")) s.

(** An attribute as it is written in a tag: a space, the key, [=], the value
    between double quotes. *)
Definition render (attribute : Plugin.Attribute) : string :=
  " " ++ Plugin.key attribute ++ "=" ++ dq ++ Plugin.value attribute ++ dq.

Fixpoint render_all (attributes : list Plugin.Attribute) : string :=
  match attributes with
  | [] => EmptyString
  | a :: rest => render a ++ render_all rest
  end.

(** The attributes the parser reads as they are written. *)
Definition writable (attribute : Plugin.Attribute) : Prop :=
  Plugin.key attribute <> EmptyString
  /\ all_chars key_char (Plugin.key attribute) = true
  /\ 2 <= String.length (Plugin.value attribute)
  /\ all_chars value_char (Plugin.value attribute) = true.


(** The text without its white space. *)
Fixpoint without_space (s : string) : string :=
  match s with
  | EmptyString => EmptyString
  | String a s' => if is_space a then without_space s' else String a (without_space s')
  end.

(** A line break put before every [<tagName] and after every [tagName>]. *)
Definition break_before_opening (tagName s : string) : string :=
  substitute_all ("<" ++ tagName) (lf ++ "<" ++ tagName) s.

Definition break_after_closing (tagName s : string) : string :=
  substitute_all (tagName ++ ">") (tagName ++ ">" ++ lf) s.

(** Whether a replacement text holds the character that starts a
    replacement pattern. *)
Fixpoint has_dollar (s : string) : bool :=
  match s with
  | EmptyString => false
  | String a s' => Ascii.eqb a "$" || has_dollar s'
  end.

(** The first attribute, in order, whose placeholder starts the text. *)
Fixpoint placeholder_at (prefix : string) (attributes : list Plugin.Attribute) (s : string)
  : option (Plugin.Attribute * string) :=
  match attributes with
  | [] => None
  | a :: rest =>
      match Str.starts (prefix ++ Plugin.key a) s with
      | Some t => Some (a, t)
      | None => placeholder_at prefix rest s
      end
  end.

(** Simultaneous substitution: one pass over the original text, every
    placeholder met replaced by its value, inserted values never read again. *)
Fixpoint simultaneous_from (fuel : nat) (prefix : string)
         (attributes : list Plugin.Attribute) (s : string) : string :=
  match fuel with
  | 0 => s
  | S fuel' =>
      match s with
      | EmptyString => EmptyString
      | String c s' =>
          match placeholder_at prefix attributes s with
          | Some (a, t) => Plugin.value a ++ simultaneous_from fuel' prefix attributes t
          | None => String c (simultaneous_from fuel' prefix attributes s')
          end
      end
  end.

Definition simultaneous (prefix : string) (attributes : list Plugin.Attribute) (s : string)
  : string :=
  simultaneous_from (String.length s + 1) prefix attributes s.

(** The characters the pattern parser reads as themselves. *)
Definition pattern_char (a : ascii) : bool :=
  negb (existsb (fun c => Ascii.eqb c a)
          ["^"; "$"; "\"; "."; "*"; "+"; "?"; "("; ")"; "["; "{"; "|"]%char).

(** A text that, written in a pattern, reads itself: what [getTags] and the
    formatter expect of [tagName], which they do not escape. *)
Definition literal_text (s : string) : bool := all_chars pattern_char s.

(** The pattern that reads the text [p], then what [r] reads. *)
Fixpoint prepend (p : string) (r : Regex) : Regex :=
  match p with
  | EmptyString => r
  | String a p' => RSeq (RChar (CSChar a)) (prepend p' r)
  end.

(** The syntax trees of the two patterns of [getTags]: a group of any
    characters of the line, greedy or lazy, between the opening and the
    closing text. *)
Definition any_text (greedy : bool) (g : nat) : Regex :=
  RGroup g (RSeq (RQuant 0 None greedy (RChar CSDot)) REmpty).

Definition closed_pattern (t : string) : Regex :=
  prepend ("<" ++ t) (RSeq (any_text true 1) (literal ("/" ++ t ++ ">"))).

Definition self_closed_pattern (t : string) : Regex :=
  prepend ("<" ++ t) (RSeq (any_text false 1) (literal "/>")).

(** What the lazy star over one character computes: the continuation is tried
    after the shortest run first. *)
Fixpoint star_lazy (cs : CharSet) (k : Continuation) (s : string) (i : nat)
         (c : Captures) : option MatchResult :=
  match k s i c with
  | Some z => Some z
  | None =>
      match s with
      | String a s' => if cs_matches cs a then star_lazy cs k s' (S i) c else None
      | EmptyString => None
      end
  end.

(** The length the lazy run of any characters followed by the text [q] reads: up to the first [q],
    with no line terminator before it. *)
Fixpoint lazy_scan (q s : string) : option nat :=
  match literally q s with
  | Some n => Some n
  | None =>
      match s with
      | String a s' =>
          if is_line_terminator a then None else option_map S (lazy_scan q s')
      | EmptyString => None
      end
  end.

(** The length the greedy run of any characters followed by the text [q] reads: up to the last [q] of
    the line. *)
Fixpoint greedy_scan (q s : string) : option nat :=
  match s with
  | String a s' =>
      if is_line_terminator a then literally q s
      else match greedy_scan q s' with
           | Some n => Some (S n)
           | None => literally q s
           end
  | EmptyString => literally q s
  end.

(** The prefix the self-closed and the closed pattern of [getTags] read. *)
Definition reads_self_closed (t s : string) : option nat :=
  match Str.starts ("<" ++ t) s with
  | Some rest => option_map (fun n => String.length ("<" ++ t) + n) (lazy_scan "/>" rest)
  | None => None
  end.

Definition reads_closed (t s : string) : option nat :=
  match Str.starts ("<" ++ t) s with
  | Some rest =>
      option_map (fun n => String.length ("<" ++ t) + n) (greedy_scan ("/" ++ t ++ ">") rest)
  | None => None
  end.

(** The texts [m] recognises, from left to right, each search resuming
    after the text found before.  Every text found is at least one character
    long, so [fuel] above the length of [s] is never used up. *)
Fixpoint occurrences (fuel : nat) (m : string -> option nat) (s : string) : list string :=
  match fuel with
  | 0 => []
  | S fuel' =>
      match find m s with
      | Some (u, w, t) => w :: occurrences fuel' m t
      | None => []
      end
  end.

Definition all_occurrences (m : string -> option nat) (s : string) : list string :=
  occurrences (String.length s + 2) m s.

(** A text without line terminators. *)
Definition one_line (s : string) : bool :=
  all_chars (fun a => negb (is_line_terminator a)) s.

(** The three replacements of the formatter. *)
Definition formatted (tagName document : string) : string :=
  break_after_closing tagName (break_before_opening tagName (collapse document)).

(** [x] is [y], unless [x] ran out of fuel. *)
Definition refines {A : Type} (x y : Plugin.Result A) : Prop :=
  x = Plugin.OutOfFuel \/ x = y.

(** The value of a key after the calls [configs] of [transform], [d] being
    its value before them. *)
Fixpoint latest (given : Plugin.Config -> option string) (configs : list Plugin.Config)
         (d : string) : string :=
  match configs with
  | [] => d
  | c :: rest => latest given rest (Plugin.or_else (given c) d)
  end.

(** The attributes written as [key="value"] with a value of one character
    or more. *)
Definition readable (attribute : Plugin.Attribute) : Prop :=
  Plugin.key attribute <> EmptyString
  /\ all_chars key_char (Plugin.key attribute) = true
  /\ 1 <= String.length (Plugin.value attribute)
  /\ all_chars value_char (Plugin.value attribute) = true.

(** What the attribute parser reads of a written attribute: a value of one
    character comes back with its opening quote. *)
Definition read_back (attribute : Plugin.Attribute) : Plugin.Attribute :=
  if (String.length (Plugin.value attribute) =? 1)%nat
  then {| Plugin.key := Plugin.key attribute; Plugin.value := dq ++ Plugin.value attribute |}
  else attribute.

(** The text [s] with the first occurrence of [tag] replaced by [text],
    nothing in [text] being interpreted. *)
Definition put_first (tag text s : string) : string :=
  match Str.split_at tag s with
  | Some (before, after) => before ++ text ++ after
  | None => s
  end.

(** The text [p] starts nowhere inside [x], in the text [x ++ rest]. *)
Fixpoint absent_in (p x rest : string) : bool :=
  match x with
  | EmptyString => true
  | String a x' =>
      match Str.starts p (x ++ rest) with
      | Some _ => false
      | None => absent_in p x' rest
      end
  end.

(** The character [c] does not occur in [s]. *)
Definition lacks (c : ascii) (s : string) : bool :=
  all_chars (fun a => negb (Ascii.eqb a c)) s.

(** White space between the attributes of a tag: one character or more,
    spaces, tabs and line breaks alike. *)
Definition separator (sep : string) : bool :=
  match sep with
  | EmptyString => false
  | _ => all_chars is_space sep
  end.

(** An attribute as it is written in a tag, after the white space that
    separates it from what is before: the pair of the white space and the
    attribute stands for the text [key="value"] after that white space. *)
Definition written (item : string * Plugin.Attribute) : string :=
  fst item ++ Plugin.key (snd item) ++ "=" ++ dq ++ Plugin.value (snd item) ++ dq.

Fixpoint written_all (items : list (string * Plugin.Attribute)) : string :=
  match items with
  | [] => EmptyString
  | item :: rest => written item ++ written_all rest
  end.

(** What the attribute parser reads of written attributes. *)
Definition attributes_of (items : list (string * Plugin.Attribute)) : list Plugin.Attribute :=
  map (fun item => read_back (snd item)) items.

Definition item_readable (item : string * Plugin.Attribute) : Prop :=
  separator (fst item) = true /\ readable (snd item).

(** The text [y] does not start with a line feed. *)
Definition no_line_feed_first (y : string) : bool :=
  match y with
  | String b _ => negb (Ascii.eqb LF b)
  | EmptyString => true
  end.

(** The characters of an ordinary tag name: no pattern character, no white
    space and none of [<], [>], [/], [=] and the double quote. *)
Definition tag_name_char (a : ascii) : bool :=
  pattern_char a && negb (is_space a)
  && negb (existsb (Ascii.eqb a) ["<"; ">"; "/"; "="; DQ]%char).

Definition tag_name (t : string) : bool :=
  match t with
  | EmptyString => false
  | _ => all_chars tag_name_char t
  end.

(** Neither [<tagName] nor [tagName>] occurs in [s]. *)
Definition tagless (t s : string) : bool :=
  negb (Str.includes ("<" ++ t) s) && negb (Str.includes (t ++ ">") s).

(** An attribute written as [key="value"] after white space, with a key and a
    value the scanner does not take for markup. *)
Definition item_ok (item : string * Plugin.Attribute) : Prop :=
  separator (fst item) = true
  /\ readable (snd item)
  /\ lacks "<" (Plugin.key (snd item)) = true
  /\ lacks ">" (Plugin.key (snd item)) = true
  /\ lacks "<" (Plugin.value (snd item)) = true.

(** The written attributes with the line breaks of the white space replaced. *)
Definition collapse_items (items : list (string * Plugin.Attribute))
  : list (string * Plugin.Attribute) :=
  map (fun item => (collapse (fst item), snd item)) items.

(** What the proofs use of an ordinary tag name. *)
Record TagName (t : string) : Prop := {
  tn_first : exists b t', t = String b t' /\ tag_name_char b = true;
  tn_literal : literal_text t = true;
  tn_no_equals : no_equals t = true;
  tn_one_line : one_line t = true;
  tn_lt : lacks "<" t = true;
  tn_gt : lacks ">" t = true;
  tn_slash : lacks "/" t = true;
  tn_dq : lacks DQ t = true;
  tn_lf : lacks LF t = true
}.

End Spec.

(** ** Fixtures of the examples *)

Module Examples.

Import Plugin.

(** A pretty printer that returns its input: what [html.prettyPrint] does to
    a text it has no white space to change in. *)
Definition keep_text : string -> string := fun html => html.

(** A file system given by the list of its files. *)
Definition files (l : list (string * string)) : FileSystem :=
  fun path =>
    match find (fun entry => String.eqb (fst entry) path) l with
    | Some entry => Some (snd entry)
    | None => None
    end.

(** [injectHTML] as [getPartial] calls it, with [fuel] levels of inclusion. *)
Definition include (prettyPrint : string -> string) (fs : FileSystem) (options : Options)
           (fuel : nat) (bytes : string) : Result string :=
  file <- injectHTML prettyPrint fs options fuel (NodeBuffer bytes) ;; ret (text_of file).

End Examples.

(** * Properties *)

Import Str RegExp Plugin Spec Examples.
Open Scope nat_scope.

(** ** Strings *)

Lemma append_nil_r (s : string) : s ++ "" = s.
Proof. induction s; simpl; congruence. Qed.

Lemma append_assoc (a b c : string) : (a ++ b) ++ c = a ++ b ++ c.
Proof. induction a; simpl; congruence. Qed.

Lemma length_append (a b : string) :
  String.length (a ++ b) = String.length a + String.length b.
Proof. induction a; simpl; congruence. Qed.

Lemma drop_length_append (a b : string) : drop (String.length a) (a ++ b) = b.
Proof. induction a; simpl; auto. Qed.

Lemma take_length_append (a b : string) : take (String.length a) (a ++ b) = a.
Proof. induction a; simpl; congruence. Qed.

Lemma take_drop (n : nat) (s : string) : take n s ++ drop n s = s.
Proof.
  revert s; induction n as [|n IH]; intros [|a s]; simpl; auto.
  now rewrite IH.
Qed.

Lemma length_take (n : nat) (s : string) :
  n <= String.length s -> String.length (take n s) = n.
Proof.
  revert s; induction n as [|n IH]; intros [|a s]; simpl; intros H; auto; try lia.
  rewrite IH; lia.
Qed.

Lemma drop_0 (s : string) : drop 0 s = s.
Proof. reflexivity. Qed.

Lemma slice_middle (a w t : string) :
  slice (String.length a) (String.length a + String.length w) (a ++ w ++ t) = w.
Proof.
  unfold slice. rewrite drop_length_append.
  replace (String.length a + String.length w - String.length a) with (String.length w) by lia.
  apply take_length_append.
Qed.

(** ** Global replacement with a pattern that reads a bounded prefix

    When the matcher of a pattern without groups is described by a function
    [m] from the remaining text to the length it reads, the global
    [replace] of the source is the left-to-right [sweep]. *)

Lemma search_unfold (r : Regex) (n : nat) (input s : string) (i : nat) :
  search r n input s i =
  match matcher r s i no_captures accept with
  | Some (e, c) => Some {| index := i; endIndex := e; groups := capture_texts input n c |}
  | None =>
      match s with
      | EmptyString => None
      | String _ s' => search r n input s' (S i)
      end
  end.
Proof. destruct s; reflexivity. Qed.

Lemma find_unfold (m : string -> option nat) (s : string) :
  find m s =
  match m s with
  | Some n => Some (EmptyString, take n s, drop n s)
  | None =>
      match s with
      | EmptyString => None
      | String a s' =>
          match find m s' with
          | Some (u, w, t) => Some (String a u, w, t)
          | None => None
          end
      end
  end.
Proof. destruct s; reflexivity. Qed.

Section LocalMatcher.

Variable r : Regex.
Variable m : string -> option nat.

Hypothesis local : forall s i,
  option_map fst (matcher r s i no_captures accept) = option_map (fun n => i + n) (m s).
Hypothesis bounded : forall s n, m s = Some n -> 0 < n <= String.length s.

Lemma find_split (s u w t : string) :
  find m s = Some (u, w, t) -> s = u ++ w ++ t /\ 0 < String.length w.
Proof.
  revert u; induction s as [|a s IH]; intros u; rewrite find_unfold.
  - destruct (m "") as [n|] eqn:E; [|discriminate].
    apply bounded in E; simpl in E; lia.
  - destruct (m (String a s)) as [n|] eqn:E.
    + intros H; inversion H; subst; clear H. apply bounded in E.
      split; [simpl (_ ++ _); now rewrite take_drop|].
      rewrite length_take; lia.
    + destruct (find m s) as [[[u' w'] t']|]; [|discriminate].
      intros H; inversion H; subst; clear H.
      destruct (IH u' eq_refl) as [-> Hw]. split; auto.
Qed.

Lemma search_find (input s : string) (i : nat) :
  search r 0 input s i =
  match find m s with
  | Some (u, w, t) =>
      Some {| index := i + String.length u;
              endIndex := i + String.length u + String.length w;
              groups := [] |}
  | None => None
  end.
Proof.
  revert i; induction s as [|a s IH]; intros i; rewrite search_unfold, find_unfold.
  - specialize (local "" i).
    destruct (matcher r "" i no_captures accept) as [[e c]|], (m "") as [n|] eqn:E;
      simpl in local; try discriminate; auto.
    apply bounded in E; simpl in E; lia.
  - specialize (local (String a s) i).
    destruct (matcher r (String a s) i no_captures accept) as [[e c]|],
             (m (String a s)) as [n|] eqn:E; simpl in local; try discriminate.
    + injection local as ->. apply bounded in E.
      cbn [capture_texts seq map String.length]. rewrite length_take by lia.
      f_equal. f_equal; lia.
    + rewrite IH. destruct (find m s) as [[[u w] t]|]; auto.
      cbn [String.length]. f_equal. f_equal; lia.
Qed.

Lemma assemble_sweep (fuel : nat) (repl before rest : string) :
  assemble (before ++ rest) repl
           (all_matches fuel (r, 0) (before ++ rest) (String.length before))
           (String.length before)
  = sweep fuel m repl before rest.
Proof.
  revert before rest; induction fuel as [|fuel IH]; intros before rest.
  - cbn [all_matches assemble sweep]. apply drop_length_append.
  - cbn [all_matches sweep]. unfold exec. cbn [fst snd].
    replace (String.length (before ++ rest) <? String.length before)%nat with false
      by (symmetry; apply Nat.ltb_ge; rewrite length_append; lia).
    rewrite drop_length_append, search_find.
    destruct (find m rest) as [[[u w] t]|] eqn:F.
    + destruct (find_split _ _ _ _ F) as [-> Hw].
      cbn [index endIndex assemble groups].
      replace (String.length before + String.length u + String.length w
               =? String.length before + String.length u)%nat with false
        by (symmetry; apply Nat.eqb_neq; lia).
      replace (String.length before <=? String.length before + String.length u)%nat with true
        by (symmetry; apply Nat.leb_le; lia).
      rewrite slice_middle. unfold matched_text. cbn [index endIndex].
      f_equal.
      assert (E1 : before ++ u ++ w ++ t = (before ++ u) ++ w ++ t)
        by now rewrite append_assoc.
      assert (E2 : before ++ u ++ w ++ t = (before ++ u ++ w) ++ t)
        by now rewrite !append_assoc.
      assert (L1 : String.length before + String.length u = String.length (before ++ u))
        by now rewrite length_append.
      assert (L2 : String.length before + String.length u + String.length w
                   = String.length (before ++ u ++ w))
        by (rewrite !length_append; lia).
      assert (A1 : slice (String.length before + String.length u)
                         (String.length before + String.length u + String.length w)
                         (before ++ u ++ w ++ t) = w)
        by (rewrite E1, L1; apply slice_middle).
      assert (A2 : take (String.length before + String.length u) (before ++ u ++ w ++ t)
                   = before ++ u)
        by (rewrite E1, L1; apply take_length_append).
      assert (A3 : drop (String.length before + String.length u + String.length w)
                        (before ++ u ++ w ++ t) = t)
        by (rewrite E2, L2; apply drop_length_append).
      rewrite A1, A2, A3. f_equal.
      rewrite E2, L2. apply IH.
    + cbn [assemble]. apply drop_length_append.
Qed.

Theorem replace_global_sweep (repl input : string) :
  replace_global (r, 0) repl input
  = sweep (String.length input + 2) m repl EmptyString input.
Proof.
  unfold replace_global.
  exact (assemble_sweep (String.length input + 2) repl EmptyString input).
Qed.

End LocalMatcher.

(** ** Sweeping, one character at a time *)

Section Sweep.

Variable m : string -> option nat.
Variable repl : string.

Lemma sweep_nil (fuel : nat) (before : string) :
  m "" = None -> sweep fuel m repl before "" = "".
Proof. intros H; destruct fuel; cbn [sweep]; auto. rewrite find_unfold, H; auto. Qed.

Lemma sweep_hit (fuel n : nat) (before s : string) :
  m s = Some n ->
  sweep (S fuel) m repl before s
  = expand (take n s) before (drop n s) [] repl
    ++ sweep fuel m repl (before ++ take n s) (drop n s).
Proof.
  intros H. cbn [sweep]. rewrite find_unfold, H.
  cbn [append]. now rewrite append_nil_r.
Qed.

Lemma sweep_skip (fuel : nat) (before : string) (a : ascii) (s : string) :
  m (String a s) = None ->
  sweep (S fuel) m repl before (String a s)
  = String a (sweep (S fuel) m repl (before ++ String a "") s).
Proof.
  intros H. cbn [sweep]. rewrite (find_unfold m (String a s)), H.
  destruct (find m s) as [[[u w] t]|]; auto.
  cbn [append]. now rewrite !append_assoc.
Qed.

End Sweep.

(** ** Literal patterns *)

Lemma starts_length (p s rest : string) :
  starts p s = Some rest -> s = p ++ rest.
Proof.
  revert s; induction p as [|a p IH]; intros [|b s]; simpl; try congruence.
  destruct (Ascii.eqb_spec a b); [|discriminate]. subst.
  intros H. now rewrite (IH _ H).
Qed.

Lemma starts_append (p rest : string) : starts p (p ++ rest) = Some rest.
Proof. induction p as [|a p IH]; simpl; auto. now rewrite Ascii.eqb_refl. Qed.

Lemma matcher_literal (p s : string) (i : nat) (c : Captures) (k : Continuation) :
  matcher (literal p) s i c k =
  match starts p s with
  | Some rest => k rest (i + String.length p) c
  | None => None
  end.
Proof.
  revert s i; induction p as [|a p IH]; intros s i.
  - simpl. now rewrite Nat.add_0_r.
  - cbn [literal matcher]. destruct s as [|b s]; cbn [starts]; auto.
    unfold cs_matches. destruct (Ascii.eqb a b); auto.
    rewrite IH. cbn [String.length]. now rewrite Nat.add_succ_r.
Qed.

Lemma literally_local (p s : string) (i : nat) :
  option_map fst (matcher (literal p) s i no_captures accept)
  = option_map (fun n => i + n) (literally p s).
Proof.
  rewrite matcher_literal. unfold literally. now destruct (starts p s).
Qed.

Lemma literally_bounded (p : string) :
  p <> "" -> forall s n, literally p s = Some n -> 0 < n <= String.length s.
Proof.
  intros Hp s n. unfold literally.
  destruct (starts p s) as [rest|] eqn:E; [|discriminate].
  intros H; injection H as <-. apply starts_length in E. subst s.
  rewrite length_append. destruct p; [congruence|simpl; lia].
Qed.

(** Global replacement by a literal pattern is [replace_all]. *)
Lemma replace_global_literal (p repl input : string) :
  p <> "" -> replace_global (literal p, 0) repl input = replace_all p repl input.
Proof.
  intros Hp. unfold replace_all.
  apply replace_global_sweep; [apply literally_local | now apply literally_bounded].
Qed.

(** ** The parser on escaped sources

    [new RegExp(escapeRegExp(p))] is the literal pattern of [p]. *)

Ltac each_character a :=
  destruct a as [[] [] [] [] [] [] [] []]; try discriminate; try reflexivity.

Lemma parse_term_escape (fuel n : nat) (a : ascii) (rest : string) :
  needs_escape a = true ->
  parse_term (S fuel) (String "\" (String a rest)) n
  = (let (q, rest') := parse_quantifier (RChar (CSChar a)) rest in Some (q, rest', n)).
Proof. each_character a. Qed.

Lemma parse_term_plain (fuel n : nat) (a : ascii) (rest : string) :
  needs_escape a = false ->
  parse_term (S fuel) (String a rest) n
  = (let (q, rest') := parse_quantifier (RChar (CSChar a)) rest in Some (q, rest', n)).
Proof. each_character a. Qed.

Lemma parse_alternative_plain (fuel n : nat) (a : ascii) (rest : string) :
  needs_escape a = false ->
  parse_alternative (S fuel) (String a rest) n
  = match parse_term fuel (String a rest) n with
    | Some (t, rest1, n1) =>
        match parse_alternative fuel rest1 n1 with
        | Some (r, rest2, n2) => Some (RSeq t r, rest2, n2)
        | None => None
        end
    | None => None
    end.
Proof. each_character a. Qed.

Lemma parse_quantifier_escaped (r : Regex) (s : string) :
  parse_quantifier r (escaped s) = (r, escaped s).
Proof.
  destruct s as [|a s]; [reflexivity|]. cbn [escaped].
  destruct (needs_escape a) eqn:E; [reflexivity|].
  revert E. each_character a.
Qed.

Lemma parse_alternative_escaped (s : string) (fuel n : nat) :
  2 * String.length s + 1 <= fuel ->
  parse_alternative fuel (escaped s) n = Some (literal s, EmptyString, n).
Proof.
  revert fuel; induction s as [|a s IH]; intros fuel Hf.
  - destruct fuel; [simpl in Hf; lia|reflexivity].
  - cbn [String.length] in Hf.
    destruct fuel as [|[|fuel]]; try lia.
    cbn [escaped literal]. destruct (needs_escape a) eqn:E.
    + change (parse_alternative (S (S fuel)) (String "\" (String a (escaped s))) n)
        with (match parse_term (S fuel) (String "\" (String a (escaped s))) n with
              | Some (t, rest1, n1) =>
                  match parse_alternative (S fuel) rest1 n1 with
                  | Some (r, rest2, n2) => Some (RSeq t r, rest2, n2)
                  | None => None
                  end
              | None => None
              end).
      rewrite parse_term_escape, parse_quantifier_escaped by assumption.
      rewrite IH by lia. reflexivity.
    + rewrite parse_alternative_plain, parse_term_plain, parse_quantifier_escaped
        by assumption.
      rewrite IH by lia. reflexivity.
Qed.

Lemma length_escaped (s : string) : String.length s <= String.length (escaped s).
Proof.
  induction s as [|a s IH]; simpl; auto.
  destruct (needs_escape a); simpl; lia.
Qed.

Theorem parse_escaped (s : string) : parse (escaped s) = Some (literal s, 0).
Proof.
  unfold parse.
  pose proof (length_escaped s) as L.
  replace (3 * String.length (escaped s) + 3)
    with (S (3 * String.length (escaped s) + 2)) by lia.
  cbn [parse_disjunction].
  rewrite parse_alternative_escaped by lia. reflexivity.
Qed.

(** ** [escapeRegExp] and [replaceAttributes] *)

Lemma bind_ok_nil {A B : Type} (a : A) (f : A -> Result B) : bind (Ok a []) f = f a.
Proof. unfold bind. destruct (f a); reflexivity. Qed.

Lemma bind_ret_r {A : Type} (x : Result A) : bind x ret = x.
Proof. destruct x; simpl; auto. now rewrite app_nil_r. Qed.

Lemma parse_escape_source : parse escape_source = Some (escape_class, 0).
Proof. reflexivity. Qed.

Lemma escape_class_local (s : string) (i : nat) :
  option_map fst (matcher escape_class s i no_captures accept)
  = option_map (fun n => i + n) (reads_escape s).
Proof.
  destruct s as [|a s]; [reflexivity|].
  unfold escape_class, reads_escape. cbn [matcher].
  change (cs_matches _ a) with (needs_escape a).
  destruct (needs_escape a); simpl; auto. f_equal; lia.
Qed.

Lemma reads_escape_bounded (s : string) (n : nat) :
  reads_escape s = Some n -> 0 < n <= String.length s.
Proof.
  destruct s as [|a s]; simpl; [discriminate|].
  destruct (needs_escape a); [|discriminate]. intros H; injection H as <-. lia.
Qed.

Lemma sweep_escaped (s : string) (fuel : nat) (before : string) :
  String.length s < fuel -> sweep fuel reads_escape "\$&" before s = escaped s.
Proof.
  revert fuel before; induction s as [|a s IH]; intros fuel before Hf.
  - now apply sweep_nil.
  - destruct fuel as [|fuel]; [lia|]. cbn [String.length] in Hf. cbn [escaped].
    destruct (needs_escape a) eqn:E.
    + rewrite (sweep_hit reads_escape _ fuel 1) by (simpl; now rewrite E).
      cbn [take drop expand append]. rewrite IH by lia. reflexivity.
    + rewrite sweep_skip by (simpl; now rewrite E).
      rewrite IH by lia. reflexivity.
Qed.

Theorem escapeRegExp_escaped (s : string) : escapeRegExp s = Ok (escaped s) [].
Proof.
  unfold escapeRegExp, new_RegExp. rewrite parse_escape_source.
  unfold ret. rewrite bind_ok_nil. f_equal.
  rewrite (replace_global_sweep _ _ escape_class_local reads_escape_bounded).
  apply sweep_escaped. lia.
Qed.

(** One step of [replaceAttributes]: a global replacement of the text
    [variablePrefix + key]. *)
Lemma replaceAttributes_loop_cons (options : Options) (html : string)
      (attrib : Attribute) (rest : list Attribute) :
  variablePrefix options ++ key attrib <> "" ->
  replaceAttributes_loop options html (attrib :: rest)
  = replaceAttributes_loop options
      (replace_all (variablePrefix options ++ key attrib) (value attrib) html) rest.
Proof.
  intros Hp. cbn [replaceAttributes_loop].
  rewrite escapeRegExp_escaped, bind_ok_nil.
  unfold new_RegExp. rewrite parse_escaped. unfold ret. rewrite bind_ok_nil.
  now rewrite replace_global_literal.
Qed.

Theorem replaceAttributes_fold (options : Options) (file : option string)
        (attributes : list Attribute) :
  Forall (fun a => variablePrefix options ++ key a <> "") attributes ->
  replaceAttributes options file attributes
  = Ok (fold_left (replace_placeholder options) attributes
          (match file with Some text => text | None => "" end)) [].
Proof.
  unfold replaceAttributes.
  generalize (match file with Some text => text | None => "" end) as html.
  induction attributes as [|a rest IH]; intros html H.
  - reflexivity.
  - inversion H; subst.
    rewrite replaceAttributes_loop_cons by assumption.
    now rewrite IH.
Qed.

(** ** Values without replacement patterns *)

Lemma expand_no_dollar (w b t : string) (caps : list (option string)) (v : string) :
  has_dollar v = false -> expand w b t caps v = v.
Proof.
  induction v as [|a v IH]; intros H; [reflexivity|].
  cbn [has_dollar] in H. apply orb_false_iff in H as [Ha Hv].
  specialize (IH Hv).
  destruct a as [[] [] [] [] [] [] [] []]; try discriminate Ha;
    cbn [expand]; now rewrite IH.
Qed.

Lemma split_at_unfold (p s : string) :
  split_at p s =
  match starts p s with
  | Some rest => Some (EmptyString, rest)
  | None =>
      match s with
      | EmptyString => None
      | String a s' =>
          match split_at p s' with
          | Some (before, after) => Some (String a before, after)
          | None => None
          end
      end
  end.
Proof. destruct s; reflexivity. Qed.

Lemma find_literally (p s : string) :
  find (literally p) s =
  match split_at p s with
  | Some (u, t) => Some (u, p, t)
  | None => None
  end.
Proof.
  induction s as [|a s IH]; rewrite find_unfold, split_at_unfold; unfold literally at 1.
  - now destruct p.
  - destruct (starts p (String a s)) as [rest|] eqn:E.
    + apply starts_length in E. rewrite E.
      now rewrite take_length_append, drop_length_append.
    + rewrite IH. now destruct (split_at p s) as [[u t]|].
Qed.

Lemma sweep_substitute (p v : string) (fuel : nat) (before s : string) :
  has_dollar v = false ->
  sweep fuel (literally p) v before s = substitute_from fuel p v s.
Proof.
  intros Hv. revert before s; induction fuel as [|fuel IH]; intros before s.
  - reflexivity.
  - cbn [sweep substitute_from]. rewrite find_literally.
    destruct (split_at p s) as [[u t]|]; auto.
    now rewrite expand_no_dollar, IH.
Qed.

(** A value without [$] is inserted as it is. *)
Theorem replace_all_substitute (p v s : string) :
  has_dollar v = false -> replace_all p v s = substitute_all p v s.
Proof. intros Hv. now apply sweep_substitute. Qed.

(** ** What a successful match has read

    [Step r s i c s' i' c']: the pattern [r] can read from the state
    [(s, i, c)] to the state [(s', i', c')].  The backtracking matcher only
    ever passes such states to its continuation. *)

Inductive Step : Regex -> string -> nat -> Captures -> string -> nat -> Captures -> Prop :=
| StepEmpty s i c : Step REmpty s i c s i c
| StepChar cs a s i c :
    cs_matches cs a = true -> Step (RChar cs) (String a s) i c s (S i) c
| StepSeq r1 r2 s i c s1 i1 c1 s2 i2 c2 :
    Step r1 s i c s1 i1 c1 -> Step r2 s1 i1 c1 s2 i2 c2 ->
    Step (RSeq r1 r2) s i c s2 i2 c2
| StepAltL r1 r2 s i c s1 i1 c1 :
    Step r1 s i c s1 i1 c1 -> Step (RAlt r1 r2) s i c s1 i1 c1
| StepAltR r1 r2 s i c s1 i1 c1 :
    Step r2 s i c s1 i1 c1 -> Step (RAlt r1 r2) s i c s1 i1 c1
| StepQuantStop min max greedy r s i c :
    min = 0 \/ max = Some 0 -> Step (RQuant min max greedy r) s i c s i c
| StepQuantIter min max greedy r s i c s1 i1 c1 s2 i2 c2 :
    max <> Some 0 ->
    Step r s i (clear_captures (groups_of r) c) s1 i1 c1 ->
    (min = 0 -> i1 <> i) ->
    Step (RQuant (pred min) (option_map pred max) greedy r) s1 i1 c1 s2 i2 c2 ->
    Step (RQuant min max greedy r) s i c s2 i2 c2
| StepGroup g r s i c s1 i1 c1 :
    Step r s i c s1 i1 c1 ->
    Step (RGroup g r) s i c s1 i1 (set_capture c1 g (Some (i, i1)))
| StepLookahead r s i c s1 i1 c1 :
    Step r s i c s1 i1 c1 -> Step (RLook false r) s i c s i c1
| StepNegativeLookahead r s i c :
    matcher r s i c accept = None -> Step (RLook true r) s i c s i c
| StepBol s c : Step RBol s 0 c s 0 c
| StepEol i c : Step REol EmptyString i c EmptyString i c.

Definition sound (m : Matcher) (r : Regex) : Prop :=
  forall s i c k z,
    m s i c k = Some z ->
    exists s' i' c', Step r s i c s' i' c' /\ k s' i' c' = Some z.

Lemma repeat_matcher_sound (r : Regex) :
  sound (matcher r) r ->
  forall fuel min max greedy,
    sound (repeat_matcher fuel (matcher r) (groups_of r) min max greedy)
          (RQuant min max greedy r).
Proof.
  intros Hr. induction fuel as [|fuel IH]; intros min max greedy s i c k z H.
  - discriminate.
  - cbn [repeat_matcher] in H.
    assert (Stop : min = 0 \/ max = Some 0 -> k s i c = Some z ->
                   exists s' i' c', Step (RQuant min max greedy r) s i c s' i' c'
                                    /\ k s' i' c' = Some z).
    { intros Hm Hk. exists s, i, c. split; auto. now constructor. }
    assert (Iter : max <> Some 0 ->
              matcher r s i (clear_captures (groups_of r) c)
                (fun s' i' c' =>
                   if (min =? 0) && (i' =? i) then None
                   else repeat_matcher fuel (matcher r) (groups_of r) (pred min)
                          (option_map pred max) greedy s' i' c' k) = Some z ->
              exists s' i' c', Step (RQuant min max greedy r) s i c s' i' c'
                               /\ k s' i' c' = Some z).
    { intros Hmax Hm. apply Hr in Hm as (s1 & i1 & c1 & S1 & Hd).
      destruct ((min =? 0) && (i1 =? i)) eqn:E; [discriminate|].
      apply IH in Hd as (s2 & i2 & c2 & S2 & Hk).
      exists s2, i2, c2. split; auto.
      eapply StepQuantIter; eauto.
      intros ->. simpl in E. now apply Nat.eqb_neq. }
    destruct max as [[|max]|].
    + apply Stop; auto.
    + destruct (min =? 0) eqn:E; cbn [negb] in H.
      * apply Nat.eqb_eq in E.
        destruct greedy.
        -- destruct (matcher r s i _ _) eqn:M in H.
           ++ injection H as <-. apply Iter; [discriminate|exact M].
           ++ apply Stop; auto.
        -- destruct (k s i c) eqn:K.
           ++ injection H as <-. apply Stop; auto.
           ++ apply Iter; [discriminate|exact H].
      * apply Iter; [discriminate|exact H].
    + destruct (min =? 0) eqn:E; cbn [negb] in H.
      * apply Nat.eqb_eq in E.
        destruct greedy.
        -- destruct (matcher r s i _ _) eqn:M in H.
           ++ injection H as <-. apply Iter; [discriminate|exact M].
           ++ apply Stop; auto.
        -- destruct (k s i c) eqn:K.
           ++ injection H as <-. apply Stop; auto.
           ++ apply Iter; [discriminate|exact H].
      * apply Iter; [discriminate|exact H].
Qed.

Theorem matcher_sound (r : Regex) : sound (matcher r) r.
Proof.
  induction r as [|cs|r1 IH1 r2 IH2|r1 IH1 r2 IH2|min max greedy r IH|g r IH|neg r IH| |];
    intros s i c k z H; cbn [matcher] in H.
  - exists s, i, c. split; [constructor|assumption].
  - destruct s as [|a s]; [discriminate|].
    destruct (cs_matches cs a) eqn:E; [|discriminate].
    exists s, (S i), c. split; [now constructor|assumption].
  - apply IH1 in H as (s1 & i1 & c1 & S1 & H).
    apply IH2 in H as (s2 & i2 & c2 & S2 & H).
    exists s2, i2, c2. split; [econstructor; eauto|assumption].
  - destruct (matcher r1 s i c k) eqn:M.
    + injection H as <-. apply IH1 in M as (s1 & i1 & c1 & S1 & M).
      exists s1, i1, c1. split; [now apply StepAltL|assumption].
    + apply IH2 in H as (s1 & i1 & c1 & S1 & H).
      exists s1, i1, c1. split; [now apply StepAltR|assumption].
  - eapply repeat_matcher_sound; eauto.
  - apply IH in H as (s1 & i1 & c1 & S1 & H).
    exists s1, i1, (set_capture c1 g (Some (i, i1))). split; [now constructor|assumption].
  - destruct (matcher r s i c accept) as [[e c']|] eqn:M.
    + destruct neg; [discriminate|].
      apply IH in M as (s1 & i1 & c1 & S1 & M). injection M as <- <-.
      exists s, i, c1. split; [econstructor; eauto|assumption].
    + destruct neg; [|discriminate].
      exists s, i, c. split; [now constructor|assumption].
  - destruct (i =? 0) eqn:E; [|discriminate]. apply Nat.eqb_eq in E. subst.
    exists s, 0, c. split; [constructor|assumption].
  - destruct s; [|discriminate].
    exists "", i, c. split; [constructor|assumption].
Qed.

(** The state [(s, i)] lies in [input]: [s] is what follows index [i]. *)
Definition located (input s : string) (i : nat) : Prop :=
  exists pre, input = pre ++ s /\ String.length pre = i.

Lemma all_chars_append (p : ascii -> bool) (a b : string) :
  all_chars p (a ++ b) = all_chars p a && all_chars p b.
Proof. induction a as [|x a IH]; simpl; auto. now rewrite IH, andb_assoc. Qed.

Lemma Step_reads (r : Regex) s i c s' i' c' :
  Step r s i c s' i' c' ->
  exists w, s = w ++ s' /\ i' = i + String.length w /\ min_length r <= String.length w
            /\ forall p, only_reads p r -> all_chars p w = true.
Proof.
  induction 1 as
    [s i c|cs a s i c Hc|r1 r2 s i c s1 i1 c1 s2 i2 c2 _ IH1 _ IH2
    |r1 r2 s i c s1 i1 c1 _ IH|r1 r2 s i c s1 i1 c1 _ IH
    |min max greedy r s i c Hs
    |min max greedy r s i c s1 i1 c1 s2 i2 c2 Hmax _ IH1 Hp _ IH2
    |g r s i c s1 i1 c1 _ IH|r s i c s1 i1 c1 _ IH|r s i c Hn|s c|i c].
  - exists "". simpl. repeat split; auto.
  - exists (String a ""). simpl. repeat split; auto; try lia.
    intros p Hp. now rewrite (Hp a Hc).
  - destruct IH1 as (w1 & -> & -> & L1 & P1), IH2 as (w2 & -> & -> & L2 & P2).
    exists (w1 ++ w2). rewrite append_assoc, length_append. simpl.
    repeat split; auto; try lia.
    intros p [H1 H2]. now rewrite all_chars_append, P1, P2.
  - destruct IH as (w & -> & -> & L & P). exists w. simpl.
    repeat split; auto; try lia. intros p [H1 _]; auto.
  - destruct IH as (w & -> & -> & L & P). exists w. simpl.
    repeat split; auto; try lia. intros p [_ H2]; auto.
  - exists "". simpl. repeat split; auto.
    destruct Hs as [-> | ->]; [now destruct max as [[]|]|]. lia.
  - destruct IH1 as (w1 & -> & -> & L1 & P1), IH2 as (w2 & -> & -> & L2 & P2).
    exists (w1 ++ w2). rewrite append_assoc, length_append.
    repeat split; auto; try lia.
    + cbn [min_length]. destruct max as [[]|], min; try congruence; lia.
    + intros p Hq. rewrite all_chars_append, P1, P2; auto.
  - destruct IH as (w & -> & -> & L & P). exists w. simpl. repeat split; auto.
  - exists "". simpl. repeat split; auto.
  - exists "". simpl. repeat split; auto.
  - exists "". simpl. repeat split; auto.
  - exists "". simpl. repeat split; auto.
Qed.

Lemma Step_located (input : string) (r : Regex) s i c s' i' c' :
  located input s i -> Step r s i c s' i' c' ->
  located input s' i' /\ i + min_length r <= i'
  /\ (forall p, only_reads p r -> all_chars p (slice i i' input) = true)
  /\ String.length (slice i i' input) = i' - i.
Proof.
  intros (pre & -> & <-) H.
  destruct (Step_reads _ _ _ _ _ _ _ H) as (w & -> & -> & L & P).
  rewrite slice_middle.
  repeat split; auto; try lia.
  exists (pre ++ w). now rewrite append_assoc, length_append.
Qed.

Lemma located_bound (input s : string) (i : nat) :
  located input s i -> i <= String.length input.
Proof. intros (pre & -> & <-). rewrite length_append. lia. Qed.

Lemma clear_captures_other (gs : list nat) (c : Captures) (g : nat) :
  ~ In g gs -> clear_captures gs c g = c g.
Proof.
  intros H. unfold clear_captures.
  destruct (existsb (Nat.eqb g) gs) eqn:E; auto.
  apply existsb_exists in E as (x & Hx & E). apply Nat.eqb_eq in E. now subst.
Qed.

(** A pattern leaves the captures of the groups it does not contain alone. *)
Lemma Step_frame (r : Regex) s i c s' i' c' :
  Step r s i c s' i' c' -> forall g, ~ In g (groups_of r) -> c' g = c g.
Proof.
  induction 1; intros g0 Hg; cbn [groups_of] in Hg; auto.
  - rewrite IHStep2, IHStep1; auto; intros Hin; apply Hg, in_or_app; auto.
  - apply IHStep. intros Hin; apply Hg, in_or_app; auto.
  - apply IHStep. intros Hin; apply Hg, in_or_app; auto.
  - rewrite IHStep2, IHStep1 by auto. now apply clear_captures_other.
  - unfold set_capture. destruct (Nat.eqb_spec g0 g).
    + subst. exfalso. apply Hg. now left.
    + apply IHStep. intros Hin. apply Hg. now right.
Qed.

(** ** The attribute parser *)

Lemma parse_attributes_source : parse attributes_source = Some (attribute_pattern, 2).
Proof. reflexivity. Qed.

Lemma located_next (input : string) (a : ascii) (s : string) (i : nat) :
  located input (String a s) i -> located input s (S i).
Proof.
  intros (pre & -> & <-). exists (pre ++ String a "").
  rewrite append_assoc, length_append. simpl. split; auto. lia.
Qed.

Lemma located_drop (input : string) (n : nat) :
  n <= String.length input -> located input (drop n input) n.
Proof.
  intros H. exists (take n input). now rewrite take_drop, length_take.
Qed.

(** What [search] returns is a match of the pattern at the index it reports. *)
Lemma search_sound (r : Regex) (n : nat) (input s : string) (i : nat) (m : Match) :
  located input s i -> search r n input s i = Some m ->
  exists s0 c,
    located input s0 (index m) /\ i <= index m
    /\ matcher r s0 (index m) no_captures accept = Some (endIndex m, c)
    /\ groups m = capture_texts input n c.
Proof.
  revert i; induction s as [|a s IH]; intros i L; rewrite search_unfold.
  - destruct (matcher r "" i no_captures accept) as [[e c]|] eqn:M; [|discriminate].
    intros H; injection H as <-. exists "", c. simpl. auto.
  - destruct (matcher r (String a s) i no_captures accept) as [[e c]|] eqn:M.
    + intros H; injection H as <-. exists (String a s), c. simpl. auto.
    + intros H. apply IH in H as (s0 & c & L0 & Hi & H);
        [|now apply (located_next input a)].
      exists s0, c. repeat split; auto; try tauto. lia.
Qed.

Lemma exec_sound (r : Regex) (n : nat) (input : string) (lastIndex : nat) (m : Match) :
  exec (r, n) input lastIndex = Some m ->
  exists s0 c,
    located input s0 (index m) /\ lastIndex <= index m
    /\ matcher r s0 (index m) no_captures accept = Some (endIndex m, c)
    /\ groups m = capture_texts input n c.
Proof.
  unfold exec. destruct (String.length input <? lastIndex) eqn:E; [discriminate|].
  apply Nat.ltb_ge in E. cbn [fst snd].
  apply search_sound. now apply located_drop.
Qed.

Lemma all_chars_nonempty_slice (input : string) (i j : nat) :
  String.length (slice i j input) = j - i -> i < j -> slice i j input <> "".
Proof. intros H Hij E. rewrite E in H. simpl in H. lia. Qed.

(** A match of the attribute pattern: the key is not empty and holds no
    white space, the value has two characters or more. *)
Lemma attribute_match (input s : string) (i e : nat) (c : Captures) :
  located input s i ->
  matcher attribute_pattern s i no_captures accept = Some (e, c) ->
  exists k v,
    capture_texts input 2 c = [Some k; Some v]
    /\ k <> "" /\ all_chars (fun a => negb (is_space a)) k = true
    /\ 2 <= String.length v
    /\ i + 4 <= e <= String.length input.
Proof.
  intros L M. apply matcher_sound in M as (s' & e' & c' & S & A).
  injection A as <- <-. unfold attribute_pattern in S.
  repeat match goal with
  | H : Step (RSeq _ _) _ _ _ _ _ _ |- _ => inversion H; subst; clear H
  | H : Step (RGroup _ _) _ _ _ _ _ _ |- _ => inversion H; subst; clear H
  | H : Step REmpty _ _ _ _ _ _ |- _ => inversion H; subst; clear H
  end.
  match goal with
  | K : Step key_pattern _ _ _ ?s1 ?i1 ?c1,
    E1 : Step (RChar _) ?s1 ?i1 _ ?s2 ?i2 ?c2,
    Q1 : Step optional_quote ?s2 ?i2 ?c2 ?s3 ?i3 ?c3,
    V : Step value_pattern ?s3 ?i3 ?c3 ?s4 ?i4 ?c4,
    Q2 : Step optional_quote ?s4 ?i4 _ _ _ _ |- _ =>
      destruct (Step_located input _ _ _ _ _ _ _ L K) as (L1 & B1 & P1 & N1);
      destruct (Step_located input _ _ _ _ _ _ _ L1 E1) as (L2 & B2 & _ & _);
      destruct (Step_located input _ _ _ _ _ _ _ L2 Q1) as (L3 & B3 & _ & _);
      destruct (Step_located input _ _ _ _ _ _ _ L3 V) as (L4 & B4 & _ & N4);
      destruct (Step_located input _ _ _ _ _ _ _ L4 Q2) as (L5 & B5 & _ & _);
      pose proof (Step_frame _ _ _ _ _ _ _ E1 1) as F1;
      pose proof (Step_frame _ _ _ _ _ _ _ Q1 1) as F2;
      pose proof (Step_frame _ _ _ _ _ _ _ V 1) as F3;
      pose proof (Step_frame _ _ _ _ _ _ _ Q2 1) as F4;
      pose proof (Step_frame _ _ _ _ _ _ _ Q2 2) as F5;
      exists (slice i i1 input), (slice i3 i4 input)
  end.
  cbn [min_length key_pattern value_pattern optional_quote non_space] in *.
  cbn in F1, F2, F3, F4, F5.
  unfold capture_texts. cbn [seq map].
  rewrite F4, F5 by tauto. rewrite F3, F2, F1 by tauto.
  repeat split; auto.
  - apply all_chars_nonempty_slice; auto. lia.
  - apply P1. cbn. repeat split; auto.
    intros a Ha. now rewrite orb_false_r in Ha.
  - rewrite N4. lia.
  - lia.
  - apply located_bound in L5. lia.
Qed.

Lemma getAttributes_loop_total (tag : string) (fuel lastIndex : nat) :
  String.length tag + 1 <= lastIndex + fuel -> 1 <= fuel ->
  exists attributes,
    getAttributes_loop fuel (attribute_pattern, 2) tag lastIndex = Some attributes
    /\ Forall well_formed attributes.
Proof.
  revert lastIndex; induction fuel as [|fuel IH]; intros lastIndex H1 H2; [lia|].
  cbn [getAttributes_loop].
  destruct (exec (attribute_pattern, 2) tag lastIndex) as [m|] eqn:E.
  - apply exec_sound in E as (s0 & c & L & Hi & M & G).
    destruct (attribute_match _ _ _ _ _ L M) as (k & v & C & K1 & K2 & V & B).
    destruct (IH (endIndex m)) as (attributes & -> & W); try lia.
    eexists; split; [reflexivity|].
    constructor; auto. rewrite G, C. cbn. repeat split; auto.
  - exists []. split; auto.
Qed.

(** [getAttributes] returns, logs nothing, and every attribute it returns
    is well formed. *)
Theorem getAttributes_well_formed (tag : string) :
  exists attributes,
    getAttributes tag = Ok attributes [] /\ Forall well_formed attributes.
Proof.
  unfold getAttributes, new_RegExp. rewrite parse_attributes_source.
  unfold ret. rewrite bind_ok_nil.
  destruct (getAttributes_loop_total tag (String.length tag + 1) 0)
    as (attributes & -> & W); try lia.
  now exists attributes.
Qed.

(** ** [getPartial] on a tag it cannot resolve *)

Lemma append_not_empty_r (a b : string) : b <> "" -> a ++ b <> "".
Proof. destruct a; simpl; [auto|discriminate]. Qed.

Lemma well_formed_placeholder (options : Options) (attributes : list Attribute) :
  Forall well_formed attributes ->
  Forall (fun a => variablePrefix options ++ key a <> "") attributes.
Proof.
  apply Forall_impl. intros a (K & _). now apply append_not_empty_r.
Qed.

Lemma Forall_filter {A : Type} (P : A -> Prop) (f : A -> bool) (l : list A) :
  Forall P l -> Forall P (filter f l).
Proof.
  induction 1 as [|x l Hx Hl IH]; simpl; [constructor|].
  destruct (f x); auto.
Qed.

Lemma replace_all_empty (p v : string) : p <> "" -> replace_all p v "" = "".
Proof.
  intros Hp. unfold replace_all. cbn [String.length Nat.add sweep].
  rewrite find_literally, split_at_unfold.
  destruct p; [congruence|reflexivity].
Qed.

Lemma fold_placeholders_empty (options : Options) (attributes : list Attribute) :
  Forall (fun a => variablePrefix options ++ key a <> "") attributes ->
  fold_left (replace_placeholder options) attributes "" = "".
Proof.
  induction 1 as [|a l Ha Hl IH]; simpl; auto.
  unfold replace_placeholder at 2. now rewrite replace_all_empty.
Qed.

Section Unresolved.

Variable fs : FileSystem.
Variable options : Options.
Variable inject : string -> Result string.

Lemma getPartial_missing_src (attributes : list Attribute) :
  Forall well_formed attributes ->
  src_of attributes = None ->
  getPartial fs options inject attributes
  = Ok "" [Log pluginName "Some partial does not have 'src' attribute"].
Proof.
  intros W H. unfold getPartial. rewrite partition_as_filter. cbn [fst snd].
  unfold src_of in H. destruct (filter is_src attributes); [|discriminate].
  cbn [bind log_line ret app].
  rewrite replaceAttributes_fold
    by (apply Forall_filter, well_formed_placeholder, W).
  rewrite fold_placeholders_empty
    by (apply Forall_filter, well_formed_placeholder, W).
  reflexivity.
Qed.

Lemma getPartial_missing_file (attributes : list Attribute) (v : string) :
  Forall well_formed attributes ->
  src_of attributes = Some v ->
  fs (basePath options ++ v) = None ->
  getPartial fs options inject attributes
  = Ok "" [Log pluginName ("File " ++ basePath options ++ v ++ " does not exist.")].
Proof.
  intros W H F. unfold getPartial. rewrite partition_as_filter. cbn [fst snd].
  unfold src_of in H.
  destruct (filter is_src attributes) as [|a l] eqn:E; [discriminate|].
  injection H as <-.
  assert (Wa : well_formed a).
  { assert (In a (filter is_src attributes)) by (rewrite E; now left).
    apply filter_In in H as [H _]. revert H. now apply Forall_forall. }
  destruct Wa as (_ & _ & V). destruct (value a) as [|c v] eqn:Ev; [simpl in V; lia|].
  rewrite F. cbn [bind log_line ret app].
  rewrite replaceAttributes_fold
    by (apply Forall_filter, well_formed_placeholder, W).
  rewrite fold_placeholders_empty
    by (apply Forall_filter, well_formed_placeholder, W).
  reflexivity.
Qed.

(** A tag without a source, or whose source is not a file, resolves to the
    empty text and logs one line. *)
Lemma partial_of_unresolved (tag : string) (attributes : list Attribute) :
  getAttributes tag = Ok attributes [] ->
  src_of attributes = None
  \/ (exists v, src_of attributes = Some v /\ fs (basePath options ++ v) = None) ->
  partial_of fs options inject tag = Ok "" [unresolved_entry options attributes].
Proof.
  intros E H. unfold partial_of. rewrite E, bind_ok_nil.
  destruct (getAttributes_well_formed tag) as (attributes' & E' & W).
  rewrite E in E'. injection E' as <-.
  unfold unresolved_entry.
  destruct H as [H | (v & H & F)]; rewrite H.
  - now apply getPartial_missing_src.
  - now apply getPartial_missing_file.
Qed.

End Unresolved.

(** ** Mapping over the tags *)

Lemma bind_ok {A B : Type} (x : Result A) (f : A -> Result B) (b : B) (l : list LogEntry) :
  bind x f = Ok b l ->
  exists a l1 l2, x = Ok a l1 /\ f a = Ok b l2 /\ l = (l1 ++ l2)%list.
Proof.
  destruct x as [a l1| |]; simpl; try discriminate.
  destruct (f a) as [b' l2| |] eqn:E; try discriminate.
  intros H; injection H as <- <-. now exists a, l1, l2.
Qed.

Lemma mapM_length {A B : Type} (f : A -> Result B) (xs : list A) (ys : list B)
      (l : list LogEntry) :
  mapM f xs = Ok ys l -> List.length ys = List.length xs.
Proof.
  revert ys l; induction xs as [|x xs IH]; intros ys l; cbn [mapM].
  - intros H; injection H as <- <-. reflexivity.
  - intros H. apply bind_ok in H as (y & l1 & l2 & _ & H & _).
    apply bind_ok in H as (ys' & l3 & l4 & H & R & _).
    injection R as <- <-. simpl. f_equal. eauto.
Qed.

Lemma mapM_middle {A B : Type} (f : A -> Result B) (xs1 xs2 : list A) (x : A)
      (ys1 ys2 : list B) (y : B) (l1 l l2 : list LogEntry) :
  mapM f xs1 = Ok ys1 l1 -> f x = Ok y l -> mapM f xs2 = Ok ys2 l2 ->
  mapM f (xs1 ++ x :: xs2) = Ok (ys1 ++ y :: ys2)%list (l1 ++ l ++ l2)%list.
Proof.
  intros H1 Hx H2. revert ys1 l1 H1; induction xs1 as [|a xs1 IH]; intros ys1 l1 H1.
  - injection H1 as <- <-. cbn [mapM app]. rewrite Hx, H2. cbn.
    now rewrite app_nil_r.
  - cbn [mapM] in H1. apply bind_ok in H1 as (b & la & lb & Ha & H1 & ->).
    apply bind_ok in H1 as (bs & lc & ld & Hb & R & ->).
    injection R as <- <-.
    cbn [mapM app]. rewrite Ha, (IH _ _ Hb). cbn.
    now rewrite !app_nil_r, <- !app_assoc.
Qed.

Lemma replace_tags_middle (html : string) (tags1 tags2 partials1 partials2 : list string)
      (tag partial : string) :
  List.length partials1 = List.length tags1 ->
  replace_tags html (tags1 ++ tag :: tags2) (partials1 ++ partial :: partials2)
  = replace_tags (replace_first tag partial (replace_tags html tags1 partials1))
                 tags2 partials2.
Proof.
  revert html partials1; induction tags1 as [|t tags1 IH]; intros html [|p partials1] H;
    try discriminate; cbn [replace_tags app]; auto.
Qed.

Lemma replace_first_empty (tag s : string) : replace_first tag "" s = remove_first tag s.
Proof.
  unfold replace_first, remove_first.
  destruct (split_at tag s) as [[before after]|]; reflexivity.
Qed.

(** ** The formatter *)





Lemma has_dollar_append (a b : string) :
  has_dollar (a ++ b) = has_dollar a || has_dollar b.
Proof. induction a as [|x a IH]; simpl; auto. now rewrite IH, orb_assoc. Qed.

Lemma parse_line_break_source : parse line_break_source = Some (line_break_pattern, 0).
Proof. reflexivity. Qed.

Lemma line_break_local (s : string) (i : nat) :
  option_map fst (matcher line_break_pattern s i no_captures accept)
  = option_map (fun n => i + n) (reads_line_break s).
Proof.
  assert (N : (S i =? i) = false) by (apply Nat.eqb_neq; lia).
  unfold line_break_pattern, reads_line_break.
  change CR with "013"%char. change LF with "010"%char.
  destruct s as [|a [|b s]]; [reflexivity| |].
  - destruct (Ascii.eqb_spec "013" a) as [<-|Ea].
    + cbn -[Nat.eqb]. rewrite N. cbn. f_equal; lia.
    + apply Ascii.eqb_neq in Ea. cbn -[Nat.eqb Ascii.eqb]. rewrite Ea.
      destruct (Ascii.eqb "010" a); cbn; [f_equal; lia|reflexivity].
  - destruct (Ascii.eqb_spec "013" a) as [<-|Ea].
    + cbn -[Nat.eqb Ascii.eqb]. rewrite N.
      change (Ascii.eqb "013" "013") with true.
      change (Ascii.eqb "010" "013") with false.
      destruct (Ascii.eqb "010" b); cbn; f_equal; lia.
    + apply Ascii.eqb_neq in Ea. cbn -[Nat.eqb Ascii.eqb]. rewrite Ea.
      destruct (Ascii.eqb "010" a); cbn; [f_equal; lia|reflexivity].
Qed.

Lemma reads_line_break_bounded (s : string) (n : nat) :
  reads_line_break s = Some n -> 0 < n <= String.length s.
Proof.
  unfold reads_line_break.
  destruct s as [|a [|b s]]; cbn [String.length]; try discriminate.
  - destruct (Ascii.eqb CR a); [|destruct (Ascii.eqb LF a)];
      intros H; inversion H; lia.
  - destruct (Ascii.eqb CR a); [destruct (Ascii.eqb LF b)|destruct (Ascii.eqb LF a)];
      intros H; inversion H; lia.
Qed.

Lemma sweep_collapse (n : nat) :
  forall (s : string) (fuel : nat) (before : string),
    String.length s <= n -> String.length s < fuel ->
    sweep fuel reads_line_break " " before s = collapse s.
Proof.
  induction n as [|n IH]; intros s fuel before Hn Hf.
  - destruct s; [|simpl in Hn; lia]. now apply sweep_nil.
  - destruct s as [|a s]; [now apply sweep_nil|].
    destruct fuel as [|fuel]; [lia|]. cbn [String.length] in Hn, Hf.
    cbn [collapse]. destruct (Ascii.eqb CR a) eqn:Ea.
    + destruct s as [|b s].
      * rewrite (sweep_hit _ _ _ 1) by (unfold reads_line_break; now rewrite Ea).
        cbn [take drop expand append]. rewrite sweep_nil; reflexivity.
      * cbn [String.length] in Hn, Hf. destruct (Ascii.eqb LF b) eqn:Eb.
        -- rewrite (sweep_hit _ _ _ 2) by (unfold reads_line_break; now rewrite Ea, Eb).
           cbn [take drop expand append]. rewrite IH by lia. reflexivity.
        -- rewrite (sweep_hit _ _ _ 1) by (unfold reads_line_break; now rewrite Ea, Eb).
           cbn [take drop expand append]. rewrite IH by (simpl; lia). reflexivity.
    + destruct (Ascii.eqb LF a) eqn:El.
      * rewrite (sweep_hit _ _ _ 1) by (unfold reads_line_break; now rewrite Ea, El).
        cbn [take drop expand append]. rewrite IH by lia. reflexivity.
      * rewrite sweep_skip by (unfold reads_line_break; now rewrite Ea, El).
        rewrite IH by lia. reflexivity.
Qed.

(** The first replacement of [injectHTML]. *)
Lemma replace_line_breaks (content : string) :
  replace_global (line_break_pattern, 0) " " content = collapse content.
Proof.
  rewrite (replace_global_sweep _ _ line_break_local reads_line_break_bounded).
  apply (sweep_collapse (String.length content)); lia.
Qed.


Lemma collapse_space (s : string) : collapse (String " " s) = String " " (collapse s).
Proof. reflexivity. Qed.

Lemma collapse_idempotent_upto (n : nat) :
  forall s, String.length s <= n -> collapse (collapse s) = collapse s.
Proof.
  induction n as [|n IH]; intros [|a s] Hn; try reflexivity; [simpl in Hn; lia|].
  cbn [String.length] in Hn. cbn [collapse].
  destruct (Ascii.eqb CR a) eqn:Ea.
  - rewrite collapse_space. f_equal.
    destruct s as [|b s]; [reflexivity|]. cbn [String.length] in Hn.
    destruct (Ascii.eqb LF b); apply IH; cbn [String.length]; lia.
  - destruct (Ascii.eqb LF a) eqn:El.
    + rewrite collapse_space. f_equal. apply IH; lia.
    + cbn [collapse]. rewrite Ea, El. f_equal. apply IH; lia.
Qed.

Lemma collapse_idempotent (s : string) : collapse (collapse s) = collapse s.
Proof. apply (collapse_idempotent_upto (String.length s)); lia. Qed.


(** ** The greedy quantifiers over one character *)

Lemma clear_no_captures (c : Captures) : clear_captures [] c = c.
Proof. reflexivity. Qed.

Lemma repeat_matcher_S (fuel : nat) (m : Matcher) (gs : list nat) (min : nat)
      (max : option nat) (greedy : bool) s i c (k : Continuation) :
  repeat_matcher (S fuel) m gs min max greedy s i c k =
  match max with
  | Some 0 => k s i c
  | _ =>
      let d : Continuation := fun s' i' c' =>
        if (min =? 0) && (i' =? i) then None
        else repeat_matcher fuel m gs (pred min) (option_map pred max) greedy s' i' c' k in
      let cleared := clear_captures gs c in
      if negb (min =? 0) then m s i cleared d
      else if greedy then
        match m s i cleared d with
        | Some z => Some z
        | None => k s i c
        end
      else
        match k s i c with
        | Some z => Some z
        | None => m s i cleared d
        end
  end.
Proof. reflexivity. Qed.

Lemma succ_neq (i : nat) : (S i =? i) = false.
Proof. apply Nat.eqb_neq. lia. Qed.

Lemma repeat_star_greedy (cs : CharSet) (k : Continuation) :
  forall s fuel i c,
    String.length s < fuel ->
    repeat_matcher fuel (matcher (RChar cs)) [] 0 None true s i c k
    = star_greedy cs k s i c.
Proof.
  induction s as [|a s IH]; intros fuel i c Hf; (destruct fuel as [|fuel]; [simpl in Hf; lia|]);
    rewrite repeat_matcher_S; cbv zeta; change (0 =? 0) with true;
    cbn [negb andb pred option_map matcher]; rewrite ?clear_no_captures.
  - reflexivity.
  - cbn [String.length] in Hf. cbn [star_greedy].
    destruct (cs_matches cs a); [|reflexivity].
    rewrite succ_neq, IH by lia. reflexivity.
Qed.

Lemma matcher_star (cs : CharSet) (k : Continuation) s i c :
  matcher (RQuant 0 None true (RChar cs)) s i c k = star_greedy cs k s i c.
Proof. cbn [matcher groups_of]. apply repeat_star_greedy. lia. Qed.

Lemma matcher_plus (cs : CharSet) (k : Continuation) s i c :
  matcher (RQuant 1 None true (RChar cs)) s i c k = plus_greedy cs k s i c.
Proof.
  cbn [matcher groups_of].
  replace (1 + String.length s + 1) with (S (S (String.length s))) by lia.
  rewrite repeat_matcher_S; cbv zeta. change (1 =? 0) with false.
  cbn [negb andb pred option_map matcher]. rewrite ?clear_no_captures.
  destruct s as [|a s]; [reflexivity|].
  cbn [plus_greedy]. destruct (cs_matches cs a); [|reflexivity].
  apply repeat_star_greedy. cbn [String.length]. lia.
Qed.

Lemma matcher_optional (cs : CharSet) (k : Continuation) s i c :
  matcher (RQuant 0 (Some 1) true (RChar cs)) s i c k = optional_greedy cs k s i c.
Proof.
  cbn [matcher groups_of].
  replace (0 + String.length s + 1) with (S (String.length s)) by lia.
  rewrite repeat_matcher_S; cbv zeta. change (0 =? 0) with true.
  cbn [negb andb pred option_map matcher]. rewrite ?clear_no_captures.
  destruct s as [|a s]; [reflexivity|].
  cbn [optional_greedy String.length]. destruct (cs_matches cs a); [|reflexivity].
  rewrite succ_neq, repeat_matcher_S. reflexivity.
Qed.

(** The deepest success wins: when the run [w] can be read and the
    continuation succeeds after it and nowhere further, the greedy star
    returns what the continuation returns after [w]. *)
Lemma star_greedy_stops (cs : CharSet) (k : Continuation) :
  forall rest i c,
    (forall w s', rest = w ++ s' -> w <> "" -> all_chars (cs_matches cs) w = true ->
                  k s' (i + String.length w) c = None) ->
    star_greedy cs k rest i c = k rest i c.
Proof.
  induction rest as [|a rest IH]; intros i c H; [reflexivity|].
  cbn [star_greedy]. destruct (cs_matches cs a) eqn:E; [|reflexivity].
  rewrite IH.
  - pose proof (H (String a "") rest eq_refl) as H1.
    cbn [String.length all_chars] in H1. rewrite E in H1.
    replace (i + 1) with (S i) in H1 by lia.
    rewrite H1; [reflexivity|discriminate|reflexivity].
  - intros w s' -> Hw Hc.
    specialize (H (String a w) s' eq_refl). cbn [String.length all_chars] in H.
    rewrite E, Hc in H. replace (S i + String.length w) with (i + S (String.length w)) by lia.
    apply H; [discriminate|reflexivity].
Qed.

Lemma star_greedy_reads (cs : CharSet) (k : Continuation) (z : MatchResult) :
  forall w rest i c,
    all_chars (cs_matches cs) w = true ->
    star_greedy cs k rest (i + String.length w) c = Some z ->
    star_greedy cs k (w ++ rest) i c = Some z.
Proof.
  induction w as [|a w IH]; intros rest i c Hw H.
  - simpl in *. now rewrite Nat.add_0_r in H.
  - cbn [all_chars] in Hw. apply andb_prop in Hw as [Ha Hw].
    cbn [append star_greedy]. rewrite Ha.
    rewrite (IH rest (S i) c Hw); [reflexivity|].
    cbn [String.length] in H. now replace (S i + String.length w) with (i + S (String.length w)) by lia.
Qed.

Lemma plus_greedy_reads (cs : CharSet) (k : Continuation) (z : MatchResult)
      (w rest : string) (i : nat) (c : Captures) :
  w <> "" -> all_chars (cs_matches cs) w = true ->
  (forall w' s', rest = w' ++ s' -> w' <> "" -> all_chars (cs_matches cs) w' = true ->
                 k s' (i + String.length w + String.length w') c = None) ->
  k rest (i + String.length w) c = Some z ->
  plus_greedy cs k (w ++ rest) i c = Some z.
Proof.
  intros Hne Hw Hnever Hk.
  destruct w as [|a w]; [congruence|].
  cbn [all_chars] in Hw. apply andb_prop in Hw as [Ha Hw].
  cbn [append plus_greedy]. rewrite Ha.
  apply star_greedy_reads; [exact Hw|].
  cbn [String.length] in *.
  replace (S i + String.length w) with (i + S (String.length w)) by lia.
  rewrite star_greedy_stops; [exact Hk|].
  exact Hnever.
Qed.

(** ** Where the attribute pattern cannot match *)

Lemma matcher_seq (r1 r2 : Regex) s i c (k : Continuation) :
  matcher (RSeq r1 r2) s i c k = matcher r1 s i c (fun s' i' c' => matcher r2 s' i' c' k).
Proof. reflexivity. Qed.

Lemma matcher_group (g : nat) (r : Regex) s i c (k : Continuation) :
  matcher (RGroup g r) s i c k
  = matcher r s i c (fun s' i' c' => k s' i' (set_capture c' g (Some (i, i')))).
Proof. reflexivity. Qed.

Lemma matcher_empty s i c (k : Continuation) : matcher REmpty s i c k = k s i c.
Proof. reflexivity. Qed.

Lemma matcher_char (cs : CharSet) (a : ascii) s i c (k : Continuation) :
  matcher (RChar cs) (String a s) i c k = if cs_matches cs a then k s (S i) c else None.
Proof. reflexivity. Qed.

Lemma matcher_alt (r1 r2 : Regex) s i c (k : Continuation) :
  matcher (RAlt r1 r2) s i c k
  = match matcher r1 s i c k with Some z => Some z | None => matcher r2 s i c k end.
Proof. reflexivity. Qed.

Lemma matcher_negative_lookahead (r : Regex) s i c (k : Continuation) :
  matcher (RLook true r) s i c k
  = match matcher r s i c accept with Some _ => None | None => k s i c end.
Proof. cbn [matcher]. now destruct (matcher r s i c accept) as [[? ?]|]. Qed.

Lemma equals_in_run_after (w s : string) :
  all_chars (fun a => negb (is_space a)) w = true ->
  equals_in_run (w ++ String "=" s) = true.
Proof.
  induction w as [|a w IH]; intros H; [reflexivity|].
  cbn [all_chars] in H. apply andb_prop in H as [Ha Hw].
  cbn [append equals_in_run]. destruct (is_space a); [discriminate|].
  rewrite IH by assumption. apply orb_true_r.
Qed.

Lemma Step_char_inv (cs : CharSet) s i c s' i' c' :
  Step (RChar cs) s i c s' i' c' ->
  exists a, s = String a s' /\ cs_matches cs a = true /\ i' = S i /\ c' = c.
Proof. inversion 1; subst. eauto. Qed.

Lemma non_space_reads (a : ascii) :
  cs_matches (CSClass false [CISpace true]) a = true -> negb (is_space a) = true.
Proof. cbn. now rewrite orb_false_r. Qed.

Lemma space_reads (a : ascii) :
  cs_matches (CSClass false [CISpace false]) a = true -> is_space a = true.
Proof. cbn. now rewrite orb_false_r. Qed.

(** A match of the attribute pattern starts with a run without white space
    that holds [=]. *)
Lemma attribute_needs_equals s i c (k : Continuation) (z : MatchResult) :
  matcher attribute_pattern s i c k = Some z -> equals_in_run s = true.
Proof.
  intros M. apply matcher_sound in M as (s' & i' & c' & S & _).
  unfold attribute_pattern in S.
  repeat match goal with
  | H : Step (RSeq _ _) _ _ _ _ _ _ |- _ => inversion H; subst; clear H
  | H : Step (RGroup _ _) _ _ _ _ _ _ |- _ => inversion H; subst; clear H
  end.
  match goal with E : Step (RChar (CSChar "=")) _ _ _ _ _ _ |- _ =>
    apply Step_char_inv in E as (a & -> & Ha & _) end.
  match goal with K : Step key_pattern _ _ _ _ _ _ |- _ =>
    destruct (Step_reads _ _ _ _ _ _ _ K) as (w & -> & _ & _ & P) end.
  cbn [cs_matches] in Ha. apply Ascii.eqb_eq in Ha. subst a.
  apply equals_in_run_after. apply P. cbn. repeat split; auto.
  intros a. apply non_space_reads.
Qed.

Lemma attribute_fails s i c (k : Continuation) :
  equals_in_run s = false -> matcher attribute_pattern s i c k = None.
Proof.
  intros H. destruct (matcher attribute_pattern s i c k) eqn:M; auto.
  apply attribute_needs_equals in M. congruence.
Qed.

(** ** The lookahead of the value pattern *)

Lemma value_char_facts (a : ascii) :
  value_char a = true ->
  Ascii.eqb a DQ = false /\ Ascii.eqb a "'" = false /\ Ascii.eqb a ">" = false
  /\ Ascii.eqb a "=" = false /\ is_line_terminator a = false.
Proof.
  unfold value_char. rewrite negb_true_iff, !orb_false_iff. tauto.
Qed.

Lemma word_equals_impossible (p tail : string) :
  all_chars value_char p = true -> equals_in_run tail = false ->
  forall wd s4,
    all_chars (fun a => negb (is_space a)) wd = true ->
    p ++ String DQ tail = wd ++ String "=" s4 -> False.
Proof.
  intros Hp Ht. induction p as [|y p IH]; intros wd s4 Hwd E.
  - destruct wd as [|x wd]; cbn [append] in E.
    + discriminate.
    + injection E as <- ->. cbn [all_chars] in Hwd. apply andb_prop in Hwd as [_ Hwd].
      rewrite equals_in_run_after in Ht by assumption. discriminate.
  - cbn [all_chars] in Hp. apply andb_prop in Hp as [Hy Hp].
    apply value_char_facts in Hy as (_ & _ & _ & Hy & _).
    destruct wd as [|x wd]; cbn [append] in E.
    + injection E as -> _. discriminate.
    + injection E as <- E. cbn [all_chars] in Hwd. apply andb_prop in Hwd as [_ Hwd].
      eapply IH; eauto.
Qed.

Lemma space_word_equals_impossible (p tail : string) :
  all_chars value_char p = true -> equals_in_run tail = false ->
  forall ws wd s4,
    all_chars is_space ws = true ->
    all_chars (fun a => negb (is_space a)) wd = true ->
    p ++ String DQ tail = ws ++ wd ++ String "=" s4 -> False.
Proof.
  intros Hp Ht. induction p as [|y p IH]; intros ws wd s4 Hws Hwd E.
  - destruct ws as [|x ws]; cbn [append] in E.
    + eapply (word_equals_impossible "" tail); eauto.
    + injection E as <- _. cbn [all_chars] in Hws. discriminate.
  - destruct ws as [|x ws].
    + eapply (word_equals_impossible (String y p) tail); eauto.
    + cbn [append] in E. injection E as <- E.
      cbn [all_chars] in Hp, Hws.
      apply andb_prop in Hp as [_ Hp]. apply andb_prop in Hws as [_ Hws].
      eapply IH; eauto.
Qed.

Definition quote_class : CharSet := CSClass false [CIChar DQ; CIChar "'"].

Lemma quote_reads (a : ascii) :
  cs_matches quote_class a = true -> Ascii.eqb a DQ = true \/ Ascii.eqb a "'" = true.
Proof.
  unfold quote_class. cbn [cs_matches existsb item_matches xorb].
  rewrite orb_false_r. intros H. apply orb_prop in H.
  destruct H as [H|H]; [left|right]; rewrite Ascii.eqb_sym; exact H.
Qed.

(** Inside a value the lookahead finds neither the next attribute nor the
    end of the value. *)
Lemma lookahead_fails (p tail : string) (i : nat) (c : Captures) :
  p <> "" -> all_chars value_char p = true -> equals_in_run tail = false ->
  matcher next_attribute_or_end (p ++ String DQ tail) i c accept = None.
Proof.
  intros Hne Hp Ht. destruct p as [|y p]; [congruence|].
  pose proof Hp as Hp'. cbn [all_chars] in Hp'. apply andb_prop in Hp' as [Hy _].
  apply value_char_facts in Hy as (Y1 & Y2 & Y3 & _ & _).
  unfold next_attribute_or_end. rewrite matcher_alt.
  destruct (matcher _ _ i c accept) as [z|] eqn:M.
  - exfalso. apply matcher_sound in M as (s' & i' & c' & S & _).
    repeat match goal with
    | H : Step (RSeq _ _) _ _ _ _ _ _ |- _ => inversion H; subst; clear H
    | H : Step REmpty _ _ _ _ _ _ |- _ => inversion H; subst; clear H
    end.
    match goal with
    | Q : Step optional_quote _ _ _ ?s1 _ _,
      W : Step (RQuant 1 None true space) ?s1 _ _ ?s2 _ _,
      D : Step (RQuant 1 None true non_space) ?s2 _ _ ?s3 _ _,
      E : Step (RChar (CSChar "=")) ?s3 _ _ _ _ _ |- _ =>
        destruct (Step_reads _ _ _ _ _ _ _ Q) as (q & Eq & _ & _ & Pq);
        destruct (Step_reads _ _ _ _ _ _ _ W) as (ws & -> & _ & _ & Pw);
        destruct (Step_reads _ _ _ _ _ _ _ D) as (wd & -> & _ & _ & Pd);
        apply Step_char_inv in E as (a & -> & Ha & _)
    end.
    cbn [cs_matches] in Ha. apply Ascii.eqb_eq in Ha. subst a.
    assert (Hq : all_chars (fun a => Ascii.eqb a DQ || Ascii.eqb a "'") q = true).
    { apply Pq. cbn [only_reads optional_quote]. intros a Ha.
      apply quote_reads in Ha. now apply orb_true_iff. }
    assert (Hws : all_chars is_space ws = true).
    { apply Pw. cbn [only_reads space]. intros a. apply space_reads. }
    assert (Hwd : all_chars (fun a => negb (is_space a)) wd = true).
    { apply Pd. cbn [only_reads non_space]. intros a. apply non_space_reads. }
    destruct q as [|x q].
    + cbn [append] in Eq.
      eapply (space_word_equals_impossible (String y p) tail); eauto.
    + cbn [append] in Eq. injection Eq as <- _.
      cbn [all_chars] in Hq. rewrite Y1, Y2 in Hq. discriminate.
  - cbn [append]. rewrite matcher_seq, matcher_char.
    replace (cs_matches _ y) with false; [reflexivity|].
    cbn [cs_matches existsb item_matches xorb].
    rewrite (Ascii.eqb_sym ">" y), (Ascii.eqb_sym DQ y), (Ascii.eqb_sym "'" y).
    now rewrite Y1, Y2, Y3.
Qed.

(** Before the closing quote the lookahead succeeds. *)
Lemma lookahead_succeeds (tail : string) (i : nat) (c : Captures) :
  exists z, matcher next_attribute_or_end (String DQ tail) i c accept = Some z.
Proof.
  unfold next_attribute_or_end. rewrite matcher_alt.
  destruct (matcher _ _ i c accept) as [z|]; [now exists z|].
  rewrite matcher_seq, matcher_char.
  change (cs_matches (CSClass false [CIChar ">"; CIChar DQ; CIChar "'"]) DQ) with true.
  rewrite matcher_empty. unfold accept. eauto.
Qed.

(** ** The attribute parser on attributes written as [key="value"] *)


Lemma value_body_step (a : ascii) s i c (k : Continuation) :
  matcher value_body (String a s) i c k
  = if negb (is_line_terminator a) then
      match matcher next_attribute_or_end s (S i) c accept with
      | Some _ => None
      | None => k s (S i) c
      end
    else None.
Proof.
  unfold value_body. rewrite matcher_seq, matcher_char. cbn [cs_matches].
  destruct (negb (is_line_terminator a)); [|reflexivity].
  now rewrite matcher_seq, matcher_negative_lookahead, matcher_empty.
Qed.

Lemma value_star_reads (lastc : ascii) (tail : string) (k : Continuation) (z : MatchResult) :
  value_char lastc = true -> equals_in_run tail = false ->
  forall p fuel i c,
    all_chars value_char p = true ->
    String.length p + 1 < fuel ->
    k (String lastc (String DQ tail)) (i + String.length p) c = Some z ->
    repeat_matcher fuel (matcher value_body) [] 0 None true
                   (p ++ String lastc (String DQ tail)) i c k = Some z.
Proof.
  intros Hl Ht. induction p as [|y p IH]; intros fuel i c Hp Hf Hk;
    (destruct fuel as [|fuel]; [simpl in Hf; lia|]);
    rewrite repeat_matcher_S; cbv zeta; change (0 =? 0) with true;
    cbn [negb andb pred option_map append]; rewrite clear_no_captures, value_body_step.
  - apply value_char_facts in Hl as (_ & _ & _ & _ & ->). cbn [negb].
    destruct (lookahead_succeeds tail (S i) c) as (z' & ->).
    cbn [String.length] in Hk. now rewrite Nat.add_0_r in Hk.
  - cbn [all_chars] in Hp. apply andb_prop in Hp as [Hy Hp].
    apply value_char_facts in Hy as (_ & _ & _ & _ & ->). cbn [negb].
    replace (p ++ String lastc (String DQ tail))
      with ((p ++ String lastc "") ++ String DQ tail)
      by (now rewrite append_assoc).
    rewrite lookahead_fails; auto.
    + rewrite succ_neq. rewrite append_assoc. cbn [append].
      rewrite IH; auto.
      * cbn [String.length] in Hf. lia.
      * cbn [String.length] in Hk.
        now replace (S i + String.length p) with (i + S (String.length p)) by lia.
    + destruct p; discriminate.
    + rewrite all_chars_append, Hp. cbn. now rewrite Hl.
Qed.

Lemma non_space_matches (a : ascii) :
  cs_matches (CSClass false [CISpace true]) a = negb (is_space a).
Proof. cbn. now rewrite orb_false_r. Qed.

Lemma key_char_facts (a : ascii) :
  key_char a = true -> is_space a = false /\ Ascii.eqb a "=" = false.
Proof. unfold key_char. rewrite andb_true_iff, !negb_true_iff. tauto. Qed.

Lemma last_char (v : string) : v <> "" -> exists p lastc, v = p ++ String lastc "".
Proof.
  induction v as [|a v IH]; [congruence|]. intros _.
  destruct v as [|b v].
  - exists "", a. reflexivity.
  - destruct IH as (p & lastc & E); [discriminate|].
    exists (String a p), lastc. cbn [append]. now rewrite E.
Qed.

Lemma exists_last (v : string) :
  2 <= String.length v ->
  exists y p lastc, v = String y (p ++ String lastc "").
Proof.
  destruct v as [|y v]; [simpl; lia|]. intros H. cbn [String.length] in H.
  destruct (last_char v) as (p & lastc & ->); [destruct v; [simpl in H; lia|discriminate]|].
  now exists y, p, lastc.
Qed.

Lemma matcher_quant (min : nat) (max : option nat) (greedy : bool) (r : Regex) s i c
      (k : Continuation) :
  matcher (RQuant min max greedy r) s i c k
  = repeat_matcher (min + String.length s + 1) (matcher r) (groups_of r)
                   min max greedy s i c k.
Proof. reflexivity. Qed.

Lemma value_reads (y lastc : ascii) (p tail : string) (i : nat) (c : Captures) :
  all_chars value_char (String y (p ++ String lastc "")) = true ->
  equals_in_run tail = false ->
  exists e j,
    matcher (RSeq (RGroup 2 value_pattern) (RSeq optional_quote REmpty))
            (String y (p ++ String lastc (String DQ tail))) i c accept
    = Some (e, set_capture c 2 (Some (i, j)))
    /\ j = i + String.length p + 2 /\ e = j + 1.
Proof.
  intros Hv Ht.
  cbn [all_chars] in Hv. apply andb_prop in Hv as [Hy Hv].
  rewrite all_chars_append in Hv. apply andb_prop in Hv as [Hp Hl].
  cbn [all_chars] in Hl. rewrite andb_true_r in Hl.
  rewrite matcher_seq, matcher_group. unfold value_pattern. rewrite matcher_seq.
  change (RSeq (RChar CSDot) (RSeq (RLook true next_attribute_or_end) REmpty))
    with value_body.
  rewrite matcher_quant. change (groups_of value_body) with (@nil nat).
  replace (1 + String.length (String y (p ++ String lastc (String DQ tail))) + 1)
    with (S (S (String.length (String y (p ++ String lastc (String DQ tail))))))
    by lia.
  rewrite repeat_matcher_S; cbv zeta. change (1 =? 0) with false.
  cbn [negb andb pred option_map]. rewrite clear_no_captures, value_body_step.
  pose proof Hy as Hy'. apply value_char_facts in Hy' as (_ & _ & _ & _ & ->). cbn [negb].
  replace (p ++ String lastc (String DQ tail))
    with ((p ++ String lastc "") ++ String DQ tail) by (now rewrite append_assoc).
  rewrite lookahead_fails; auto;
    [|destruct p; discriminate|rewrite all_chars_append, Hp; cbn; now rewrite Hl].
  rewrite append_assoc. cbn [append].
  do 2 eexists. split.
  - apply value_star_reads; auto.
    + cbn [String.length]. rewrite length_append. cbn [String.length]. lia.
    + rewrite matcher_seq, matcher_char.
      pose proof Hl as Hl'. apply value_char_facts in Hl' as (_ & _ & _ & _ & L).
      cbn [cs_matches]. rewrite L. cbn [negb].
      rewrite matcher_empty, matcher_seq. unfold optional_quote.
      rewrite matcher_optional. cbn [optional_greedy].
      change (cs_matches (CSClass false [CIChar DQ; CIChar "'"]) DQ) with true.
      cbv iota. rewrite matcher_empty. unfold accept. reflexivity.
  - lia.
Qed.

Lemma attribute_reads (k v tail : string) (i : nat) :
  k <> "" -> all_chars key_char k = true ->
  2 <= String.length v -> all_chars value_char v = true ->
  equals_in_run tail = false ->
  exists e c j1 j2 j3,
    matcher attribute_pattern (k ++ "=" ++ dq ++ v ++ dq ++ tail) i no_captures accept
    = Some (e, c)
    /\ c 1 = Some (i, j1) /\ c 2 = Some (j2, j3)
    /\ j1 = i + String.length k /\ j2 = j1 + 2 /\ j3 = j2 + String.length v /\ e = j3 + 1.
Proof.
  intros Hk Hkc Hv Hvc Ht.
  destruct (exists_last v Hv) as (y & p & lastc & ->).
  destruct (value_reads y lastc p tail (S (S (i + String.length k)))
              (set_capture no_captures 1 (Some (i, i + String.length k))) Hvc Ht)
    as (e & j & E & Hj & He).
  exists e, (set_capture (set_capture no_captures 1 (Some (i, i + String.length k))) 2
                         (Some (S (S (i + String.length k)), j))),
    (i + String.length k), (S (S (i + String.length k))), j.
  split; [|cbn [String.length]; rewrite length_append; cbn [String.length];
           repeat split; try reflexivity; lia].
  unfold attribute_pattern. rewrite matcher_seq, matcher_group.
  unfold key_pattern. rewrite matcher_seq. unfold non_space. rewrite matcher_plus.
  apply plus_greedy_reads.
  - exact Hk.
  - clear -Hkc. induction k as [|a k IH]; [reflexivity|].
    cbn [all_chars] in *. apply andb_prop in Hkc as [Ha Hk].
    apply key_char_facts in Ha as [Ha _].
    rewrite non_space_matches, Ha, IH; auto.
  - intros w' s' E' Hw' Hc. cbv beta. rewrite matcher_empty.
    destruct s' as [|a s']; [reflexivity|].
    rewrite matcher_seq, matcher_char. cbn [cs_matches].
    destruct (Ascii.eqb_spec "=" a) as [<-|]; [exfalso|reflexivity].
    assert (Hn : all_chars (fun a => negb (is_space a)) w' = true).
    { clear -Hc. induction w' as [|a w IH]; [reflexivity|].
      cbn [all_chars] in *. apply andb_prop in Hc as [Ha Hw].
      rewrite non_space_matches in Ha. now rewrite Ha, IH. }
    destruct w' as [|x w']; [congruence|].
    cbn [append] in E'. injection E' as <- E'.
    cbn [all_chars] in Hn. apply andb_prop in Hn as [_ Hn].
    destruct w' as [|x' w']; cbn [append] in E'; [discriminate|].
    injection E' as <- E'.
    cbn [all_chars] in Hn. apply andb_prop in Hn as [_ Hn].
    eapply (word_equals_impossible (String y (p ++ String lastc "")) tail); eauto.
  - cbv beta. rewrite matcher_empty. cbn [append].
    rewrite matcher_seq, matcher_char. cbn [cs_matches]. rewrite Ascii.eqb_refl.
    rewrite matcher_seq. unfold optional_quote at 1. rewrite matcher_optional.
    rewrite append_assoc. unfold dq. cbn [append optional_greedy].
    change (cs_matches (CSClass false [CIChar DQ; CIChar "'"]) DQ) with true. cbv iota.
    rewrite E. reflexivity.
Qed.

Lemma equals_in_run_no_equals (j t : string) :
  no_equals j = true -> equals_in_run t = false -> equals_in_run (j ++ t) = false.
Proof.
  unfold no_equals. induction j as [|a j IH]; intros Hj Ht; [exact Ht|].
  cbn [all_chars] in Hj. apply andb_prop in Hj as [Ha Hj].
  cbn [append equals_in_run]. destruct (is_space a); [reflexivity|].
  apply negb_true_iff in Ha. rewrite Ha, IH; auto.
Qed.

Lemma no_equals_run (s : string) : no_equals s = true -> equals_in_run s = false.
Proof.
  intros H. rewrite <- (append_nil_r s). now apply equals_in_run_no_equals.
Qed.

Lemma search_skip (r : Regex) (n : nat) (input : string) :
  forall u s i,
    (forall u1 u2, u = u1 ++ u2 -> u2 <> "" ->
                   matcher r (u2 ++ s) (i + String.length u1) no_captures accept = None) ->
    search r n input (u ++ s) i = search r n input s (i + String.length u).
Proof.
  induction u as [|a u IH]; intros s i H.
  - cbn [append String.length]. now rewrite Nat.add_0_r.
  - rewrite search_unfold.
    pose proof (H "" (String a u) eq_refl) as H0. cbn [String.length] in H0.
    rewrite Nat.add_0_r in H0. rewrite H0 by discriminate. cbn [append].
    rewrite IH.
    + cbn [String.length]. f_equal. lia.
    + intros u1 u2 -> Hu2.
      specialize (H (String a u1) u2 eq_refl Hu2). cbn [String.length] in H.
      now replace (S i + String.length u1) with (i + S (String.length u1)) by lia.
Qed.

Lemma search_fails (r : Regex) (n : nat) (input : string) :
  forall s i,
    (forall u1 u2, s = u1 ++ u2 ->
                   matcher r u2 (i + String.length u1) no_captures accept = None) ->
    search r n input s i = None.
Proof.
  induction s as [|a s IH]; intros i H; rewrite search_unfold.
  - pose proof (H "" "" eq_refl) as H0. cbn in H0. rewrite Nat.add_0_r in H0.
    now rewrite H0.
  - pose proof (H "" (String a s) eq_refl) as H0. cbn [String.length] in H0.
    rewrite Nat.add_0_r in H0. rewrite H0.
    apply IH. intros u1 u2 ->.
    specialize (H (String a u1) u2 eq_refl). cbn [String.length] in H.
    now replace (S i + String.length u1) with (i + S (String.length u1)) by lia.
Qed.

Lemma no_equals_append (a b : string) : no_equals (a ++ b) = no_equals a && no_equals b.
Proof. apply all_chars_append. Qed.

Lemma render_all_run (attributes : list Attribute) (closing : string) :
  no_equals closing = true -> equals_in_run (render_all attributes ++ closing) = false.
Proof.
  intros H. destruct attributes as [|a rest]; [now apply no_equals_run|reflexivity].
Qed.

Lemma slice_at (a w t input : string) (i j : nat) :
  input = a ++ w ++ t -> i = String.length a -> j = i + String.length w ->
  slice i j input = w.
Proof. intros -> -> ->. apply slice_middle. Qed.

Ltac lengths := unfold dq; repeat (rewrite ?length_append; cbn [String.length append]); lia.

Lemma snoc_split (junk : string) (a : ascii) :
  forall u1 u2, junk ++ String a "" = u1 ++ u2 -> u2 <> "" ->
                exists x, u2 = x ++ String a "" /\ junk = u1 ++ x.
Proof.
  induction junk as [|b junk IH]; intros [|b' u1] u2 E Hu2; cbn [append] in E.
  - exists "". now subst.
  - injection E as _ E. destruct u1; destruct u2; try discriminate; congruence.
  - exists (String b junk). now subst.
  - injection E as <- E. destruct (IH _ _ E Hu2) as (x & -> & ->). now exists x.
Qed.

(** [exec] on a written attribute: the match and where it ends. *)
Lemma exec_rendered (pre junk : string) (a : Attribute) (tail : string) :
  no_equals junk = true -> writable a -> equals_in_run tail = false ->
  exists m,
    exec (attribute_pattern, 2) (pre ++ junk ++ render a ++ tail) (String.length pre) = Some m
    /\ endIndex m = String.length (pre ++ junk ++ render a)
    /\ groups m = [Some (key a); Some (value a)].
Proof.
  intros Hj (K1 & K2 & V1 & V2) Ht.
  destruct a as [k v]. cbn [key value] in *.
  unfold exec. cbn [fst snd].
  replace (String.length (pre ++ junk ++ render {| key := k; value := v |} ++ tail)
           <? String.length pre) with false
    by (symmetry; apply Nat.ltb_ge; rewrite length_append; lia).
  rewrite drop_length_append.
  unfold render. cbn [key value].
  replace (junk ++ (" " ++ k ++ "=" ++ dq ++ v ++ dq) ++ tail)
    with ((junk ++ " ") ++ (k ++ "=" ++ dq ++ v ++ dq ++ tail))
    by (now rewrite !append_assoc).
  rewrite search_skip.
  - destruct (attribute_reads k v tail (String.length pre + String.length (junk ++ " "))
                K1 K2 V1 V2 Ht) as (e & c & j1 & j2 & j3 & M & C1 & C2 & E1 & E2 & E3 & E4).
    rewrite search_unfold, M.
    eexists. split; [reflexivity|]. cbn [endIndex groups index].
    split.
    + subst. lengths.
    + unfold capture_texts. cbn [seq map]. rewrite C1, C2. subst.
      rewrite (slice_at (pre ++ junk ++ " ") k ("=" ++ dq ++ v ++ dq ++ tail));
        [|now rewrite !append_assoc|lengths|lengths].
      rewrite (slice_at (pre ++ junk ++ " " ++ k ++ "=" ++ dq) v (dq ++ tail));
        [reflexivity|now rewrite !append_assoc|lengths|lengths].
  - intros u1 u2 E Hu2. apply attribute_fails.
    apply snoc_split in E as (x & -> & ->); [|exact Hu2].
    rewrite no_equals_append in Hj. apply andb_prop in Hj as [_ Hx].
    rewrite append_assoc. now apply equals_in_run_no_equals.
Qed.

Lemma length_render_all (attributes : list Attribute) :
  List.length attributes <= String.length (render_all attributes).
Proof.
  induction attributes as [|a rest IH]; [reflexivity|].
  cbn [render_all List.length]. rewrite length_append. unfold render. cbn [append String.length].
  lia.
Qed.

Lemma getAttributes_loop_rendered (closing : string) :
  no_equals closing = true ->
  forall attributes pre junk fuel,
    no_equals junk = true -> Forall writable attributes ->
    List.length attributes < fuel ->
    getAttributes_loop fuel (attribute_pattern, 2)
      (pre ++ junk ++ render_all attributes ++ closing) (String.length pre)
    = Some attributes.
Proof.
  intros Hc. induction attributes as [|a rest IH]; intros pre junk fuel Hj W Hf;
    (destruct fuel as [|fuel]; [simpl in Hf; lia|]); cbn [getAttributes_loop render_all].
  - unfold exec. cbn [fst snd append].
    replace (String.length (pre ++ junk ++ closing) <? String.length pre) with false
      by (symmetry; apply Nat.ltb_ge; rewrite length_append; lia).
    rewrite drop_length_append, search_fails; [reflexivity|].
    intros u1 u2 E. apply attribute_fails.
    apply no_equals_run.
    assert (H : no_equals (junk ++ closing) = true)
      by (rewrite no_equals_append, Hj, Hc; reflexivity).
    rewrite E, no_equals_append in H. now apply andb_prop in H as [_ H].
  - inversion W as [|? ? Wa Wrest]; subst.
    destruct (exec_rendered pre junk a (render_all rest ++ closing) Hj Wa
                (render_all_run rest closing Hc)) as (m & E & End & G).
    rewrite append_assoc, E, End, G. cbn [nth].
    replace (pre ++ junk ++ render a ++ render_all rest ++ closing)
      with ((pre ++ junk ++ render a) ++ "" ++ render_all rest ++ closing)
      by (now rewrite !append_assoc).
    rewrite IH; auto.
    + now destruct a.
    + cbn [List.length] in Hf. lia.
Qed.

(** A tag whose attributes are written as [key="value"] is read as written. *)
Theorem getAttributes_rendered (name closing : string) (attributes : list Attribute) :
  no_equals name = true -> no_equals closing = true -> Forall writable attributes ->
  getAttributes (name ++ render_all attributes ++ closing) = Ok attributes [].
Proof.
  intros Hn Hc W. unfold getAttributes, new_RegExp. rewrite parse_attributes_source.
  unfold ret. rewrite bind_ok_nil.
  rewrite (getAttributes_loop_rendered closing Hc attributes "" name); auto.
  rewrite !length_append. pose proof (length_render_all attributes). lia.
Qed.

(** ** The tag scanner

    The two patterns of [getTags], for a tag name without pattern
    characters: how they are parsed and what they read. *)

Lemma parse_term_literal (fuel n : nat) (a : ascii) (rest : string) :
  pattern_char a = true ->
  parse_term (S fuel) (String a rest) n
  = (let (q, rest') := parse_quantifier (RChar (CSChar a)) rest in Some (q, rest', n)).
Proof. each_character a. Qed.

Lemma parse_alternative_literal_step (fuel n : nat) (a : ascii) (rest : string) :
  pattern_char a = true ->
  parse_alternative (S fuel) (String a rest) n
  = match parse_term fuel (String a rest) n with
    | Some (t, rest1, n1) =>
        match parse_alternative fuel rest1 n1 with
        | Some (r, rest2, n2) => Some (RSeq t r, rest2, n2)
        | None => None
        end
    | None => None
    end.
Proof. each_character a. Qed.

Lemma parse_quantifier_literal (r : Regex) (a : ascii) (rest : string) :
  pattern_char a = true -> parse_quantifier r (String a rest) = (r, String a rest).
Proof. each_character a. Qed.

(** A literal text before a pattern that does not start with a quantifier. *)
Lemma parse_alternative_prepend (src : string) (r : Regex) (rest : string) (n n' f0 : nat) :
  (forall r0, parse_quantifier r0 src = (r0, src)) ->
  (forall f, f0 <= f -> parse_alternative f src n = Some (r, rest, n')) ->
  forall p f,
    literal_text p = true -> f0 + 2 * String.length p <= f ->
    parse_alternative f (p ++ src) n = Some (prepend p r, rest, n').
Proof.
  intros Hq Hsrc. induction p as [|a p IH]; intros f Hp Hf.
  - apply Hsrc. simpl in Hf. lia.
  - cbn [String.length] in Hf. destruct f as [|[|f]]; try lia.
    unfold literal_text in Hp. cbn [all_chars] in Hp. apply andb_prop in Hp as [Ha Hp].
    cbn [append prepend].
    rewrite parse_alternative_literal_step, parse_term_literal by assumption.
    assert (Q : parse_quantifier (RChar (CSChar a)) (p ++ src)
                = (RChar (CSChar a), p ++ src)).
    { destruct p as [|b p]; [apply Hq|].
      cbn [all_chars] in Hp. apply andb_prop in Hp as [Hb _].
      now apply parse_quantifier_literal. }
    rewrite Q, IH by (auto; lia). reflexivity.
Qed.

Lemma parse_alternative_literal (s : string) (n : nat) :
  forall f, literal_text s = true -> 1 + 2 * String.length s <= f ->
            parse_alternative f s n = Some (literal s, "", n).
Proof.
  intros f Hs Hf.
  replace s with (s ++ "") at 1 by apply append_nil_r.
  replace (literal s) with (prepend s REmpty)
    by (clear; induction s as [|a s IH]; cbn; congruence).
  apply (parse_alternative_prepend "" REmpty "" n n 1); auto.
  intros f' Hf'. destruct f'; [lia|reflexivity].
Qed.

Lemma parse_term_any_greedy (fuel n : nat) (rest : string) :
  parse_term (S (S (S (S fuel)))) ("(.*)" ++ rest) n
  = (let (q, rest') := parse_quantifier (any_text true n) rest in Some (q, rest', S n)).
Proof. reflexivity. Qed.

Lemma parse_term_any_lazy (fuel n : nat) (rest : string) :
  parse_term (S (S (S (S fuel)))) ("(.*?)" ++ rest) n
  = (let (q, rest') := parse_quantifier (any_text false n) rest in Some (q, rest', S n)).
Proof. reflexivity. Qed.

Lemma literal_text_append (a b : string) :
  literal_text (a ++ b) = literal_text a && literal_text b.
Proof. apply all_chars_append. Qed.

Lemma parse_alternative_group_step (fuel n : nat) (rest : string) :
  parse_alternative (S fuel) (String "(" rest) n
  = match parse_term fuel (String "(" rest) n with
    | Some (t, rest1, n1) =>
        match parse_alternative fuel rest1 n1 with
        | Some (r, rest2, n2) => Some (RSeq t r, rest2, n2)
        | None => None
        end
    | None => None
    end.
Proof. reflexivity. Qed.

Lemma parse_term_group_greedy (fuel n : nat) (rest : string) :
  parse_term (S (S (S (S fuel)))) (String "(" (String "." (String "*" (String ")" rest)))) n
  = (let (q, rest') := parse_quantifier (any_text true n) rest in Some (q, rest', S n)).
Proof. reflexivity. Qed.

Lemma parse_closed_tail (t : string) (n : nat) :
  literal_text t = true ->
  forall f, 2 * String.length t + 10 <= f ->
    parse_alternative f ("(.*)/" ++ t ++ ">") n
    = Some (RSeq (any_text true n) (literal ("/" ++ t ++ ">")), "", S n).
Proof.
  intros Ht f Hf.
  do 5 (destruct f as [|f]; [lia|]).
  cbn [append]. rewrite parse_alternative_group_step, parse_term_group_greedy.
  rewrite parse_quantifier_literal by reflexivity.
  rewrite parse_alternative_literal; [reflexivity| |].
  - change (literal_text (t ++ ">") = true). now rewrite literal_text_append, Ht.
  - cbn [String.length]. rewrite length_append. cbn [String.length]. lia.
Qed.

Lemma parse_self_closed_tail (n : nat) :
  forall f, 10 <= f ->
    parse_alternative f "(.*?)/>" n
    = Some (RSeq (any_text false n) (literal "/>"), "", S n).
Proof.
  intros f Hf. do 10 (destruct f as [|f]; [lia|]). reflexivity.
Qed.

Lemma parse_closed_source (t : string) :
  literal_text t = true ->
  parse ("<" ++ t ++ "(.*)/" ++ t ++ ">") = Some (closed_pattern t, 1).
Proof.
  intros Ht. unfold parse.
  set (src := "<" ++ t ++ "(.*)/" ++ t ++ ">").
  assert (L : String.length src = 2 * String.length t + 7).
  { unfold src. cbn [append String.length]. rewrite !length_append.
    cbn [append String.length]. rewrite length_append. cbn [String.length]. lia. }
  replace (3 * String.length src + 3) with (S (3 * String.length src + 2)) by lia.
  cbn [parse_disjunction]. rewrite L.
  unfold src.
  replace ("<" ++ t ++ "(.*)/" ++ t ++ ">") with (("<" ++ t) ++ "(.*)/" ++ t ++ ">")
    by (now rewrite append_assoc).
  rewrite (parse_alternative_prepend ("(.*)/" ++ t ++ ">")
             (RSeq (any_text true 1) (literal ("/" ++ t ++ ">"))) "" 1 2
             (2 * String.length t + 10)).
  - reflexivity.
  - reflexivity.
  - intros f Hf. now apply parse_closed_tail.
  - exact Ht.
  - cbn [append String.length]. lia.
Qed.

Lemma parse_self_closed_source (t : string) :
  literal_text t = true ->
  parse ("<" ++ t ++ "(.*?)/>") = Some (self_closed_pattern t, 1).
Proof.
  intros Ht. unfold parse.
  set (src := "<" ++ t ++ "(.*?)/>").
  assert (L : String.length src = String.length t + 8).
  { unfold src. cbn [append String.length]. rewrite !length_append.
    cbn [String.length]. lia. }
  replace (3 * String.length src + 3) with (S (3 * String.length src + 2)) by lia.
  cbn [parse_disjunction]. rewrite L.
  unfold src.
  replace ("<" ++ t ++ "(.*?)/>") with (("<" ++ t) ++ "(.*?)/>")
    by (now rewrite append_assoc).
  rewrite (parse_alternative_prepend "(.*?)/>"
             (RSeq (any_text false 1) (literal "/>")) "" 1 2 10).
  - reflexivity.
  - reflexivity.
  - intros f Hf. now apply parse_self_closed_tail.
  - exact Ht.
  - cbn [append String.length]. lia.
Qed.


Lemma star_lazy_unfold (cs : CharSet) (k : Continuation) s i c :
  star_lazy cs k s i c =
  match k s i c with
  | Some z => Some z
  | None =>
      match s with
      | String a s' => if cs_matches cs a then star_lazy cs k s' (S i) c else None
      | EmptyString => None
      end
  end.
Proof. destruct s; reflexivity. Qed.

Lemma repeat_star_lazy (cs : CharSet) (k : Continuation) :
  forall s fuel i c,
    String.length s < fuel ->
    repeat_matcher fuel (matcher (RChar cs)) [] 0 None false s i c k
    = star_lazy cs k s i c.
Proof.
  induction s as [|a s IH]; intros fuel i c Hf; (destruct fuel as [|fuel]; [simpl in Hf; lia|]);
    rewrite repeat_matcher_S, star_lazy_unfold; cbv zeta; change (0 =? 0) with true;
    cbn [negb andb pred option_map matcher]; rewrite ?clear_no_captures.
  - reflexivity.
  - cbn [String.length] in Hf.
    destruct (k (String a s) i c); [reflexivity|].
    destruct (cs_matches cs a); [|reflexivity].
    rewrite succ_neq, IH by lia. reflexivity.
Qed.

Lemma matcher_prepend (p : string) (r : Regex) s i c (k : Continuation) :
  matcher (prepend p r) s i c k =
  match starts p s with
  | Some rest => matcher r rest (i + String.length p) c k
  | None => None
  end.
Proof.
  revert s i; induction p as [|a p IH]; intros s i.
  - cbn. now rewrite Nat.add_0_r.
  - cbn [prepend]. rewrite matcher_seq. destruct s as [|b s]; [reflexivity|].
    rewrite matcher_char. cbn [cs_matches starts].
    destruct (Ascii.eqb a b); [|reflexivity].
    rewrite IH. cbn [String.length]. now rewrite Nat.add_succ_r.
Qed.

Lemma literal_continuation (q : string) (F : Captures -> nat -> Captures) s i c :
  option_map fst (matcher (literal q) s i (F c i) accept)
  = option_map (fun n => i + n) (literally q s).
Proof.
  rewrite matcher_literal. unfold literally.
  now destruct (starts q s).
Qed.

Section Scan.

Variable q : string.
Variable k : Continuation.

Hypothesis k_literally : forall s i c,
  option_map fst (k s i c) = option_map (fun n => i + n) (literally q s).

Lemma star_lazy_scan :
  forall s i c,
    option_map fst (star_lazy CSDot k s i c) = option_map (fun n => i + n) (lazy_scan q s).
Proof.
  induction s as [|a s IH]; intros i c; rewrite star_lazy_unfold;
    pose proof k_literally as K.
  - specialize (K "" i c). cbn [lazy_scan].
    destruct (k "" i c), (literally q ""); cbn in *; congruence.
  - specialize (K (String a s) i c). cbn [lazy_scan].
    destruct (k (String a s) i c), (literally q (String a s)); cbn in K; try congruence.
    + exact K.
    + cbn [cs_matches]. destruct (is_line_terminator a); [reflexivity|]. cbn [negb].
      rewrite IH. destruct (lazy_scan q s); cbn; [f_equal; lia|reflexivity].
Qed.

Lemma star_greedy_scan :
  forall s i c,
    option_map fst (star_greedy CSDot k s i c) = option_map (fun n => i + n) (greedy_scan q s).
Proof.
  induction s as [|a s IH]; intros i c; cbn [star_greedy greedy_scan].
  - apply k_literally.
  - cbn [cs_matches]. destruct (is_line_terminator a); cbn [negb]; [apply k_literally|].
    specialize (IH (S i) c).
    destruct (star_greedy CSDot k s (S i) c), (greedy_scan q s); cbn in IH; try congruence.
    + cbn. injection IH as ->. f_equal. lia.
    + apply k_literally.
Qed.

End Scan.


Lemma matcher_lazy_star (cs : CharSet) (k : Continuation) s i c :
  matcher (RQuant 0 None false (RChar cs)) s i c k = star_lazy cs k s i c.
Proof. cbn [matcher groups_of]. apply repeat_star_lazy. lia. Qed.

Lemma reads_self_closed_local (t s : string) (i : nat) :
  option_map fst (matcher (self_closed_pattern t) s i no_captures accept)
  = option_map (fun n => i + n) (reads_self_closed t s).
Proof.
  unfold self_closed_pattern, reads_self_closed, any_text.
  rewrite matcher_prepend. destruct (starts ("<" ++ t) s) as [rest|]; [|reflexivity].
  rewrite matcher_seq, matcher_group, matcher_seq, matcher_lazy_star.
  rewrite (star_lazy_scan "/>" _
             (literal_continuation "/>"
                (fun c' i' => set_capture c' 1 (Some (i + String.length ("<" ++ t), i'))))).
  destruct (lazy_scan "/>" rest); cbn [option_map]; [f_equal; lia|reflexivity].
Qed.

Lemma reads_closed_local (t s : string) (i : nat) :
  option_map fst (matcher (closed_pattern t) s i no_captures accept)
  = option_map (fun n => i + n) (reads_closed t s).
Proof.
  unfold closed_pattern, reads_closed, any_text.
  rewrite matcher_prepend. destruct (starts ("<" ++ t) s) as [rest|]; [|reflexivity].
  rewrite matcher_seq, matcher_group, matcher_seq, matcher_star.
  rewrite (star_greedy_scan ("/" ++ t ++ ">") _
             (literal_continuation ("/" ++ t ++ ">")
                (fun c' i' => set_capture c' 1 (Some (i + String.length ("<" ++ t), i'))))).
  destruct (greedy_scan ("/" ++ t ++ ">") rest); cbn [option_map]; [f_equal; lia|reflexivity].
Qed.

Lemma literally_bound (q s : string) (n : nat) :
  literally q s = Some n -> n = String.length q /\ n <= String.length s.
Proof.
  unfold literally. destruct (starts q s) as [rest|] eqn:E; [|discriminate].
  intros H; injection H as <-. split; [reflexivity|].
  apply starts_length in E. subst. rewrite length_append. lia.
Qed.

Lemma lazy_scan_bound (q : string) :
  forall s n, lazy_scan q s = Some n -> String.length q <= n <= String.length s.
Proof.
  induction s as [|a s IH]; intros n; cbn [lazy_scan].
  - destruct (literally q "") eqn:E; [|discriminate].
    intros H; injection H as <-. apply literally_bound in E. lia.
  - destruct (literally q (String a s)) eqn:E.
    + intros H; injection H as <-. apply literally_bound in E. lia.
    + destruct (is_line_terminator a); [discriminate|].
      destruct (lazy_scan q s) as [n'|]; [|discriminate].
      intros H; injection H as <-. specialize (IH n' eq_refl). cbn [String.length]. lia.
Qed.

Lemma greedy_scan_bound (q : string) :
  forall s n, greedy_scan q s = Some n -> String.length q <= n <= String.length s.
Proof.
  induction s as [|a s IH]; intros n; cbn [greedy_scan].
  - intros E. apply literally_bound in E. lia.
  - destruct (is_line_terminator a).
    + intros E. apply literally_bound in E. lia.
    + destruct (greedy_scan q s) as [n'|].
      * intros H; injection H as <-. specialize (IH n' eq_refl). cbn [String.length]. lia.
      * intros E. apply literally_bound in E. lia.
Qed.

Lemma reads_self_closed_bounded (t s : string) (n : nat) :
  reads_self_closed t s = Some n -> 0 < n <= String.length s.
Proof.
  unfold reads_self_closed. destruct (starts ("<" ++ t) s) as [rest|] eqn:E; [|discriminate].
  apply starts_length in E. subst s.
  destruct (lazy_scan "/>" rest) as [n'|] eqn:L; [|discriminate].
  intros H; injection H as <-. apply lazy_scan_bound in L.
  rewrite length_append. cbn [String.length append] in *. lia.
Qed.

Lemma reads_closed_bounded (t s : string) (n : nat) :
  reads_closed t s = Some n -> 0 < n <= String.length s.
Proof.
  unfold reads_closed. destruct (starts ("<" ++ t) s) as [rest|] eqn:E; [|discriminate].
  apply starts_length in E. subst s.
  destruct (greedy_scan ("/" ++ t ++ ">") rest) as [n'|] eqn:L; [|discriminate].
  intros H; injection H as <-. apply greedy_scan_bound in L.
  rewrite length_append. cbn [String.length append] in *. lia.
Qed.

Section Spans.

Variable r : Regex.
Variable ngroups : nat.
Variable m : string -> option nat.

Hypothesis local : forall s i,
  option_map fst (matcher r s i no_captures accept) = option_map (fun n => i + n) (m s).
Hypothesis bounded : forall s n, m s = Some n -> 0 < n <= String.length s.

Lemma search_span (input s : string) (i : nat) :
  option_map (fun x => (index x, endIndex x)) (search r ngroups input s i) =
  match find m s with
  | Some (u, w, t) => Some (i + String.length u, i + String.length u + String.length w)
  | None => None
  end.
Proof.
  revert i; induction s as [|a s IH]; intros i; rewrite search_unfold, find_unfold.
  - specialize (local "" i).
    destruct (matcher r "" i no_captures accept) as [[e c]|], (m "") as [n|] eqn:E;
      simpl in local; try discriminate; auto.
    apply bounded in E; simpl in E; lia.
  - specialize (local (String a s) i).
    destruct (matcher r (String a s) i no_captures accept) as [[e c]|],
             (m (String a s)) as [n|] eqn:E; simpl in local; try discriminate.
    + injection local as ->. apply bounded in E.
      cbn [option_map index endIndex String.length]. rewrite length_take by lia.
      f_equal. f_equal; lia.
    + rewrite IH. destruct (find m s) as [[[u w] t]|]; auto.
      cbn [String.length]. f_equal. f_equal; lia.
Qed.

Lemma all_matches_occurrences (fuel : nat) (before rest : string) :
  map (matched_text (before ++ rest))
      (all_matches fuel (r, ngroups) (before ++ rest) (String.length before))
  = occurrences fuel m rest.
Proof.
  revert before rest; induction fuel as [|fuel IH]; intros before rest; [reflexivity|].
  cbn [all_matches occurrences]. unfold exec. cbn [fst snd].
  replace (String.length (before ++ rest) <? String.length before)%nat with false
    by (symmetry; apply Nat.ltb_ge; rewrite length_append; lia).
  rewrite drop_length_append.
  pose proof (search_span (before ++ rest) rest (String.length before)) as S.
  destruct (search r ngroups (before ++ rest) rest (String.length before)) as [x|],
           (find m rest) as [[[u w] t]|] eqn:F; cbn [option_map] in S; try discriminate;
    [|reflexivity].
  injection S as Hi He.
  destruct (find_split m bounded _ _ _ _ F) as [-> Hw].
  cbn [map]. unfold matched_text at 1. rewrite Hi, He.
  replace (String.length before + String.length u + String.length w
           =? String.length before + String.length u)%nat with false
    by (symmetry; apply Nat.eqb_neq; lia).
  f_equal.
  - replace (before ++ u ++ w ++ t) with ((before ++ u) ++ w ++ t) by now rewrite append_assoc.
    rewrite <- length_append. apply slice_middle.
  - replace (before ++ u ++ w ++ t) with ((before ++ u ++ w) ++ t)
      by now rewrite !append_assoc.
    replace (String.length before + String.length u + String.length w)
      with (String.length (before ++ u ++ w)) by (rewrite !length_append; lia).
    apply IH.
Qed.

Lemma match_global_occurrences (input : string) :
  match_global (r, ngroups) input = occurrences (String.length input + 2) m input.
Proof.
  unfold match_global.
  exact (all_matches_occurrences (String.length input + 2) EmptyString input).
Qed.

End Spans.

Theorem getTags_occurrences (options : Options) (html : string) :
  literal_text (tagName options) = true ->
  getTags options html
  = Ok (occurrences (String.length html + 2) (reads_closed (tagName options)) html
        ++ occurrences (String.length html + 2) (reads_self_closed (tagName options)) html)%list
       [].
Proof.
  intros L. unfold getTags, new_RegExp.
  rewrite (parse_closed_source _ L), (parse_self_closed_source _ L).
  cbn [ret bind app].
  rewrite (match_global_occurrences _ 1 _ (reads_closed_local _) (reads_closed_bounded _)).
  rewrite (match_global_occurrences _ 1 _ (reads_self_closed_local _)
             (reads_self_closed_bounded _)).
  reflexivity.
Qed.


(** ** Texts without tags *)

Lemma find_none (m : string -> option nat) (p : string) :
  (forall s, starts p s = None -> m s = None) ->
  forall s, split_at p s = None -> find m s = None.
Proof.
  intros Hm. induction s as [|a s IH]; rewrite split_at_unfold, find_unfold.
  - destruct (starts p "") eqn:E; [discriminate|]. now rewrite (Hm _ E).
  - destruct (starts p (String a s)) eqn:E; [discriminate|]. rewrite (Hm _ E).
    destruct (split_at p s) as [[u t]|]; [discriminate|].
    intros _. now rewrite IH.
Qed.

Lemma occurrences_none (fuel : nat) (m : string -> option nat) (s : string) :
  find m s = None -> occurrences fuel m s = [].
Proof. intros H. destruct fuel; cbn [occurrences]; [reflexivity|now rewrite H]. Qed.

Lemma reads_closed_starts (t s : string) :
  starts ("<" ++ t) s = None -> reads_closed t s = None.
Proof. unfold reads_closed. now intros ->. Qed.

Lemma reads_self_closed_starts (t s : string) :
  starts ("<" ++ t) s = None -> reads_self_closed t s = None.
Proof. unfold reads_self_closed. now intros ->. Qed.

Lemma getTags_none (options : Options) (html : string) :
  literal_text (tagName options) = true ->
  includes ("<" ++ tagName options) html = false ->
  getTags options html = Ok [] [].
Proof.
  intros L I. rewrite getTags_occurrences by exact L.
  unfold includes in I.
  destruct (split_at ("<" ++ tagName options) html) eqn:E; [discriminate|].
  rewrite !occurrences_none; [reflexivity| |].
  - apply (find_none _ ("<" ++ tagName options)); [apply reads_self_closed_starts|exact E].
  - apply (find_none _ ("<" ++ tagName options)); [apply reads_closed_starts|exact E].
Qed.


(** ** The shape of a tag *)

Lemma find_hit (m : string -> option nat) :
  forall s u w t,
    find m s = Some (u, w, t) ->
    exists s' n, s = u ++ s' /\ m s' = Some n /\ w = take n s' /\ t = drop n s'.
Proof.
  induction s as [|a s IH]; intros u w t; rewrite find_unfold.
  - destruct (m "") as [n|] eqn:E; [|discriminate].
    intros H; injection H as <- <- <-. now exists "", n.
  - destruct (m (String a s)) as [n|] eqn:E.
    + intros H; injection H as <- <- <-. now exists (String a s), n.
    + destruct (find m s) as [[[u' w'] t']|] eqn:F; [|discriminate].
      intros H; injection H as <- <- <-.
      destruct (IH _ _ _ eq_refl) as (s' & n & -> & Hm & Hw & Ht).
      now exists s', n.
Qed.

Lemma occurrences_Forall (P : string -> Prop) (m : string -> option nat) :
  (forall s n, m s = Some n -> P (take n s)) ->
  forall fuel s, Forall P (occurrences fuel m s).
Proof.
  intros H. induction fuel as [|fuel IH]; intros s; cbn [occurrences]; [constructor|].
  destruct (find m s) as [[[u w] t]|] eqn:F; [|constructor].
  destruct (find_hit _ _ _ _ _ F) as (s' & n & _ & Hm & -> & _).
  constructor; [now apply H|apply IH].
Qed.

Lemma take_append (p rest : string) (n : nat) :
  take (String.length p + n) (p ++ rest) = p ++ take n rest.
Proof. induction p as [|a p IH]; simpl; [reflexivity|now rewrite IH]. Qed.

Lemma literally_take (q s : string) (n : nat) :
  literally q s = Some n -> take n s = q.
Proof.
  unfold literally. destruct (starts q s) as [rest|] eqn:E; [|discriminate].
  intros H; injection H as <-. apply starts_length in E. subst.
  apply take_length_append.
Qed.

Lemma starts_prefix (q a b rest : string) :
  starts q a = Some rest -> starts q (a ++ b) = Some (rest ++ b).
Proof.
  intros H. apply starts_length in H. subst a.
  rewrite append_assoc. apply starts_append.
Qed.

Lemma starts_self (q : string) : starts q q = Some "".
Proof. pose proof (starts_append q "") as H. now rewrite append_nil_r in H. Qed.

Lemma split_at_self (q : string) : split_at q q = Some ("", "").
Proof. now rewrite split_at_unfold, starts_self. Qed.

Lemma lazy_scan_shape (q : string) :
  forall s n,
    lazy_scan q s = Some n ->
    exists body, take n s = body ++ q /\ one_line body = true
                 /\ split_at q (body ++ q) = Some (body, "").
Proof.
  induction s as [|a s IH]; intros n; cbn [lazy_scan].
  - destruct (literally q "") eqn:E; [|discriminate].
    intros H; injection H as <-. exists "". rewrite (literally_take _ _ _ E).
    repeat split. apply split_at_self.
  - destruct (literally q (String a s)) eqn:E.
    + intros H; injection H as <-. exists "". rewrite (literally_take _ _ _ E).
      repeat split. apply split_at_self.
    + destruct (is_line_terminator a) eqn:T; [discriminate|].
      destruct (lazy_scan q s) as [n'|] eqn:L; [|discriminate].
      intros H; injection H as <-.
      destruct (IH n' eq_refl) as (body & Ht & Ho & Hs).
      exists (String a body). cbn [take append]. rewrite Ht.
      split; [reflexivity|]. split; [unfold one_line in *; cbn [all_chars]; now rewrite T|].
      rewrite split_at_unfold. cbn [append] in *.
      destruct (starts q (String a (body ++ q))) as [rest|] eqn:S.
      * exfalso. unfold literally in E.
        pose proof (starts_prefix _ _ (drop n' s) _ S) as S'.
        cbn [append] in S'. rewrite <- Ht, take_drop in S'. now rewrite S' in E.
      * now rewrite Hs.
Qed.

Lemma greedy_scan_shape (q : string) :
  forall s n,
    greedy_scan q s = Some n ->
    exists body, take n s = body ++ q /\ one_line body = true.
Proof.
  induction s as [|a s IH]; intros n; cbn [greedy_scan].
  - intros E. exists "". now rewrite (literally_take _ _ _ E).
  - destruct (is_line_terminator a) eqn:T.
    + intros E. exists "". now rewrite (literally_take _ _ _ E).
    + destruct (greedy_scan q s) as [n'|] eqn:G.
      * intros H; injection H as <-.
        destruct (IH n' eq_refl) as (body & Ht & Ho).
        exists (String a body). cbn [take append]. rewrite Ht.
        split; [reflexivity|]. unfold one_line in *; cbn [all_chars]; now rewrite T.
      * intros E. exists "". now rewrite (literally_take _ _ _ E).
Qed.

Lemma reads_self_closed_shape (t s : string) (n : nat) :
  reads_self_closed t s = Some n ->
  exists body, take n s = "<" ++ t ++ body ++ "/>" /\ one_line body = true
               /\ split_at "/>" (body ++ "/>") = Some (body, "").
Proof.
  unfold reads_self_closed. destruct (starts ("<" ++ t) s) as [rest|] eqn:E; [|discriminate].
  apply starts_length in E. subst s.
  destruct (lazy_scan "/>" rest) as [n'|] eqn:L; [|discriminate].
  intros H; injection H as <-.
  destruct (lazy_scan_shape _ _ _ L) as (body & Ht & Ho & Hs).
  exists body. split; [|auto].
  transitivity (("<" ++ t) ++ take n' rest); [apply (take_append ("<" ++ t) rest n')|].
  rewrite Ht. reflexivity.
Qed.

Lemma reads_closed_shape (t s : string) (n : nat) :
  reads_closed t s = Some n ->
  exists body, take n s = "<" ++ t ++ body ++ "/" ++ t ++ ">" /\ one_line body = true.
Proof.
  unfold reads_closed. destruct (starts ("<" ++ t) s) as [rest|] eqn:E; [|discriminate].
  apply starts_length in E. subst s.
  destruct (greedy_scan ("/" ++ t ++ ">") rest) as [n'|] eqn:L; [|discriminate].
  intros H; injection H as <-.
  destruct (greedy_scan_shape _ _ _ L) as (body & Ht & Ho).
  exists body. split; [|auto].
  transitivity (("<" ++ t) ++ take n' rest); [apply (take_append ("<" ++ t) rest n')|].
  rewrite Ht. reflexivity.
Qed.

(** ** A closed tag on one line *)

Lemma greedy_scan_short (q s : string) :
  String.length s < String.length q -> greedy_scan q s = None.
Proof.
  intros H. destruct (greedy_scan q s) as [n|] eqn:E; [|reflexivity].
  apply greedy_scan_bound in E. lia.
Qed.

Lemma literally_self (q rest : string) : literally q (q ++ rest) = Some (String.length q).
Proof. unfold literally. now rewrite starts_append. Qed.

Lemma greedy_scan_self (q : string) : greedy_scan q q = Some (String.length q).
Proof.
  pose proof (literally_self q "") as L. rewrite append_nil_r in L.
  destruct q as [|a q]; [exact L|].
  cbn [greedy_scan]. destruct (is_line_terminator a); [exact L|].
  rewrite greedy_scan_short by (cbn [String.length]; lia). exact L.
Qed.

Lemma greedy_scan_line (q : string) :
  forall body, one_line body = true ->
               greedy_scan q (body ++ q) = Some (String.length body + String.length q).
Proof.
  induction body as [|a body IH]; intros H.
  - apply greedy_scan_self.
  - unfold one_line in H. cbn [all_chars] in H. apply andb_prop in H as [Ha Hb].
    cbn [append greedy_scan String.length].
    destruct (is_line_terminator a); [discriminate|].
    now rewrite (IH Hb).
Qed.

Lemma occurrences_whole (fuel : nat) (m : string -> option nat) (s : string) :
  m s = Some (String.length s) -> m "" = None ->
  occurrences (S (S fuel)) m s = [s].
Proof.
  intros H E. cbn [occurrences]. rewrite find_unfold, H.
  pose proof (take_length_append s "") as T. pose proof (drop_length_append s "") as D.
  rewrite append_nil_r in T, D. rewrite T, D.
  now rewrite find_unfold, E.
Qed.


(** ** A tag name that is not a pattern *)

Lemma parse_alternative_prepend_none (src : string) :
  (forall r0, parse_quantifier r0 src = (r0, src)) ->
  (forall f n, parse_alternative f src n = None) ->
  forall p f n, literal_text p = true -> parse_alternative f (p ++ src) n = None.
Proof.
  intros Hq Hsrc. induction p as [|a p IH]; intros f n Hp.
  - apply Hsrc.
  - unfold literal_text in Hp. cbn [all_chars] in Hp. apply andb_prop in Hp as [Ha Hp].
    cbn [append]. destruct f as [|[|f]]; [reflexivity| |].
    + now rewrite parse_alternative_literal_step.
    + rewrite parse_alternative_literal_step, parse_term_literal by assumption.
      assert (Q : parse_quantifier (RChar (CSChar a)) (p ++ src)
                  = (RChar (CSChar a), p ++ src)).
      { destruct p as [|b p]; [apply Hq|].
        cbn [all_chars] in Hp. apply andb_prop in Hp as [Hb _].
        now apply parse_quantifier_literal. }
      rewrite Q, IH by auto. reflexivity.
Qed.

Lemma parse_alternative_open (f n : nat) : parse_alternative f "(" n = None.
Proof. destruct f as [|[|[|[|f]]]]; reflexivity. Qed.

Lemma parse_unbalanced (name : string) :
  literal_text name = true -> parse ("<" ++ name ++ "(") = None.
Proof.
  intros H. unfold parse.
  replace (3 * String.length ("<" ++ name ++ "(") + 3)
    with (S (3 * String.length ("<" ++ name ++ "(") + 2)) by lia.
  cbn [parse_disjunction].
  replace ("<" ++ name ++ "(") with (("<" ++ name) ++ "(") by (now rewrite append_assoc).
  rewrite (parse_alternative_prepend_none "("); auto.
  intros f n. apply parse_alternative_open.
Qed.

(** ** The depth of inclusion

    [injectHTML] is defined with a bound on the depth of inclusion; below,
    a result that is not [OutOfFuel] is the same at every greater bound. *)

Lemma injectHTML_S (prettyPrint : string -> string) (fs : FileSystem) (options : Options)
      (fuel : nat) (file : FileObject) :
  injectHTML prettyPrint fs options (S fuel) file
  = match file with
    | VinylFile contents =>
        content <- format options contents ;;
        html <- getHTML fs options (include prettyPrint fs options fuel) content ;;
        ret (VinylFile (prettyPrint html))
    | NodeBuffer bytes =>
        content <- format options bytes ;;
        html <- getHTML fs options (include prettyPrint fs options fuel) content ;;
        ret (NodeBuffer (prettyPrint html))
    end.
Proof. reflexivity. Qed.

Lemma refines_refl {A : Type} (x : Result A) : refines x x.
Proof. now right. Qed.

Lemma bind_refines {A B : Type} (x y : Result A) (f g : A -> Result B) :
  refines x y -> (forall a, refines (f a) (g a)) -> refines (bind x f) (bind y g).
Proof.
  intros [->| ->] H; [now left|].
  destruct y as [a l| |]; [|now right|now right].
  cbn [bind]. destruct (H a) as [E|E]; rewrite E; [now left|now right].
Qed.

Lemma mapM_refines {A B : Type} (f g : A -> Result B) (xs : list A) :
  (forall a, refines (f a) (g a)) -> refines (mapM f xs) (mapM g xs).
Proof.
  intros H. induction xs as [|x xs IH]; cbn [mapM]; [apply refines_refl|].
  apply bind_refines; [apply H|]. intros y.
  apply bind_refines; [apply IH|]. intros ys. apply refines_refl.
Qed.

Lemma getPartial_refines (fs : FileSystem) (options : Options)
      (inject1 inject2 : string -> Result string) (attributes : list Attribute) :
  (forall bytes, refines (inject1 bytes) (inject2 bytes)) ->
  refines (getPartial fs options inject1 attributes)
          (getPartial fs options inject2 attributes).
Proof.
  intros H. unfold getPartial. apply bind_refines; [|intros; apply refines_refl].
  destruct (fst (partition is_src attributes)) as [|a l]; [apply refines_refl|].
  destruct (value a) as [|c v]; [apply refines_refl|].
  destruct (fs (basePath options ++ String c v)); [|apply refines_refl].
  apply bind_refines; [apply H|intros; apply refines_refl].
Qed.

Lemma getHTML_refines (fs : FileSystem) (options : Options)
      (inject1 inject2 : string -> Result string) (html : string) :
  (forall bytes, refines (inject1 bytes) (inject2 bytes)) ->
  refines (getHTML fs options inject1 html) (getHTML fs options inject2 html).
Proof.
  intros H. unfold getHTML. apply bind_refines; [apply refines_refl|]. intros tags.
  apply bind_refines; [|intros; apply refines_refl].
  apply mapM_refines. intros tag. unfold partial_of.
  apply bind_refines; [apply refines_refl|]. intros attributes.
  now apply getPartial_refines.
Qed.

Lemma injectHTML_refines (prettyPrint : string -> string) (fs : FileSystem)
      (options : Options) :
  forall fuel file,
    refines (injectHTML prettyPrint fs options fuel file)
            (injectHTML prettyPrint fs options (S fuel) file).
Proof.
  induction fuel as [|fuel IH]; intros file; [now left|].
  rewrite (injectHTML_S _ _ _ fuel), (injectHTML_S _ _ _ (S fuel)).
  assert (I : forall bytes, refines (include prettyPrint fs options fuel bytes)
                                    (include prettyPrint fs options (S fuel) bytes)).
  { intros bytes. unfold include. apply bind_refines; [apply IH|intros; apply refines_refl]. }
  destruct file; (apply bind_refines; [apply refines_refl|]); intros content;
    (apply bind_refines; [now apply getHTML_refines|intros; apply refines_refl]).
Qed.

Lemma injectHTML_more_fuel (prettyPrint : string -> string) (fs : FileSystem)
      (options : Options) (fuel : nat) (file : FileObject) :
  injectHTML prettyPrint fs options fuel file <> OutOfFuel ->
  forall more, injectHTML prettyPrint fs options (more + fuel) file
               = injectHTML prettyPrint fs options fuel file.
Proof.
  intros H. induction more as [|more IH]; [reflexivity|].
  cbn [Nat.add]. destruct (injectHTML_refines prettyPrint fs options (more + fuel) file) as [E|E].
  - rewrite IH in E. contradiction.
  - now rewrite <- E.
Qed.

(** ** A resolved partial *)

Lemma getPartial_resolved (fs : FileSystem) (options : Options)
      (inject : string -> Result string) (attributes : list Attribute)
      (v bytes text : string) (log : list LogEntry) :
  src_of attributes = Some v -> v <> "" ->
  fs (basePath options ++ v) = Some bytes ->
  inject bytes = Ok text log ->
  Forall (fun a => variablePrefix options ++ key a <> "") attributes ->
  getPartial fs options inject attributes
  = Ok (fold_left (replace_placeholder options)
          (filter (fun a => negb (is_src a)) attributes) text) log.
Proof.
  intros S V F I P. unfold getPartial. rewrite partition_as_filter. cbn [fst snd].
  unfold src_of in S. destruct (filter is_src attributes) as [|a l]; [discriminate|].
  injection S as ->. destruct v as [|c v]; [congruence|].
  rewrite F, I. cbn [bind ret].
  rewrite replaceAttributes_fold by now apply Forall_filter.
  now rewrite !app_nil_r.
Qed.

(** ** The first replacement of the formatter *)

Lemma line_terminator_cases (a : ascii) :
  is_line_terminator a = Ascii.eqb CR a || Ascii.eqb LF a.
Proof. each_character a. Qed.

Lemma collapse_one_line_upto (n : nat) :
  forall s, String.length s <= n -> one_line (collapse s) = true.
Proof.
  unfold one_line.
  induction n as [|n IH]; intros [|a s] Hn; try reflexivity; [simpl in Hn; lia|].
  cbn [String.length] in Hn. cbn [collapse].
  destruct (Ascii.eqb CR a) eqn:Ea.
  - cbn [all_chars]. change (negb (is_line_terminator " ")) with true. cbn [andb].
    destruct s as [|b s]; [reflexivity|]. cbn [String.length] in Hn.
    destruct (Ascii.eqb LF b); apply IH; cbn [String.length]; lia.
  - destruct (Ascii.eqb LF a) eqn:El.
    + cbn [all_chars]. change (negb (is_line_terminator " ")) with true. cbn [andb].
      apply IH; lia.
    + cbn [all_chars]. rewrite line_terminator_cases, Ea, El. cbn [orb negb andb].
      apply IH; lia.
Qed.

Lemma collapse_one_line (s : string) : one_line (collapse s) = true.
Proof. apply (collapse_one_line_upto (String.length s)); lia. Qed.

Lemma collapse_fixed (s : string) : one_line s = true -> collapse s = s.
Proof.
  unfold one_line. induction s as [|a s IH]; [reflexivity|].
  cbn [all_chars]. intros H. apply andb_prop in H as [Ha Hs].
  rewrite line_terminator_cases in Ha. apply negb_true_iff, orb_false_iff in Ha as [Ea El].
  cbn [collapse]. rewrite Ea, El. now rewrite IH.
Qed.

(** ** The settings a file is processed with *)

Lemma run_transforms (prettyPrint : string -> string) (fs : FileSystem) (fuel : nat) :
  forall configs options rest,
    run prettyPrint fs fuel options (map Transform configs ++ rest)%list
    = run prettyPrint fs fuel (fold_left assign configs options) rest.
Proof.
  induction configs as [|c configs IH]; intros options rest; [reflexivity|].
  cbn [map app run fold_left]. apply IH.
Qed.

Lemma fold_assign_latest :
  forall configs options,
    fold_left assign configs options
    = {| tagName := latest config_tagName configs (tagName options);
         basePath := latest config_basePath configs (basePath options);
         variablePrefix := latest config_variablePrefix configs (variablePrefix options) |}.
Proof.
  induction configs as [|c configs IH]; intros options.
  - now destruct options.
  - cbn [fold_left latest]. rewrite IH. reflexivity.
Qed.

(** ** A closed tag with a self-closing element in its body *)

Lemma starts_extend_none (q : string) :
  forall x rest, starts q x = None -> String.length q <= String.length x ->
                 starts q (x ++ rest) = None.
Proof.
  induction q as [|d q IH]; intros [|e x] rest H L; cbn [starts append] in *;
    try discriminate; [cbn [String.length] in L; lia|].
  destruct (Ascii.eqb d e); [|reflexivity].
  apply IH; [exact H|cbn [String.length] in L; lia].
Qed.

Lemma lazy_scan_first (q rest : string) :
  forall a, split_at q (a ++ q) = Some (a, "") -> one_line a = true ->
            lazy_scan q (a ++ q ++ rest) = Some (String.length a + String.length q).
Proof.
  induction a as [|c a IH]; intros S O.
  - cbn [append String.length Nat.add].
    destruct (q ++ rest) eqn:E; cbn [lazy_scan]; rewrite <- E, literally_self; reflexivity.
  - unfold one_line in O. cbn [all_chars] in O. apply andb_prop in O as [Oc Oa].
    rewrite split_at_unfold in S. cbn [append] in S.
    destruct (starts q (String c (a ++ q))) eqn:St; [discriminate|].
    destruct (split_at q (a ++ q)) as [[u t]|] eqn:Sa; [|discriminate].
    injection S as -> ->.
    cbn [append lazy_scan]. unfold literally at 1.
    replace (String c (a ++ q ++ rest)) with (String c (a ++ q) ++ rest)
      by (cbn [append]; now rewrite append_assoc).
    rewrite starts_extend_none;
      [|exact St|cbn [String.length]; rewrite length_append; lia].
    destruct (is_line_terminator c); [discriminate|].
    rewrite IH by auto. reflexivity.
Qed.

Lemma one_line_append (a b : string) : one_line (a ++ b) = one_line a && one_line b.
Proof. apply all_chars_append. Qed.

(** ** Values of one character *)

Lemma value_needs_two (x : ascii) (tail : string) (i : nat) (c : Captures)
      (k : Continuation) :
  matcher (RGroup 2 value_pattern) (String x (String DQ tail)) i c k = None.
Proof.
  rewrite matcher_group. unfold value_pattern. rewrite matcher_seq.
  change (RSeq (RChar CSDot) (RSeq (RLook true next_attribute_or_end) REmpty))
    with value_body.
  rewrite matcher_quant. change (groups_of value_body) with (@nil nat).
  replace (1 + String.length (String x (String DQ tail)) + 1)
    with (S (S (String.length (String x (String DQ tail))))) by lia.
  rewrite repeat_matcher_S; cbv zeta. change (1 =? 0) with false.
  cbn [negb andb pred option_map]. rewrite clear_no_captures, value_body_step.
  destruct (negb (is_line_terminator x)); [|reflexivity].
  now destruct (lookahead_succeeds tail (S i) c) as (z & ->).
Qed.

Lemma value_reads_quote (x : ascii) (tail : string) (i : nat) (c : Captures) :
  value_char x = true -> equals_in_run tail = false ->
  matcher (RSeq (RGroup 2 value_pattern) (RSeq optional_quote REmpty))
          (String DQ (String x (String DQ tail))) i c accept
  = Some (i + 3, set_capture c 2 (Some (i, i + 2))).
Proof.
  intros Hx Ht.
  rewrite matcher_seq, matcher_group. unfold value_pattern. rewrite matcher_seq.
  change (RSeq (RChar CSDot) (RSeq (RLook true next_attribute_or_end) REmpty))
    with value_body.
  rewrite matcher_quant. change (groups_of value_body) with (@nil nat).
  replace (1 + String.length (String DQ (String x (String DQ tail))) + 1)
    with (S (S (String.length (String DQ (String x (String DQ tail)))))) by lia.
  rewrite repeat_matcher_S; cbv zeta. change (1 =? 0) with false.
  cbn [negb andb pred option_map]. rewrite clear_no_captures, value_body_step.
  change (is_line_terminator DQ) with false. cbn [negb].
  change (String x (String DQ tail)) with (String x "" ++ String DQ tail) at 1.
  rewrite lookahead_fails; [|discriminate|cbn [all_chars]; now rewrite Hx|exact Ht].
  apply (value_star_reads x tail _ _ Hx Ht "").
  - reflexivity.
  - cbn [String.length]. lia.
  - rewrite matcher_seq, matcher_char.
    pose proof Hx as Hx'. apply value_char_facts in Hx' as (_ & _ & _ & _ & L).
    cbn [cs_matches]. rewrite L. cbn [negb].
    rewrite matcher_empty, matcher_seq. unfold optional_quote.
    rewrite matcher_optional. cbn [optional_greedy].
    change (cs_matches (CSClass false [CIChar DQ; CIChar "'"]) DQ) with true.
    cbv iota. rewrite matcher_empty. unfold accept. cbn [String.length].
    do 2 f_equal; try lia. f_equal. f_equal. f_equal; lia.
Qed.

Lemma attribute_reads_one (k : string) (x : ascii) (tail : string) (i : nat) :
  k <> "" -> all_chars key_char k = true ->
  value_char x = true -> equals_in_run tail = false ->
  exists c,
    matcher attribute_pattern (k ++ "=" ++ dq ++ String x (dq ++ tail)) i no_captures accept
    = Some (i + String.length k + 4, c)
    /\ c 1 = Some (i, i + String.length k)
    /\ c 2 = Some (i + String.length k + 1, i + String.length k + 3).
Proof.
  intros Hk Hkc Hx Ht.
  exists (set_capture (set_capture no_captures 1 (Some (i, i + String.length k))) 2
                      (Some (S (i + String.length k), S (i + String.length k) + 2))).
  split; [|split; [reflexivity|cbn; f_equal; f_equal; lia]].
  unfold attribute_pattern. rewrite matcher_seq, matcher_group.
  unfold key_pattern. rewrite matcher_seq. unfold non_space. rewrite matcher_plus.
  apply plus_greedy_reads.
  - exact Hk.
  - clear -Hkc. induction k as [|a k IH]; [reflexivity|].
    cbn [all_chars] in *. apply andb_prop in Hkc as [Ha Hk].
    apply key_char_facts in Ha as [Ha _].
    rewrite non_space_matches, Ha, IH; auto.
  - intros w' s' E' Hw' Hc. cbv beta. rewrite matcher_empty.
    destruct s' as [|a s']; [reflexivity|].
    rewrite matcher_seq, matcher_char. cbn [cs_matches].
    destruct (Ascii.eqb_spec "=" a) as [<-|]; [exfalso|reflexivity].
    assert (Hn : all_chars (fun a => negb (is_space a)) w' = true).
    { clear -Hc. induction w' as [|a w IH]; [reflexivity|].
      cbn [all_chars] in *. apply andb_prop in Hc as [Ha Hw].
      rewrite non_space_matches in Ha. now rewrite Ha, IH. }
    destruct w' as [|y w']; [congruence|].
    cbn [append] in E'. injection E' as <- E'.
    cbn [all_chars] in Hn. apply andb_prop in Hn as [_ Hn].
    destruct w' as [|y' w']; cbn [append] in E'; [discriminate|].
    injection E' as <- E'.
    cbn [all_chars] in Hn. apply andb_prop in Hn as [_ Hn].
    eapply (word_equals_impossible (String x "") tail); eauto.
    cbn [all_chars]. now rewrite Hx.
  - cbv beta. rewrite matcher_empty. cbn [append].
    rewrite matcher_seq, matcher_char. cbn [cs_matches]. rewrite Ascii.eqb_refl.
    rewrite matcher_seq. unfold optional_quote at 1. rewrite matcher_optional.
    unfold dq. cbn [append optional_greedy].
    change (cs_matches (CSClass false [CIChar DQ; CIChar "'"]) DQ) with true. cbv iota.
    rewrite matcher_seq, value_needs_two.
    rewrite value_reads_quote by assumption.
    do 2 f_equal. lia.
Qed.

Lemma exec_rendered_one (pre junk k : string) (x : ascii) (tail : string) :
  no_equals junk = true ->
  k <> "" -> all_chars key_char k = true -> value_char x = true ->
  equals_in_run tail = false ->
  exists m,
    exec (attribute_pattern, 2)
         (pre ++ junk ++ render {| key := k; value := String x "" |} ++ tail)
         (String.length pre) = Some m
    /\ endIndex m
       = String.length (pre ++ junk ++ render {| key := k; value := String x "" |})
    /\ groups m = [Some k; Some (dq ++ String x "")].
Proof.
  intros Hj K1 K2 Hx Ht.
  unfold exec. cbn [fst snd].
  replace (String.length (pre ++ junk ++ render {| key := k; value := String x "" |} ++ tail)
           <? String.length pre) with false
    by (symmetry; apply Nat.ltb_ge; rewrite length_append; lia).
  rewrite drop_length_append.
  unfold render. cbn [key value].
  replace (junk ++ (" " ++ k ++ "=" ++ dq ++ String x "" ++ dq) ++ tail)
    with ((junk ++ " ") ++ (k ++ "=" ++ dq ++ String x (dq ++ tail)))
    by (now rewrite !append_assoc).
  rewrite search_skip.
  - destruct (attribute_reads_one k x tail (String.length pre + String.length (junk ++ " "))
                K1 K2 Hx Ht) as (c & M & C1 & C2).
    rewrite search_unfold, M.
    eexists. split; [reflexivity|]. cbn [endIndex groups index].
    split.
    + lengths.
    + unfold capture_texts. cbn [seq map]. rewrite C1, C2.
      rewrite (slice_at (pre ++ junk ++ " ") k ("=" ++ dq ++ String x (dq ++ tail)));
        [|now rewrite !append_assoc|lengths|lengths].
      rewrite (slice_at (pre ++ junk ++ " " ++ k ++ "=") (dq ++ String x "") (dq ++ tail));
        [reflexivity|now rewrite !append_assoc|lengths|lengths].
  - intros u1 u2 E Hu2. apply attribute_fails.
    apply snoc_split in E as (y & -> & ->); [|exact Hu2].
    rewrite no_equals_append in Hj. apply andb_prop in Hj as [_ Hy].
    rewrite append_assoc. now apply equals_in_run_no_equals.
Qed.

Lemma key_read_back (a : Attribute) : key (read_back a) = key a.
Proof. unfold read_back. now destruct (String.length (value a) =? 1). Qed.

Lemma exec_readable (pre junk : string) (a : Attribute) (tail : string) :
  no_equals junk = true -> readable a -> equals_in_run tail = false ->
  exists m,
    exec (attribute_pattern, 2) (pre ++ junk ++ render a ++ tail) (String.length pre) = Some m
    /\ endIndex m = String.length (pre ++ junk ++ render a)
    /\ groups m = [Some (key a); Some (value (read_back a))].
Proof.
  intros Hj (K1 & K2 & V1 & V2) Ht. unfold read_back.
  destruct (String.length (value a) =? 1) eqn:E.
  - apply Nat.eqb_eq in E. destruct a as [k [|x [|y v]]]; try discriminate E.
    cbn [key value all_chars] in *. rewrite andb_true_r in V2.
    now apply exec_rendered_one.
  - apply Nat.eqb_neq in E. apply exec_rendered; auto.
    repeat split; auto. lia.
Qed.

Lemma getAttributes_loop_readable (closing : string) :
  no_equals closing = true ->
  forall attributes pre junk fuel,
    no_equals junk = true -> Forall readable attributes ->
    List.length attributes < fuel ->
    getAttributes_loop fuel (attribute_pattern, 2)
      (pre ++ junk ++ render_all attributes ++ closing) (String.length pre)
    = Some (map read_back attributes).
Proof.
  intros Hc. induction attributes as [|a rest IH]; intros pre junk fuel Hj W Hf;
    (destruct fuel as [|fuel]; [simpl in Hf; lia|]); cbn [getAttributes_loop render_all map].
  - unfold exec. cbn [fst snd append].
    replace (String.length (pre ++ junk ++ closing) <? String.length pre) with false
      by (symmetry; apply Nat.ltb_ge; rewrite length_append; lia).
    rewrite drop_length_append, search_fails; [reflexivity|].
    intros u1 u2 E. apply attribute_fails.
    apply no_equals_run.
    assert (H : no_equals (junk ++ closing) = true)
      by (rewrite no_equals_append, Hj, Hc; reflexivity).
    rewrite E, no_equals_append in H. now apply andb_prop in H as [_ H].
  - inversion W as [|? ? Wa Wrest]; subst.
    destruct (exec_readable pre junk a (render_all rest ++ closing) Hj Wa
                (render_all_run rest closing Hc)) as (m & E & End & G).
    rewrite append_assoc, E, End, G. cbn [nth].
    replace (pre ++ junk ++ render a ++ render_all rest ++ closing)
      with ((pre ++ junk ++ render a) ++ "" ++ render_all rest ++ closing)
      by (now rewrite !append_assoc).
    rewrite IH; auto.
    + rewrite <- (key_read_back a). now destruct (read_back a).
    + cbn [List.length] in Hf. lia.
Qed.

Lemma getAttributes_readable (name closing : string) (attributes : list Attribute) :
  no_equals name = true -> no_equals closing = true -> Forall readable attributes ->
  getAttributes (name ++ render_all attributes ++ closing)
  = Ok (map read_back attributes) [].
Proof.
  intros Hn Hc W. unfold getAttributes, new_RegExp. rewrite parse_attributes_source.
  unfold ret. rewrite bind_ok_nil.
  rewrite (getAttributes_loop_readable closing Hc attributes "" name); auto.
  rewrite !length_append. pose proof (length_render_all attributes). lia.
Qed.

(** ** Occurrences of a text *)

Lemma lacks_append (c : ascii) (a b : string) : lacks c (a ++ b) = lacks c a && lacks c b.
Proof. apply all_chars_append. Qed.

Lemma absent_in_app (p x y rest : string) :
  absent_in p (x ++ y) rest = absent_in p x (y ++ rest) && absent_in p y rest.
Proof.
  induction x as [|a x IH]; [reflexivity|].
  cbn [append absent_in]. rewrite append_assoc.
  destruct (starts p (String a (x ++ y ++ rest))); [reflexivity|exact IH].
Qed.

Lemma starts_fit (c : ascii) (v : string) :
  forall p u r, lacks c p = true -> starts p (u ++ String c v) = Some r ->
                exists r', starts p u = Some r'.
Proof.
  induction p as [|b p IH]; intros u r L H; [now exists u|].
  unfold lacks in L. cbn [all_chars] in L. apply andb_prop in L as [Lb Lp].
  destruct u as [|a u]; cbn [append starts] in *.
  - apply negb_true_iff in Lb. rewrite Lb in H. discriminate.
  - destruct (Ascii.eqb b a); [|discriminate]. now apply (IH u r).
Qed.

Lemma includes_cons (p : string) (a : ascii) (x : string) :
  includes p (String a x) = false -> starts p (String a x) = None /\ includes p x = false.
Proof.
  unfold includes. rewrite split_at_unfold.
  destruct (starts p (String a x)); [discriminate|].
  destruct (split_at p x) as [[u t]|]; [discriminate|]. auto.
Qed.

Lemma absent_char (b c : ascii) (p rest : string) :
  lacks c p = true ->
  forall x, includes (String b p) x = false -> absent_in (String b p) x (String c rest) = true.
Proof.
  intros L. induction x as [|a x IH]; intros I; [reflexivity|].
  apply includes_cons in I as [S I]. cbn [absent_in append].
  cbn [starts] in S |- *. destruct (Ascii.eqb b a); [|now apply IH].
  destruct (starts p (x ++ String c rest)) as [r|] eqn:E; [|now apply IH].
  destruct (starts_fit c rest p x r L E) as (r' & E'). congruence.
Qed.

Lemma absent_first (b : ascii) (p rest : string) :
  forall x, lacks b x = true -> absent_in (String b p) x rest = true.
Proof.
  induction x as [|a x IH]; intros L; [reflexivity|].
  unfold lacks in L. cbn [all_chars] in L. apply andb_prop in L as [La Lx].
  cbn [absent_in append starts]. apply negb_true_iff in La.
  rewrite Ascii.eqb_sym, La. now apply IH.
Qed.

Lemma split_at_skip (p rest : string) :
  forall x, absent_in p x rest = true ->
            split_at p (x ++ rest)
            = match split_at p rest with
              | Some (b, a) => Some (x ++ b, a)
              | None => None
              end.
Proof.
  induction x as [|a x IH]; intros A.
  - cbn [append]. now destruct (split_at p rest) as [[b t]|].
  - cbn [absent_in] in A. cbn [append] in *. rewrite split_at_unfold.
    destruct (starts p (String a (x ++ rest))); [discriminate|].
    rewrite (IH A). now destruct (split_at p rest) as [[b t]|].
Qed.

Lemma find_skip (m : string -> option nat) (p rest : string) :
  (forall s, starts p s = None -> m s = None) ->
  forall x, absent_in p x rest = true ->
            find m (x ++ rest)
            = match find m rest with
              | Some (u, w, t) => Some (x ++ u, w, t)
              | None => None
              end.
Proof.
  intros Hm. induction x as [|a x IH]; intros A.
  - cbn [append]. now destruct (find m rest) as [[[u w] t]|].
  - cbn [absent_in] in A. cbn [append] in *. rewrite find_unfold.
    destruct (starts p (String a (x ++ rest))) eqn:E; [discriminate|].
    rewrite (Hm _ E), (IH A). now destruct (find m rest) as [[[u w] t]|].
Qed.

Lemma includes_skip (p x rest : string) :
  absent_in p x rest = true -> includes p rest = false -> includes p (x ++ rest) = false.
Proof.
  intros A I. unfold includes in *. rewrite split_at_skip by exact A.
  now destruct (split_at p rest) as [[b a]|].
Qed.

Lemma absent_includes (p x : string) :
  includes p x = false -> absent_in p x "" = true.
Proof.
  induction x as [|a x IH]; intros I; [reflexivity|].
  apply includes_cons in I as [S I]. cbn [absent_in]. rewrite append_nil_r, S. auto.
Qed.

Lemma includes_absent (p x : string) :
  p <> "" -> absent_in p x "" = true -> includes p x = false.
Proof.
  intros Hp A. rewrite <- (append_nil_r x). apply includes_skip; [exact A|].
  destruct p; [congruence|reflexivity].
Qed.

Lemma starts_lacks (c : ascii) :
  forall p s r, starts p s = Some r -> lacks c s = true -> lacks c p = true.
Proof.
  intros p s r H L. apply starts_length in H. subst s.
  rewrite lacks_append in L. now apply andb_prop in L as [L _].
Qed.

(** A text that holds a character [x] lacks does not occur in [x]. *)
Lemma includes_lacks (c : ascii) (p : string) :
  lacks c p = false -> forall x, lacks c x = true -> includes p x = false.
Proof.
  intros Lp. induction x as [|a x IH]; intros Lx.
  - unfold includes. rewrite split_at_unfold.
    destruct (starts p "") as [r|] eqn:E; [|reflexivity].
    rewrite (starts_lacks c _ _ _ E Lx) in Lp. discriminate.
  - unfold includes. rewrite split_at_unfold.
    destruct (starts p (String a x)) as [r|] eqn:E.
    + rewrite (starts_lacks c _ _ _ E Lx) in Lp. discriminate.
    + unfold lacks in Lx. cbn [all_chars] in Lx. apply andb_prop in Lx as [_ Lx].
      specialize (IH Lx). unfold includes in IH.
      now destruct (split_at p x) as [[u t]|].
Qed.

Lemma split_at_split (p : string) :
  forall s b a, split_at p s = Some (b, a) -> s = b ++ p ++ a.
Proof.
  induction s as [|c s IH]; intros b a; rewrite split_at_unfold.
  - destruct (starts p "") as [r|] eqn:E; [|discriminate].
    intros H; injection H as <- <-. now apply starts_length in E.
  - destruct (starts p (String c s)) as [r|] eqn:E.
    + intros H; injection H as <- <-. now apply starts_length in E.
    + destruct (split_at p s) as [[u t]|] eqn:S; [|discriminate].
      intros H; injection H as <- <-. cbn [append]. f_equal. now apply IH.
Qed.

(** ** Replacing the only occurrence *)

Lemma split_at_here (p rest : string) : split_at p (p ++ rest) = Some ("", rest).
Proof. now rewrite split_at_unfold, starts_append. Qed.

Lemma split_at_only (p x rest : string) :
  absent_in p x (p ++ rest) = true -> split_at p (x ++ p ++ rest) = Some (x, rest).
Proof.
  intros A. rewrite split_at_skip by exact A. now rewrite split_at_here, append_nil_r.
Qed.

Lemma substitute_all_absent (p v s : string) :
  includes p s = false -> substitute_all p v s = s.
Proof.
  unfold substitute_all, includes. replace (String.length s + 2) with (S (String.length s + 1)) by lia.
  cbn [substitute_from]. now destruct (split_at p s) as [[b a]|].
Qed.

Lemma substitute_all_once (p v x rest : string) :
  absent_in p x (p ++ rest) = true -> includes p rest = false ->
  substitute_all p v (x ++ p ++ rest) = x ++ v ++ rest.
Proof.
  intros A I. unfold substitute_all.
  replace (String.length (x ++ p ++ rest) + 2)
    with (S (S (String.length (x ++ p ++ rest)))) by lia.
  cbn [substitute_from]. rewrite split_at_only by exact A.
  unfold includes in I. now destruct (split_at p rest) as [[b a]|].
Qed.

Lemma put_first_only (p text x rest : string) :
  absent_in p x (p ++ rest) = true -> put_first p text (x ++ p ++ rest) = x ++ text ++ rest.
Proof. intros A. unfold put_first. now rewrite split_at_only. Qed.

Lemma replace_first_put (tag text s : string) :
  has_dollar text = false -> replace_first tag text s = put_first tag text s.
Proof.
  intros D. unfold replace_first, put_first.
  destruct (split_at tag s) as [[b a]|]; [|reflexivity].
  now rewrite expand_no_dollar.
Qed.



(** ** The attribute parser on attributes separated by white space *)

Lemma append_split :
  forall a b u v : string,
    a ++ b = u ++ v ->
    (exists m, a = u ++ m /\ v = m ++ b) \/ (exists m, u = a ++ m /\ b = m ++ v).
Proof.
  induction a as [|x a IH]; intros b u v E.
  - right. exists u. now cbn [append] in *.
  - destruct u as [|y u]; cbn [append] in E.
    + left. exists (String x a). now subst.
    + injection E as <- E. destruct (IH _ _ _ E) as [(m & -> & ->)|(m & -> & ->)].
      * left. now exists m.
      * right. now exists m.
Qed.

Lemma separator_cases (sep : string) :
  separator sep = true -> exists a s, sep = String a s /\ is_space a = true
                                      /\ all_chars is_space s = true.
Proof.
  destruct sep as [|a s]; [discriminate|]. cbn [separator all_chars].
  intros H. apply andb_prop in H as [Ha Hs]. now exists a, s.
Qed.

Lemma space_run (u rest : string) :
  u <> "" -> all_chars is_space u = true -> equals_in_run (u ++ rest) = false.
Proof.
  destruct u as [|a u]; [congruence|]. cbn [all_chars append equals_in_run].
  intros _ H. apply andb_prop in H as [-> _]. reflexivity.
Qed.

Lemma separator_run (sep rest : string) :
  separator sep = true -> equals_in_run (sep ++ rest) = false.
Proof.
  intros H. destruct (separator_cases _ H) as (a & s & -> & Ha & Hs).
  cbn [append equals_in_run]. now rewrite Ha.
Qed.

Lemma before_key_fails (junk sep rest : string) (i : nat) :
  no_equals junk = true -> separator sep = true ->
  forall u1 u2, junk ++ sep = u1 ++ u2 -> u2 <> "" ->
                matcher attribute_pattern (u2 ++ rest) (i + String.length u1)
                        no_captures accept = None.
Proof.
  intros Hj Hs u1 u2 E Hu2. apply attribute_fails.
  destruct (append_split _ _ _ _ E) as [(m & -> & ->)|(m & -> & E')].
  - rewrite no_equals_append in Hj. apply andb_prop in Hj as [_ Hm].
    rewrite append_assoc. apply equals_in_run_no_equals; [exact Hm|].
    now apply separator_run.
  - destruct (separator_cases _ Hs) as (a & s & -> & Ha & Hall).
    apply space_run; [exact Hu2|].
    assert (A : all_chars is_space (m ++ u2) = true)
      by (rewrite <- E'; cbn [all_chars]; now rewrite Ha, Hall).
    rewrite all_chars_append in A. now apply andb_prop in A as [_ A].
Qed.

Lemma exec_item (pre junk sep : string) (a : Attribute) (tail : string) :
  no_equals junk = true -> separator sep = true -> readable a ->
  equals_in_run tail = false ->
  exists m,
    exec (attribute_pattern, 2) (pre ++ junk ++ written (sep, a) ++ tail) (String.length pre)
    = Some m
    /\ endIndex m = String.length (pre ++ junk ++ written (sep, a))
    /\ groups m = [Some (key a); Some (value (read_back a))].
Proof.
  intros Hj Hs (K1 & K2 & V1 & V2) Ht.
  destruct a as [k v]. cbn [key value] in *.
  unfold exec. cbn [fst snd].
  replace (String.length (pre ++ junk ++ written (sep, {| key := k; value := v |}) ++ tail)
           <? String.length pre) with false
    by (symmetry; apply Nat.ltb_ge; rewrite length_append; lia).
  rewrite drop_length_append.
  unfold written, read_back. cbn [fst snd key value].
  replace (junk ++ (sep ++ k ++ "=" ++ dq ++ v ++ dq) ++ tail)
    with ((junk ++ sep) ++ (k ++ "=" ++ dq ++ v ++ dq ++ tail))
    by (now rewrite !append_assoc).
  rewrite search_skip by (now apply before_key_fails).
  destruct (String.length v =? 1) eqn:E.
  - apply Nat.eqb_eq in E. destruct v as [|x [|y v]]; try discriminate E.
    cbn [all_chars] in V2. rewrite andb_true_r in V2.
    destruct (attribute_reads_one k x tail (String.length pre + String.length (junk ++ sep))
                K1 K2 V2 Ht) as (c & M & C1 & C2).
    change (String x "" ++ dq ++ tail) with (String x (dq ++ tail)).
    rewrite search_unfold, M.
    eexists. split; [reflexivity|]. cbn [endIndex groups index].
    split; [lengths|].
    unfold capture_texts. cbn [seq map]. rewrite C1, C2.
    rewrite (slice_at (pre ++ junk ++ sep) k ("=" ++ dq ++ String x (dq ++ tail)));
      [|now rewrite !append_assoc|lengths|lengths].
    rewrite (slice_at (pre ++ junk ++ sep ++ k ++ "=") (dq ++ String x "") (dq ++ tail));
      [reflexivity|now rewrite !append_assoc|lengths|lengths].
  - apply Nat.eqb_neq in E. assert (V1' : 2 <= String.length v) by lia.
    destruct (attribute_reads k v tail (String.length pre + String.length (junk ++ sep))
                K1 K2 V1' V2 Ht) as (e & c & j1 & j2 & j3 & M & C1 & C2 & E1 & E2 & E3 & E4).
    rewrite search_unfold, M.
    eexists. split; [reflexivity|]. cbn [endIndex groups index].
    split; [subst; lengths|].
    unfold capture_texts. cbn [seq map]. rewrite C1, C2. subst.
    rewrite (slice_at (pre ++ junk ++ sep) k ("=" ++ dq ++ v ++ dq ++ tail));
      [|now rewrite !append_assoc|lengths|lengths].
    rewrite (slice_at (pre ++ junk ++ sep ++ k ++ "=" ++ dq) v (dq ++ tail));
      [reflexivity|now rewrite !append_assoc|lengths|lengths].
Qed.

Lemma written_all_run (items : list (string * Attribute)) (closing : string) :
  no_equals closing = true -> Forall item_readable items ->
  equals_in_run (written_all items ++ closing) = false.
Proof.
  intros Hc W. destruct W as [|item rest (S & _) _]; [now apply no_equals_run|].
  cbn [written_all]. unfold written. rewrite !append_assoc. now apply separator_run.
Qed.

Lemma length_written_all (items : list (string * Attribute)) :
  Forall item_readable items -> List.length items <= String.length (written_all items).
Proof.
  induction 1 as [|item rest _ _ IH]; [reflexivity|].
  cbn [written_all List.length]. unfold written. rewrite !length_append.
  cbn [String.length]. lia.
Qed.

Lemma getAttributes_loop_written (closing : string) :
  no_equals closing = true ->
  forall items pre junk fuel,
    no_equals junk = true -> Forall item_readable items ->
    List.length items < fuel ->
    getAttributes_loop fuel (attribute_pattern, 2)
      (pre ++ junk ++ written_all items ++ closing) (String.length pre)
    = Some (attributes_of items).
Proof.
  intros Hc. induction items as [|[sep a] rest IH]; intros pre junk fuel Hj W Hf;
    (destruct fuel as [|fuel]; [simpl in Hf; lia|]);
    cbn [getAttributes_loop written_all attributes_of map snd].
  - unfold exec. cbn [fst snd append].
    replace (String.length (pre ++ junk ++ closing) <? String.length pre) with false
      by (symmetry; apply Nat.ltb_ge; rewrite length_append; lia).
    rewrite drop_length_append, search_fails; [reflexivity|].
    intros u1 u2 E. apply attribute_fails.
    apply no_equals_run.
    assert (H : no_equals (junk ++ closing) = true)
      by (rewrite no_equals_append, Hj, Hc; reflexivity).
    rewrite E, no_equals_append in H. now apply andb_prop in H as [_ H].
  - inversion W as [|? ? (Ws & Wa) Wrest]; subst. cbn [fst snd] in *.
    destruct (exec_item pre junk sep a (written_all rest ++ closing) Hj Ws Wa
                (written_all_run rest closing Hc Wrest)) as (m & E & End & G).
    rewrite append_assoc, E, End, G. cbn [nth].
    replace (pre ++ junk ++ written (sep, a) ++ written_all rest ++ closing)
      with ((pre ++ junk ++ written (sep, a)) ++ "" ++ written_all rest ++ closing)
      by (now rewrite !append_assoc).
    fold (attributes_of rest).
    rewrite IH; auto.
    + rewrite <- (key_read_back a). now destruct (read_back a).
    + cbn [List.length] in Hf. lia.
Qed.

(** A tag whose attributes are written as [key="value"] after white space. *)
Lemma getAttributes_written (name closing : string) (items : list (string * Attribute)) :
  no_equals name = true -> no_equals closing = true -> Forall item_readable items ->
  getAttributes (name ++ written_all items ++ closing) = Ok (attributes_of items) [].
Proof.
  intros Hn Hc W. unfold getAttributes, new_RegExp. rewrite parse_attributes_source.
  unfold ret. rewrite bind_ok_nil.
  rewrite (getAttributes_loop_written closing Hc items "" name); auto.
  rewrite !length_append. pose proof (length_written_all items W). lia.
Qed.

(** ** The formatter for a tag name without pattern characters *)

Lemma parse_literal_text (s : string) :
  literal_text s = true -> parse s = Some (literal s, 0).
Proof.
  intros H. unfold parse.
  replace (3 * String.length s + 3) with (S (3 * String.length s + 2)) by lia.
  cbn [parse_disjunction]. rewrite parse_alternative_literal by (auto; lia).
  reflexivity.
Qed.

Lemma literal_no_dollar (s : string) : literal_text s = true -> has_dollar s = false.
Proof.
  unfold literal_text. induction s as [|a s IH]; [reflexivity|].
  cbn [all_chars has_dollar]. intros H. apply andb_prop in H as [Ha Hs].
  rewrite (IH Hs), orb_false_r. revert Ha. each_character a.
Qed.

Lemma format_literal (options : Options) (content : string) :
  literal_text (tagName options) = true ->
  format options content = Ok (formatted (tagName options) content) [].
Proof.
  intros L. unfold format, new_RegExp, formatted.
  rewrite parse_line_break_source. unfold ret. rewrite bind_ok_nil.
  rewrite replace_line_breaks.
  rewrite !parse_literal_text
    by (try change (literal_text (tagName options ++ ">") = true);
        rewrite ?literal_text_append, ?L; reflexivity).
  rewrite !bind_ok_nil.
  rewrite !replace_global_literal by (try discriminate; apply append_not_empty_r; discriminate).
  rewrite !replace_all_substitute; [reflexivity| |].
  - rewrite !has_dollar_append, (literal_no_dollar _ L). reflexivity.
  - rewrite has_dollar_append, (literal_no_dollar _ L). reflexivity.
Qed.

(** ** Line breaks and concatenation *)

Lemma collapse_prefix (x s : string) :
  one_line x = true -> collapse (x ++ s) = x ++ collapse s.
Proof.
  unfold one_line. induction x as [|a x IH]; [reflexivity|].
  cbn [all_chars]. intros H. apply andb_prop in H as [Ha Hx].
  rewrite line_terminator_cases in Ha. apply negb_true_iff, orb_false_iff in Ha as [Ea El].
  cbn [append collapse]. rewrite Ea, El. now rewrite IH.
Qed.

Lemma collapse_app_upto (y : string) (n : nat) :
  no_line_feed_first y = true ->
  forall x, String.length x <= n -> collapse (x ++ y) = collapse x ++ collapse y.
Proof.
  intros Hy. induction n as [|n IH]; intros [|a x] Hn; try reflexivity;
    [simpl in Hn; lia|].
  cbn [String.length] in Hn. cbn [append collapse].
  destruct (Ascii.eqb CR a).
  - cbn [append]. f_equal. destruct x as [|b x].
    + cbn [append]. destruct y as [|b y]; [reflexivity|].
      cbn [no_line_feed_first] in Hy. apply negb_true_iff in Hy. now rewrite Hy.
    + cbn [append String.length] in *. destruct (Ascii.eqb LF b).
      * apply IH. lia.
      * apply (IH (String b x)). cbn [String.length]. lia.
  - destruct (Ascii.eqb LF a); cbn [append]; f_equal; apply IH; lia.
Qed.

Lemma collapse_app (x y : string) :
  no_line_feed_first y = true -> collapse (x ++ y) = collapse x ++ collapse y.
Proof. intros Hy. apply (collapse_app_upto y (String.length x)); auto. Qed.

Lemma collapse_spaces_upto (n : nat) :
  forall s, String.length s <= n -> all_chars is_space s = true ->
            all_chars is_space (collapse s) = true.
Proof.
  induction n as [|n IH]; intros [|a s] Hn Hs; try reflexivity; [simpl in Hn; lia|].
  cbn [String.length] in Hn. cbn [all_chars] in Hs. apply andb_prop in Hs as [Ha Hs].
  cbn [collapse]. destruct (Ascii.eqb CR a).
  - cbn [all_chars]. change (is_space " ") with true. cbn [andb].
    destruct s as [|b s]; [reflexivity|].
    cbn [String.length all_chars] in *. apply andb_prop in Hs as [Hb Hs'].
    destruct (Ascii.eqb LF b); apply IH; cbn [String.length all_chars]; try lia; auto;
      now rewrite Hb, Hs'.
  - destruct (Ascii.eqb LF a); cbn [all_chars].
    + change (is_space " ") with true. cbn [andb]. apply IH; auto; lia.
    + rewrite Ha. cbn [andb]. apply IH; auto; lia.
Qed.

Lemma collapse_separator (sep : string) :
  separator sep = true -> separator (collapse sep) = true.
Proof.
  intros H. destruct (separator_cases _ H) as (a & s & -> & Ha & Hs).
  assert (A : all_chars is_space (collapse (String a s)) = true).
  { apply (collapse_spaces_upto (String.length (String a s))); [lia|].
    cbn [all_chars]. now rewrite Ha, Hs. }
  revert A. cbn [collapse].
  destruct (Ascii.eqb CR a); [|destruct (Ascii.eqb LF a)]; intros A; exact A.
Qed.

(** ** Tag names, keys and values *)

Lemma all_chars_impl (P Q : ascii -> bool) (s : string) :
  (forall a, P a = true -> Q a = true) -> all_chars P s = true -> all_chars Q s = true.
Proof.
  intros H. induction s as [|a s IH]; [reflexivity|].
  cbn [all_chars]. intros E. apply andb_prop in E as [Ea Es].
  now rewrite (H a Ea), IH.
Qed.

Lemma tag_name_char_facts (a : ascii) :
  tag_name_char a = true ->
  pattern_char a = true /\ is_space a = false /\ is_line_terminator a = false
  /\ Ascii.eqb a "<" = false /\ Ascii.eqb a ">" = false /\ Ascii.eqb a "/" = false
  /\ Ascii.eqb a "=" = false /\ Ascii.eqb a DQ = false /\ Ascii.eqb a LF = false.
Proof. revert a. intros a. each_character a; intros _; repeat split. Qed.

Lemma tag_name_facts (t : string) : tag_name t = true -> TagName t.
Proof.
  intros H. assert (A : all_chars tag_name_char t = true) by (destruct t; [discriminate|exact H]).
  split.
  - destruct t as [|b t']; [discriminate|]. exists b, t'. split; [reflexivity|].
    cbn [all_chars] in A. now apply andb_prop in A as [A _].
  - revert A. apply all_chars_impl. intros a Ha. now apply tag_name_char_facts in Ha.
  - revert A. apply all_chars_impl. intros a Ha.
    apply tag_name_char_facts in Ha as (_ & _ & _ & _ & _ & _ & E & _). now rewrite E.
  - revert A. apply all_chars_impl. intros a Ha.
    apply tag_name_char_facts in Ha as (_ & _ & E & _). now rewrite E.
  - revert A. apply all_chars_impl. intros a Ha.
    apply tag_name_char_facts in Ha as (_ & _ & _ & E & _). now rewrite E.
  - revert A. apply all_chars_impl. intros a Ha.
    apply tag_name_char_facts in Ha as (_ & _ & _ & _ & E & _). now rewrite E.
  - revert A. apply all_chars_impl. intros a Ha.
    apply tag_name_char_facts in Ha as (_ & _ & _ & _ & _ & E & _). now rewrite E.
  - revert A. apply all_chars_impl. intros a Ha.
    apply tag_name_char_facts in Ha as (_ & _ & _ & _ & _ & _ & _ & E & _). now rewrite E.
  - revert A. apply all_chars_impl. intros a Ha.
    apply tag_name_char_facts in Ha as (_ & _ & _ & _ & _ & _ & _ & _ & E). now rewrite E.
Qed.

Lemma space_facts (a : ascii) :
  is_space a = true -> Ascii.eqb a "<" = false /\ Ascii.eqb a ">" = false.
Proof. each_character a; intros _; split; reflexivity. Qed.

Lemma key_char_line (a : ascii) : key_char a = true -> is_line_terminator a = false.
Proof. each_character a. Qed.

Lemma key_char_first (k : string) :
  k <> "" -> all_chars key_char k = true -> no_line_feed_first k = true.
Proof.
  destruct k as [|a k]; [congruence|]. intros _ H. cbn [all_chars] in H.
  apply andb_prop in H as [Ha _]. cbn [no_line_feed_first]. revert Ha. each_character a.
Qed.

(** ** Written attributes *)

Lemma attributes_of_collapse (items : list (string * Attribute)) :
  attributes_of (collapse_items items) = attributes_of items.
Proof. unfold attributes_of, collapse_items. rewrite map_map. reflexivity. Qed.

Lemma collapse_items_readable (items : list (string * Attribute)) :
  Forall item_ok items -> Forall item_readable (collapse_items items).
Proof.
  induction 1 as [|item rest (S & R & _) _ IH]; [constructor|].
  constructor; [|exact IH]. split; [now apply collapse_separator|exact R].
Qed.

Lemma key_one_line (k : string) : all_chars key_char k = true -> one_line k = true.
Proof.
  unfold one_line. apply all_chars_impl. intros c Hc. now rewrite (key_char_line c Hc).
Qed.

Lemma value_one_line (v : string) : all_chars value_char v = true -> one_line v = true.
Proof.
  unfold one_line. apply all_chars_impl. intros c Hc.
  apply value_char_facts in Hc as (_ & _ & _ & _ & E). now rewrite E.
Qed.

Lemma collapse_written (R : string) (items : list (string * Attribute)) :
  Forall item_ok items ->
  collapse (written_all items ++ R) = written_all (collapse_items items) ++ collapse R.
Proof.
  induction 1 as [|[sep a] rest (S & (K1 & K2 & V1 & V2) & _) _ IH]; [reflexivity|].
  cbn [fst snd] in *. cbn [written_all collapse_items map]. unfold written. cbn [fst snd].
  rewrite !append_assoc.
  rewrite collapse_app.
  - f_equal.
    replace (key a ++ "=" ++ dq ++ value a ++ dq ++ written_all rest ++ R)
      with ((key a ++ "=" ++ dq ++ value a ++ dq) ++ written_all rest ++ R)
      by (now rewrite !append_assoc).
    rewrite collapse_prefix.
    + rewrite IH. fold (collapse_items rest). now rewrite !append_assoc.
    + rewrite !one_line_append, (key_one_line _ K2), (value_one_line _ V2). reflexivity.
  - destruct (key a) as [|c k] eqn:Ek; [congruence|].
    cbn [append no_line_feed_first]. cbn [all_chars] in K2. apply andb_prop in K2 as [Hc _].
    revert Hc. clear. each_character c.
Qed.

Lemma lacks_spaces (c : ascii) (s : string) :
  is_space c = false -> all_chars is_space s = true -> lacks c s = true.
Proof.
  intros Hc. unfold lacks. apply all_chars_impl. intros a Ha.
  destruct (Ascii.eqb_spec a c) as [->|]; [congruence|reflexivity].
Qed.

Lemma separator_spaces (sep : string) : separator sep = true -> all_chars is_space sep = true.
Proof. destruct sep; [discriminate|auto]. Qed.

Lemma lacks_value_gt (v : string) : all_chars value_char v = true -> lacks ">" v = true.
Proof.
  unfold lacks. apply all_chars_impl. intros a Ha.
  apply value_char_facts in Ha as (_ & _ & E & _). now rewrite E.
Qed.

Lemma written_facts (items : list (string * Attribute)) :
  Forall item_ok items ->
  one_line (written_all (collapse_items items)) = true
  /\ lacks "<" (written_all (collapse_items items)) = true
  /\ lacks ">" (written_all (collapse_items items)) = true.
Proof.
  induction 1 as [|[sep a] rest (S & (K1 & K2 & V1 & V2) & L1 & L2 & L3) _ (I1 & I2 & I3)];
    [repeat split|].
  cbn [fst snd] in *. cbn [collapse_items map written_all]. fold (collapse_items rest).
  unfold written. cbn [fst snd].
  pose proof (separator_spaces _ (collapse_separator _ S)) as Sp.
  rewrite !one_line_append, !lacks_append.
  rewrite collapse_one_line, (key_one_line _ K2), (value_one_line _ V2), I1.
  rewrite (lacks_spaces "<" _ eq_refl Sp), (lacks_spaces ">" _ eq_refl Sp).
  rewrite L1, L2, L3, (lacks_value_gt _ V2), I2, I3. repeat split.
Qed.

Lemma written_last (items : list (string * Attribute)) :
  items <> [] -> exists W0, written_all items = W0 ++ dq.
Proof.
  induction items as [|[sep a] rest IH]; [congruence|]. intros _.
  cbn [written_all]. unfold written. cbn [fst snd].
  destruct rest as [|item rest].
  - exists (sep ++ key a ++ "=" ++ dq ++ value a). cbn [written_all].
    now rewrite append_nil_r, !append_assoc.
  - destruct IH as (W0 & E); [discriminate|]. rewrite E.
    exists ((sep ++ key a ++ "=" ++ dq ++ value a ++ dq) ++ W0).
    now rewrite !append_assoc.
Qed.

Lemma tagless_facts (t s : string) :
  tagless t s = true -> includes ("<" ++ t) s = false /\ includes (t ++ ">") s = false.
Proof.
  unfold tagless. intros H. apply andb_prop in H as [H1 H2].
  now apply negb_true_iff in H1, H2.
Qed.

(** ** The formatter on a document with one tag *)

Section OneTag.

Variables t pre post W : string.
Hypothesis name : TagName t.
Hypothesis before : tagless t pre = true.
Hypothesis after : tagless t post = true.
Hypothesis W_lt : lacks "<" W = true.
Hypothesis W_gt : lacks ">" W = true.

Lemma opening_absent_before (rest : string) : absent_in ("<" ++ t) pre (("<" ++ t) ++ rest) = true.
Proof.
  apply (absent_char "<" "<" t (t ++ rest)); [apply name|].
  now apply tagless_facts in before as [H _].
Qed.

Lemma opening_absent_break (rest : string) : absent_in ("<" ++ t) (pre ++ lf) (("<" ++ t) ++ rest) = true.
Proof.
  rewrite absent_in_app. apply andb_true_intro. split.
  - apply (absent_char "<" LF t); [apply name|].
    now apply tagless_facts in before as [H _].
  - now apply absent_first.
Qed.

Lemma opening_not_after : includes ("<" ++ t) post = false.
Proof. now apply tagless_facts in after as [H _]. Qed.

Lemma opening_not_in_self : includes ("<" ++ t) (W ++ "/>" ++ post) = false.
Proof.
  apply includes_skip; [now apply absent_first|].
  apply includes_skip; [now apply absent_first|].
  apply opening_not_after.
Qed.

Lemma closing_pattern :
  exists b t', t ++ ">" = String b (t' ++ ">")
               /\ lacks LF (t' ++ ">") = true /\ lacks "/" (t' ++ ">") = true
               /\ lacks DQ (t' ++ ">") = true /\ lacks "<" (t' ++ ">") = true
               /\ tag_name_char b = true.
Proof.
  destruct (tn_first t name) as (b & t' & E & Hb).
  pose proof (tn_lf t name) as L1. pose proof (tn_slash t name) as L2.
  pose proof (tn_dq t name) as L3. pose proof (tn_lt t name) as L4.
  exists b, t'. rewrite E in *. split; [reflexivity|].
  unfold lacks in *. cbn [all_chars] in L1, L2, L3, L4.
  apply andb_prop in L1 as [_ L1]. apply andb_prop in L2 as [_ L2].
  apply andb_prop in L3 as [_ L3]. apply andb_prop in L4 as [_ L4].
  rewrite !all_chars_append, L1, L2, L3, L4. repeat split; auto.
Qed.

Lemma closing_lacks (x : string) : lacks ">" x = true -> includes (t ++ ">") x = false.
Proof.
  apply (includes_lacks ">"). unfold lacks. rewrite all_chars_append.
  cbn. now rewrite andb_false_r.
Qed.

Lemma closing_not_in_self :
  includes (t ++ ">") (pre ++ lf ++ "<" ++ t ++ W ++ "/>" ++ post) = false.
Proof.
  destruct closing_pattern as (b & t' & Q & Lf & Ls & _ & _ & Hb).
  apply tag_name_char_facts in Hb as (_ & _ & _ & B1 & B2 & B3 & _ & B4 & B5).
  apply (includes_skip _ pre).
  { rewrite Q. apply (absent_char b LF); [exact Lf|]. rewrite <- Q.
    now apply tagless_facts in before as [_ H]. }
  apply (includes_skip _ (lf ++ "<") (t ++ W ++ "/>" ++ post)).
  { rewrite Q. apply absent_first. unfold lacks, lf. cbn [append all_chars].
    now rewrite (Ascii.eqb_sym LF b), (Ascii.eqb_sym "<" b), B5, B1. }
  rewrite <- (append_assoc t W).
  apply (includes_skip _ (t ++ W)).
  { rewrite Q. apply (absent_char b "/"); [exact Ls|]. rewrite <- Q.
    apply closing_lacks. now rewrite lacks_append, (tn_gt t name), W_gt. }
  apply (includes_skip _ "/>").
  { rewrite Q. apply absent_first. unfold lacks. cbn [all_chars].
    now rewrite (Ascii.eqb_sym "/" b), (Ascii.eqb_sym ">" b), B3, B2. }
  now apply tagless_facts in after as [_ H].
Qed.

Lemma formatted_self :
  break_after_closing t (break_before_opening t (pre ++ "<" ++ t ++ W ++ "/>" ++ post))
  = pre ++ lf ++ "<" ++ t ++ W ++ "/>" ++ post.
Proof.
  unfold break_before_opening.
  change (pre ++ "<" ++ t ++ W ++ "/>" ++ post) with (pre ++ ("<" ++ t) ++ W ++ "/>" ++ post).
  rewrite substitute_all_once by (apply opening_absent_before || apply opening_not_in_self).
  unfold break_after_closing.
  rewrite substitute_all_absent; [now rewrite !append_assoc|].
  rewrite !append_assoc. apply closing_not_in_self.
Qed.

(** The closed form: the body, and the last character of what is written
    between the tag name and [>] (a double quote or white space). *)
Variables body W0 : string.
Variable d : ascii.
Hypothesis W_last : W = W0 ++ String d "".
Hypothesis d_name : lacks d t = true.
Hypothesis d_gt : Ascii.eqb d ">" = false.
Hypothesis inside : tagless t body = true.

Lemma opening_not_at_slash (rest : string) :
  absent_in ("<" ++ t) "<" ("/" ++ rest) = true.
Proof.
  destruct (tn_first t name) as (b & t' & E & Hb).
  apply tag_name_char_facts in Hb as (_ & _ & _ & _ & _ & B3 & _).
  rewrite E. cbn [absent_in append starts]. now rewrite B3.
Qed.

Lemma opening_not_in_closed :
  includes ("<" ++ t) (W ++ ">" ++ body ++ "</" ++ t ++ ">" ++ post) = false.
Proof.
  apply includes_skip; [now apply absent_first|].
  apply (includes_skip _ ">"); [now apply absent_first|].
  apply (includes_skip _ body).
  { apply (absent_char "<" "<" t); [apply name|].
    now apply tagless_facts in inside as [H _]. }
  apply (includes_skip _ "<" ("/" ++ t ++ ">" ++ post)); [apply opening_not_at_slash|].
  replace ("/" ++ t ++ ">" ++ post) with (("/" ++ t ++ ">") ++ post)
    by (now rewrite !append_assoc).
  apply includes_skip; [|apply opening_not_after].
  apply absent_first. change (lacks "<" (t ++ ">") = true).
  now rewrite lacks_append, (tn_lt t name).
Qed.

Lemma closing_absent_before_end :
  absent_in (t ++ ">")
            (pre ++ (lf ++ "<") ++ (t ++ W0) ++ String d ">" ++ body ++ "</")
            ((t ++ ">") ++ post) = true.
Proof.
  destruct closing_pattern as (b & t' & Q & Lf & Ls & _ & Ll & Hb).
  apply tag_name_char_facts in Hb as (_ & _ & _ & B1 & B2 & B3 & _ & B4 & B5).
  assert (G : lacks ">" W0 = true).
  { pose proof W_gt as G. rewrite W_last, lacks_append in G. now apply andb_prop in G as [G _]. }
  assert (D : Ascii.eqb b d = false /\ lacks d (t' ++ ">") = true).
  { destruct (tn_first t name) as (b0 & t0 & E & _). pose proof d_name as N.
    rewrite E in Q, N. cbn [append] in Q. injection Q as Qb Qt. subst b0.
    rewrite <- Qt. unfold lacks in *. cbn [all_chars] in N.
    apply andb_prop in N as [N1 N2]. rewrite all_chars_append, N2. cbn [all_chars].
    rewrite (Ascii.eqb_sym ">" d), d_gt. split; [|reflexivity].
    now destruct (Ascii.eqb b d). }
  destruct D as [Db Dt].
  rewrite (absent_in_app _ pre), (absent_in_app _ (lf ++ "<")), (absent_in_app _ (t ++ W0)),
    (absent_in_app _ (String d ">")), (absent_in_app _ body).
  repeat (apply andb_true_intro; split).
  - rewrite Q at 1. apply (absent_char b LF); [exact Lf|]. rewrite <- Q.
    now apply tagless_facts in before as [_ H].
  - rewrite Q at 1. apply absent_first. unfold lacks, lf. cbn [append all_chars].
    now rewrite (Ascii.eqb_sym LF b), (Ascii.eqb_sym "<" b), B5, B1.
  - rewrite Q at 1. apply (absent_char b d); [exact Dt|]. rewrite <- Q.
    apply closing_lacks. now rewrite lacks_append, (tn_gt t name), G.
  - rewrite Q at 1. apply absent_first. unfold lacks. cbn [all_chars].
    now rewrite (Ascii.eqb_sym d b), (Ascii.eqb_sym ">" b), Db, B2.
  - rewrite Q at 1. apply (absent_char b "<"); [exact Ll|]. rewrite <- Q.
    now apply tagless_facts in inside as [_ H].
  - rewrite Q at 1. apply absent_first. unfold lacks. cbn [all_chars].
    now rewrite (Ascii.eqb_sym "<" b), (Ascii.eqb_sym "/" b), B1, B3.
Qed.

Lemma formatted_closed :
  break_after_closing t
    (break_before_opening t (pre ++ "<" ++ t ++ W ++ ">" ++ body ++ "</" ++ t ++ ">" ++ post))
  = pre ++ lf ++ "<" ++ t ++ W ++ ">" ++ body ++ "</" ++ t ++ ">" ++ lf ++ post.
Proof.
  unfold break_before_opening.
  change (pre ++ "<" ++ t ++ W ++ ">" ++ body ++ "</" ++ t ++ ">" ++ post)
    with (pre ++ ("<" ++ t) ++ W ++ ">" ++ body ++ "</" ++ t ++ ">" ++ post).
  rewrite substitute_all_once by (apply opening_absent_before || apply opening_not_in_closed).
  unfold break_after_closing.
  replace (pre ++ (lf ++ "<" ++ t) ++ W ++ ">" ++ body ++ "</" ++ t ++ ">" ++ post)
    with ((pre ++ (lf ++ "<") ++ (t ++ W0) ++ String d ">" ++ body ++ "</")
            ++ (t ++ ">") ++ post)
    by (rewrite W_last, !append_assoc; reflexivity).
  rewrite substitute_all_once.
  - rewrite W_last, !append_assoc. reflexivity.
  - apply closing_absent_before_end.
  - now apply tagless_facts in after as [_ H].
Qed.

End OneTag.

(** ** Scanning a line *)

Lemma includes_intro (p w : string) : forall u, includes p (u ++ p ++ w) = true.
Proof.
  unfold includes. induction u as [|a u IH].
  - cbn [append]. now rewrite split_at_here.
  - cbn [append]. rewrite split_at_unfold.
    destruct (starts p (String a (u ++ p ++ w))); [reflexivity|].
    destruct (split_at p (u ++ p ++ w)) as [[b t]|]; [reflexivity|discriminate].
Qed.

Lemma includes_suffix (p v : string) :
  includes p v = true -> forall u, includes p (u ++ v) = true.
Proof.
  unfold includes. intros H. destruct (split_at p v) as [[b a]|] eqn:E; [|discriminate].
  apply split_at_split in E. subst v. intros u.
  rewrite <- append_assoc. apply includes_intro.
Qed.

Lemma find_nowhere (m : string -> option nat) :
  forall s, (forall u v, s = u ++ v -> m v = None) -> find m s = None.
Proof.
  induction s as [|a s IH]; intros H; rewrite find_unfold.
  - now rewrite (H "" "" eq_refl).
  - rewrite (H "" (String a s) eq_refl). rewrite IH; [reflexivity|].
    intros u v ->. apply (H (String a u) v). reflexivity.
Qed.

Lemma reads_closed_includes (t s : string) (n : nat) :
  reads_closed t s = Some n -> includes (t ++ ">") s = true.
Proof.
  intros H. pose proof H as B. apply reads_closed_bounded in B.
  destruct (reads_closed_shape _ _ _ H) as (body & E & _).
  rewrite <- (take_drop n s), E.
  replace (("<" ++ t ++ body ++ "/" ++ t ++ ">") ++ drop n s)
    with (("<" ++ t ++ body ++ "/") ++ (t ++ ">") ++ drop n s)
    by (rewrite !append_assoc; reflexivity).
  apply includes_intro.
Qed.

Lemma no_closed_tag (t s : string) :
  includes (t ++ ">") s = false -> find (reads_closed t) s = None.
Proof.
  intros I. apply find_nowhere. intros u v ->.
  destruct (reads_closed t v) as [n|] eqn:E; [|reflexivity].
  apply reads_closed_includes in E. rewrite (includes_suffix _ _ E u) in I. discriminate.
Qed.

Lemma no_tag_after (m : string -> option nat) (t s : string) :
  (forall s, starts ("<" ++ t) s = None -> m s = None) ->
  includes ("<" ++ t) s = false -> find m s = None.
Proof.
  intros Hm I. apply (find_none m ("<" ++ t) Hm). unfold includes in I.
  now destruct (split_at ("<" ++ t) s).
Qed.

Lemma one_line_lacks (c : ascii) (s : string) :
  is_line_terminator c = true -> one_line s = true -> lacks c s = true.
Proof.
  intros Hc. unfold one_line, lacks. apply all_chars_impl. intros a Ha.
  destruct (Ascii.eqb_spec a c) as [->|]; [|reflexivity].
  rewrite Hc in Ha. discriminate.
Qed.

Section LineEnd.

Variable q : string.
Variable c : ascii.
Variable rest : string.
Hypothesis q_line : one_line q = true.
Hypothesis q_text : q <> "".
Hypothesis c_end : is_line_terminator c = true.

Lemma starts_at_line_end : starts q (String c rest) = None.
Proof.
  destruct q as [|a q']; [congruence|]. cbn [starts].
  unfold one_line in q_line. cbn [all_chars] in q_line. apply andb_prop in q_line as [Ha _].
  destruct (Ascii.eqb_spec a c) as [->|]; [|reflexivity].
  rewrite c_end in Ha. discriminate.
Qed.

Lemma literally_before_line_end (s1 : string) :
  String.length s1 < String.length q -> literally q (s1 ++ String c rest) = None.
Proof.
  intros L. unfold literally.
  destruct (starts q (s1 ++ String c rest)) as [r|] eqn:E; [|reflexivity].
  destruct (starts_fit c rest q s1 r (one_line_lacks c q c_end q_line) E) as (r' & E').
  apply starts_length in E'. rewrite E', length_append in L. lia.
Qed.

Lemma greedy_scan_short_line :
  forall s1, String.length s1 < String.length q ->
             greedy_scan q (s1 ++ String c rest) = None.
Proof.
  induction s1 as [|e s1 IH]; intros L.
  - cbn [append greedy_scan]. rewrite c_end. unfold literally.
    now rewrite starts_at_line_end.
  - pose proof (literally_before_line_end (String e s1) L) as N.
    cbn [append] in N |- *. cbn [greedy_scan].
    destruct (is_line_terminator e); [exact N|].
    rewrite IH by (cbn [String.length] in L; lia). exact N.
Qed.

Lemma greedy_scan_line_end :
  forall x, one_line x = true ->
            greedy_scan q (x ++ q ++ String c rest)
            = Some (String.length x + String.length q).
Proof.
  induction x as [|a x IH]; intros O.
  - cbn [append String.length Nat.add].
    assert (Eq : exists a q', q = String a q') by (destruct q as [|a q']; [congruence|eauto]).
    destruct Eq as (a & q' & Eq).
    assert (Ha : is_line_terminator a = false).
    { pose proof q_line as Oq. rewrite Eq in Oq. unfold one_line in Oq. cbn [all_chars] in Oq.
      apply andb_prop in Oq as [Ha _]. now apply negb_true_iff in Ha. }
    assert (G : greedy_scan q (q' ++ String c rest) = None).
    { apply greedy_scan_short_line. rewrite Eq. cbn [String.length]. lia. }
    replace (q ++ String c rest) with (String a (q' ++ String c rest))
      by (rewrite Eq; reflexivity).
    cbn [greedy_scan]. rewrite Ha, G.
    replace (String a (q' ++ String c rest)) with (q ++ String c rest)
      by (rewrite Eq; reflexivity).
    apply literally_self.
  - unfold one_line in O. cbn [all_chars] in O. apply andb_prop in O as [Ha Ox].
    cbn [append greedy_scan String.length]. apply negb_true_iff in Ha. rewrite Ha.
    now rewrite (IH Ox).
Qed.

Lemma lazy_scan_none :
  forall line, one_line line = true -> absent_in q line (String c rest) = true ->
               lazy_scan q (line ++ String c rest) = None.
Proof.
  induction line as [|a line IH]; intros O A.
  - cbn [append lazy_scan]. unfold literally. now rewrite starts_at_line_end, c_end.
  - unfold one_line in O. cbn [all_chars] in O. apply andb_prop in O as [Ha Ol].
    cbn [absent_in] in A. cbn [append] in A |- *. cbn [lazy_scan]. unfold literally.
    destruct (starts q (String a (line ++ String c rest))); [discriminate|].
    apply negb_true_iff in Ha. rewrite Ha, (IH Ol A). reflexivity.
Qed.

End LineEnd.

(** ** The scanner on a formatted document with one tag *)

Lemma drop_append (p rest : string) (n : nat) :
  drop (String.length p + n) (p ++ rest) = drop n rest.
Proof. induction p as [|a p IH]; simpl; [reflexivity|exact IH]. Qed.

Lemma tagless_break (t post : string) :
  TagName t -> tagless t post = true -> tagless t (lf ++ post) = true.
Proof.
  intros name H. apply tagless_facts in H as [H1 H2].
  destruct (tn_first t name) as (b & t' & E & Hb).
  apply tag_name_char_facts in Hb as (_ & _ & _ & _ & _ & _ & _ & _ & B5).
  unfold tagless. apply andb_true_intro. split; apply negb_true_iff.
  - apply includes_skip; [now apply absent_first|exact H1].
  - apply includes_skip; [|exact H2].
    rewrite E. apply absent_first. unfold lacks, lf. cbn [all_chars].
    now rewrite (Ascii.eqb_sym LF b), B5.
Qed.

Lemma find_cons (m : string -> option nat) (a : ascii) (s : string) :
  find m (String a s)
  = match m (String a s) with
    | Some n => Some (EmptyString, take n (String a s), drop n (String a s))
    | None =>
        match find m s with
        | Some (u, w, t) => Some (String a u, w, t)
        | None => None
        end
    end.
Proof. reflexivity. Qed.

Section Scanner.

Variable options : Options.
Variables pre post W : string.
Hypothesis name : TagName (tagName options).
Hypothesis before : tagless (tagName options) pre = true.
Hypothesis after : tagless (tagName options) post = true.
Hypothesis W_line : one_line W = true.
Hypothesis W_lt : lacks "<" W = true.
Hypothesis W_gt : lacks ">" W = true.

Lemma first_slash_gt : split_at "/>" (W ++ "/>") = Some (W, "").
Proof.
  replace (W ++ "/>") with (W ++ "/>" ++ "") by reflexivity.
  apply split_at_only.
  apply (absent_char "/" "/" ">"); [reflexivity|].
  now apply (includes_lacks ">").
Qed.

Lemma reads_self_tag :
  reads_self_closed (tagName options) (("<" ++ tagName options) ++ W ++ "/>" ++ post)
  = Some (String.length ("<" ++ tagName options) + (String.length W + 2)).
Proof.
  unfold reads_self_closed. rewrite starts_append.
  now rewrite (lazy_scan_first "/>" post W first_slash_gt W_line).
Qed.

Lemma find_self_tag :
  find (reads_self_closed (tagName options))
       (pre ++ lf ++ "<" ++ tagName options ++ W ++ "/>" ++ post)
  = Some (pre ++ lf, "<" ++ tagName options ++ W ++ "/>", post).
Proof.
  replace (pre ++ lf ++ "<" ++ tagName options ++ W ++ "/>" ++ post)
    with ((pre ++ lf) ++ ("<" ++ tagName options) ++ W ++ "/>" ++ post)
    by (now rewrite !append_assoc).
  rewrite (find_skip _ ("<" ++ tagName options))
    by (apply reads_self_closed_starts || now apply opening_absent_break).
  rewrite find_unfold, reads_self_tag.
  rewrite take_append, drop_append.
  replace (String.length W + 2) with (String.length (W ++ "/>"))
    by (rewrite length_append; reflexivity).
  rewrite <- (append_assoc W "/>" post), take_length_append, drop_length_append.
  now rewrite !append_nil_r.
Qed.

Lemma getTags_self :
  getTags options (pre ++ lf ++ "<" ++ tagName options ++ W ++ "/>" ++ post)
  = Ok ["<" ++ tagName options ++ W ++ "/>"] [].
Proof.
  rewrite getTags_occurrences by apply name.
  rewrite occurrences_none
    by (apply no_closed_tag; now apply closing_not_in_self).
  set (doc := pre ++ lf ++ "<" ++ tagName options ++ W ++ "/>" ++ post).
  replace (String.length doc + 2) with (S (S (String.length doc))) by lia.
  unfold doc. cbn [occurrences app]. rewrite find_self_tag.
  rewrite (no_tag_after _ (tagName options) post);
    [reflexivity|apply reads_self_closed_starts|].
  now apply tagless_facts in after as [H _].
Qed.

(** The closed form. *)
Variables body W0 : string.
Variable d : ascii.
Hypothesis W_last : W = W0 ++ String d "".
Hypothesis d_gt : Ascii.eqb d ">" = false.
Hypothesis d_slash : Ascii.eqb d "/" = false.
Hypothesis inside : tagless (tagName options) body = true.
Hypothesis body_line : one_line body = true.
Hypothesis body_no_end : includes "/>" body = false.

Lemma closed_line :
  one_line (W ++ ">" ++ body ++ "<") = true.
Proof. now rewrite !one_line_append, W_line, body_line. Qed.

Lemma reads_closed_tag :
  reads_closed (tagName options)
    (("<" ++ tagName options) ++ (W ++ ">" ++ body ++ "<") ++ ("/" ++ tagName options ++ ">")
       ++ String LF post)
  = Some (String.length ("<" ++ tagName options)
          + (String.length (W ++ ">" ++ body ++ "<")
             + String.length ("/" ++ tagName options ++ ">"))).
Proof.
  unfold reads_closed. rewrite starts_append.
  rewrite greedy_scan_line_end; [reflexivity| |discriminate|reflexivity|apply closed_line].
  change (one_line (tagName options ++ ">") = true).
  now rewrite one_line_append, (tn_one_line _ name).
Qed.

Lemma find_closed_tag :
  find (reads_closed (tagName options))
       (pre ++ lf ++ "<" ++ tagName options ++ W ++ ">" ++ body ++ "</" ++ tagName options
            ++ ">" ++ lf ++ post)
  = Some (pre ++ lf,
          "<" ++ tagName options ++ W ++ ">" ++ body ++ "</" ++ tagName options ++ ">",
          lf ++ post).
Proof.
  replace (pre ++ lf ++ "<" ++ tagName options ++ W ++ ">" ++ body ++ "</" ++ tagName options
               ++ ">" ++ lf ++ post)
    with ((pre ++ lf) ++ ("<" ++ tagName options) ++ (W ++ ">" ++ body ++ "<")
            ++ ("/" ++ tagName options ++ ">") ++ String LF post)
    by (rewrite !append_assoc; reflexivity).
  rewrite (find_skip _ ("<" ++ tagName options))
    by (apply reads_closed_starts || now apply opening_absent_break).
  rewrite find_unfold, reads_closed_tag.
  rewrite take_append, drop_append.
  replace (String.length (W ++ ">" ++ body ++ "<")
           + String.length ("/" ++ tagName options ++ ">"))
    with (String.length ((W ++ ">" ++ body ++ "<") ++ "/" ++ tagName options ++ ">"))
    by (now rewrite length_append).
  rewrite <- (append_assoc (W ++ ">" ++ body ++ "<") ("/" ++ tagName options ++ ">")).
  rewrite take_length_append, drop_length_append.
  rewrite !append_nil_r, !append_assoc. reflexivity.
Qed.

Lemma no_end_in_closed :
  absent_in "/>" (W ++ ">" ++ body ++ "</" ++ tagName options ++ ">") (String LF post) = true.
Proof.
  destruct (tn_first _ name) as (b & t' & E & Hb).
  apply tag_name_char_facts in Hb as (_ & _ & _ & _ & B2 & _).
  assert (G : lacks ">" W0 = true).
  { pose proof W_gt as G. rewrite W_last, lacks_append in G. now apply andb_prop in G as [G _]. }
  replace (W ++ ">" ++ body ++ "</" ++ tagName options ++ ">")
    with (W0 ++ String d ">" ++ body ++ "<" ++ "/" ++ (tagName options ++ ">"))
    by (rewrite W_last, !append_assoc; reflexivity).
  rewrite (absent_in_app _ W0), (absent_in_app _ (String d ">")), (absent_in_app _ body),
    (absent_in_app _ "<"), (absent_in_app _ "/").
  repeat (apply andb_true_intro; split).
  - apply (absent_char "/" d ">");
      [unfold lacks; cbn [all_chars]; now rewrite (Ascii.eqb_sym ">" d), d_gt|].
    now apply (includes_lacks ">").
  - apply absent_first. unfold lacks. cbn [all_chars]. now rewrite d_slash.
  - now apply (absent_char "/" "<" ">").
  - now apply absent_first.
  - rewrite E. cbn [absent_in append starts]. now rewrite (Ascii.eqb_sym ">" b), B2.
  - apply (absent_char "/" LF ">"); [reflexivity|]. apply (includes_lacks "/"); [reflexivity|].
    now rewrite lacks_append, (tn_slash _ name).
Qed.

Lemma no_self_tag_in_closed :
  find (reads_self_closed (tagName options))
       (pre ++ lf ++ "<" ++ tagName options ++ W ++ ">" ++ body ++ "</" ++ tagName options
            ++ ">" ++ lf ++ post)
  = None.
Proof.
  replace (pre ++ lf ++ "<" ++ tagName options ++ W ++ ">" ++ body ++ "</" ++ tagName options
               ++ ">" ++ lf ++ post)
    with ((pre ++ lf) ++ ("<" ++ tagName options)
            ++ (W ++ ">" ++ body ++ "</" ++ tagName options ++ ">") ++ String LF post)
    by (rewrite !append_assoc; reflexivity).
  rewrite (find_skip _ ("<" ++ tagName options))
    by (apply reads_self_closed_starts || now apply opening_absent_break).
  change (("<" ++ tagName options)
            ++ (W ++ ">" ++ body ++ "</" ++ tagName options ++ ">") ++ String LF post)
    with (String "<" (tagName options
            ++ (W ++ ">" ++ body ++ "</" ++ tagName options ++ ">") ++ String LF post)).
  rewrite find_cons.
  change (String "<" (tagName options
            ++ (W ++ ">" ++ body ++ "</" ++ tagName options ++ ">") ++ String LF post))
    with (("<" ++ tagName options)
            ++ (W ++ ">" ++ body ++ "</" ++ tagName options ++ ">") ++ String LF post).
  assert (R : reads_self_closed (tagName options)
                (("<" ++ tagName options)
                   ++ (W ++ ">" ++ body ++ "</" ++ tagName options ++ ">") ++ String LF post)
              = None).
  { unfold reads_self_closed. rewrite starts_append.
    rewrite lazy_scan_none; [reflexivity|reflexivity|discriminate|reflexivity| |].
    - rewrite !one_line_append, W_line, body_line, (tn_one_line _ name). reflexivity.
    - apply no_end_in_closed. }
  rewrite R.
  rewrite (no_tag_after _ (tagName options)); [reflexivity|apply reads_self_closed_starts|].
  apply includes_skip; [apply absent_first; apply name|].
  replace ((W ++ ">" ++ body ++ "</" ++ tagName options ++ ">") ++ String LF post)
    with (W ++ ">" ++ body ++ "</" ++ tagName options ++ ">" ++ lf ++ post)
    by (rewrite !append_assoc; reflexivity).
  apply (opening_not_in_closed (tagName options) (lf ++ post) W name); auto.
  now apply tagless_break.
Qed.

Lemma getTags_closed :
  getTags options (pre ++ lf ++ "<" ++ tagName options ++ W ++ ">" ++ body ++ "</"
                       ++ tagName options ++ ">" ++ lf ++ post)
  = Ok ["<" ++ tagName options ++ W ++ ">" ++ body ++ "</" ++ tagName options ++ ">"] [].
Proof.
  rewrite getTags_occurrences by apply name.
  rewrite (occurrences_none _ (reads_self_closed _)) by apply no_self_tag_in_closed.
  set (doc := pre ++ lf ++ "<" ++ tagName options ++ W ++ ">" ++ body ++ "</"
                  ++ tagName options ++ ">" ++ lf ++ post).
  replace (String.length doc + 2) with (S (S (String.length doc))) by lia.
  unfold doc. cbn [occurrences app]. rewrite find_closed_tag.
  rewrite (no_tag_after _ (tagName options) (lf ++ post));
    [reflexivity|apply reads_closed_starts|].
  pose proof (tagless_break _ _ name after) as H. now apply tagless_facts in H as [H _].
Qed.

End Scanner.

(** ** A document with one tag, end to end *)

Lemma starts_longer (p y : string) :
  forall s r, starts (p ++ y) s = Some r -> exists r', starts p s = Some r'.
Proof.
  induction p as [|a p IH]; intros s r H; [now exists s|].
  destruct s as [|b s]; [discriminate|]. cbn [append starts] in *.
  destruct (Ascii.eqb a b); [|discriminate]. now apply (IH s r).
Qed.

Lemma absent_in_longer (p y rest : string) :
  forall x, absent_in p x rest = true -> absent_in (p ++ y) x rest = true.
Proof.
  induction x as [|a x IH]; intros A; [reflexivity|].
  cbn [absent_in] in *.
  destruct (starts p (String a x ++ rest)) eqn:E; [discriminate|].
  destruct (starts (p ++ y) (String a x ++ rest)) as [r|] eqn:E'; [|now apply IH].
  destruct (starts_longer _ _ _ _ E') as (r' & E''). congruence.
Qed.

Lemma last_character (s : string) :
  s <> "" -> exists s0 d, s = s0 ++ String d "".
Proof.
  induction s as [|a s IH]; [congruence|]. intros _.
  destruct s as [|b s].
  - now exists "", a.
  - destruct IH as (s0 & d & E); [discriminate|]. exists (String a s0), d.
    cbn [append]. now rewrite <- E.
Qed.

Lemma all_chars_last (P : ascii -> bool) (s0 : string) (d : ascii) :
  all_chars P (s0 ++ String d "") = true -> P d = true.
Proof.
  rewrite all_chars_append. cbn [all_chars]. intros H.
  apply andb_prop in H as [_ H]. now apply andb_prop in H as [H _].
Qed.

Lemma space_not_in_name (t : string) (d : ascii) :
  tag_name t = true -> is_space d = true -> lacks d t = true.
Proof.
  intros H Hd. assert (A : all_chars tag_name_char t = true) by (destruct t; [discriminate|exact H]).
  revert A. unfold lacks. apply all_chars_impl. intros a Ha.
  apply tag_name_char_facts in Ha as (_ & Sa & _).
  destruct (Ascii.eqb_spec a d) as [->|]; [congruence|reflexivity].
Qed.

Lemma space_end_facts (d : ascii) :
  is_space d = true -> Ascii.eqb d ">" = false /\ Ascii.eqb d "/" = false.
Proof. each_character d; intros _; split; reflexivity. Qed.

Lemma spaces_no_equals (s : string) : all_chars is_space s = true -> no_equals s = true.
Proof. apply (lacks_spaces "="). reflexivity. Qed.

Lemma collapse_spaces (s : string) :
  all_chars is_space s = true -> all_chars is_space (collapse s) = true.
Proof. apply (collapse_spaces_upto (String.length s)). lia. Qed.

(** What stands between the tag name and the end of the opening tag: the
    attributes and the white space after them. *)
Lemma opening_facts (items : list (string * Attribute)) (trail : string) :
  Forall item_ok items -> all_chars is_space trail = true ->
  one_line (written_all (collapse_items items) ++ collapse trail) = true
  /\ lacks "<" (written_all (collapse_items items) ++ collapse trail) = true
  /\ lacks ">" (written_all (collapse_items items) ++ collapse trail) = true.
Proof.
  intros Hi Ht. destruct (written_facts items Hi) as (W1 & W2 & W3).
  pose proof (collapse_spaces _ Ht) as Sp.
  rewrite one_line_append, !lacks_append, W1, W2, W3, collapse_one_line.
  now rewrite (lacks_spaces "<" _ eq_refl Sp), (lacks_spaces ">" _ eq_refl Sp).
Qed.

Lemma opening_last (t : string) (items : list (string * Attribute)) (trail : string) :
  tag_name t = true -> all_chars is_space trail = true ->
  written_all items ++ trail <> "" ->
  exists W0 d, written_all (collapse_items items) ++ collapse trail = W0 ++ String d ""
               /\ lacks d t = true /\ Ascii.eqb d ">" = false /\ Ascii.eqb d "/" = false.
Proof.
  intros Ht Hs Hne. pose proof (collapse_spaces _ Hs) as Sp.
  destruct (collapse trail) as [|a r] eqn:E.
  - assert (I : items <> []).
    { intros ->. destruct trail as [|b trail]; [now apply Hne|].
      cbn [collapse] in E. destruct (Ascii.eqb CR b); [discriminate|].
      destruct (Ascii.eqb LF b); discriminate. }
    destruct (written_last (collapse_items items)) as (W0 & W4).
    { destruct items; [congruence|discriminate]. }
    exists W0, DQ. rewrite append_nil_r. split; [exact W4|].
    split; [apply (tag_name_facts _ Ht)|split; reflexivity].
  - destruct (last_character (String a r)) as (s0 & d & L); [discriminate|].
    rewrite L in Sp. apply all_chars_last in Sp.
    exists (written_all (collapse_items items) ++ s0), d.
    rewrite L, append_assoc. split; [reflexivity|].
    split; [now apply space_not_in_name|now apply space_end_facts].
Qed.

Section Document.

Variable prettyPrint : string -> string.
Variable fs : FileSystem.
Variable options : Options.
Variable fuel : nat.
Variables pre post : string.
Variable items : list (string * Attribute).
Variable trail : string.
Variables partial : string.
Variable log : list LogEntry.

Hypothesis name : tag_name (tagName options) = true.
Hypothesis written_ok : Forall item_ok items.
Hypothesis trail_spaces : all_chars is_space trail = true.
Hypothesis before : tagless (tagName options) (collapse pre) = true.
Hypothesis after : tagless (tagName options) (collapse post) = true.
Hypothesis resolved :
  getPartial fs options (include prettyPrint fs options fuel) (attributes_of items)
  = Ok partial log.
Hypothesis verbatim : has_dollar partial = false.

Lemma collapse_self_document :
  collapse (pre ++ "<" ++ tagName options ++ written_all items ++ trail ++ "/>" ++ post)
  = collapse pre ++ "<" ++ tagName options
      ++ (written_all (collapse_items items) ++ collapse trail) ++ "/>" ++ collapse post.
Proof.
  pose proof (tag_name_facts _ name) as N.
  rewrite collapse_app by reflexivity. f_equal.
  replace ("<" ++ tagName options ++ written_all items ++ trail ++ "/>" ++ post)
    with (("<" ++ tagName options) ++ written_all items ++ trail ++ "/>" ++ post)
    by (now rewrite append_assoc).
  rewrite collapse_prefix
    by (change (one_line (tagName options) = true); apply N).
  rewrite collapse_written by exact written_ok.
  rewrite (collapse_app trail) by reflexivity.
  rewrite collapse_prefix by reflexivity.
  now rewrite !append_assoc.
Qed.

Lemma partial_of_written (closing : string) :
  no_equals closing = true ->
  partial_of fs options (include prettyPrint fs options fuel)
             ("<" ++ tagName options
                  ++ (written_all (collapse_items items) ++ collapse trail) ++ closing)
  = Ok partial log.
Proof.
  intros Hc. pose proof (tag_name_facts _ name) as N.
  unfold partial_of.
  replace ("<" ++ tagName options
               ++ (written_all (collapse_items items) ++ collapse trail) ++ closing)
    with (("<" ++ tagName options) ++ written_all (collapse_items items)
            ++ (collapse trail ++ closing))
    by (now rewrite !append_assoc).
  rewrite getAttributes_written;
    [|change (no_equals (tagName options) = true); apply N
     |rewrite no_equals_append, Hc, (spaces_no_equals _ (collapse_spaces _ trail_spaces));
      reflexivity
     |now apply collapse_items_readable].
  rewrite bind_ok_nil, attributes_of_collapse. exact resolved.
Qed.

Lemma document_self_closing :
  injectHTML prettyPrint fs options (S fuel)
    (VinylFile (pre ++ "<" ++ tagName options ++ written_all items ++ trail ++ "/>" ++ post))
  = Ok (VinylFile (prettyPrint (collapse pre ++ lf ++ partial ++ collapse post))) log.
Proof.
  pose proof (tag_name_facts _ name) as N.
  destruct (opening_facts items trail written_ok trail_spaces) as (W1 & W2 & W3).
  rewrite injectHTML_S, format_literal by apply N. rewrite bind_ok_nil.
  unfold formatted. rewrite collapse_self_document.
  set (W := written_all (collapse_items items) ++ collapse trail) in *.
  rewrite formatted_self by auto.
  unfold getHTML. rewrite getTags_self by auto. rewrite bind_ok_nil.
  cbn [mapM]. unfold W at 1. rewrite partial_of_written by reflexivity. fold W.
  cbn [bind ret replace_tags]. rewrite !app_nil_r.
  rewrite replace_first_put by exact verbatim.
  replace (collapse pre ++ lf ++ "<" ++ tagName options ++ W ++ "/>" ++ collapse post)
    with ((collapse pre ++ lf) ++ ("<" ++ tagName options ++ W ++ "/>") ++ collapse post)
    by (now rewrite !append_assoc).
  rewrite put_first_only; [now rewrite !append_assoc|].
  replace ("<" ++ tagName options ++ W ++ "/>")
    with (("<" ++ tagName options) ++ W ++ "/>")
    by (now rewrite append_assoc).
  apply absent_in_longer. rewrite append_assoc. now apply opening_absent_break.
Qed.

(** The closed form. *)
Variable body : string.
Hypothesis some_opening : written_all items ++ trail <> "".
Hypothesis inside : tagless (tagName options) (collapse body) = true.
Hypothesis body_no_equals : no_equals (collapse body) = true.
Hypothesis body_no_end : includes "/>" (collapse body) = false.

Lemma collapse_closed_document :
  collapse (pre ++ "<" ++ tagName options ++ written_all items ++ trail ++ ">" ++ body ++ "</"
                ++ tagName options ++ ">" ++ post)
  = collapse pre ++ "<" ++ tagName options
      ++ (written_all (collapse_items items) ++ collapse trail)
      ++ ">" ++ collapse body ++ "</" ++ tagName options ++ ">" ++ collapse post.
Proof.
  pose proof (tag_name_facts _ name) as N.
  rewrite collapse_app by reflexivity. f_equal.
  replace ("<" ++ tagName options ++ written_all items ++ trail ++ ">" ++ body ++ "</"
               ++ tagName options ++ ">" ++ post)
    with (("<" ++ tagName options) ++ written_all items ++ trail ++ ">" ++ body ++ "</"
               ++ tagName options ++ ">" ++ post)
    by (now rewrite append_assoc).
  rewrite collapse_prefix
    by (change (one_line (tagName options) = true); apply N).
  rewrite collapse_written by exact written_ok.
  rewrite (collapse_app trail) by reflexivity.
  rewrite (collapse_prefix ">") by reflexivity.
  rewrite collapse_app by reflexivity.
  replace ("</" ++ tagName options ++ ">" ++ post)
    with (("</" ++ tagName options ++ ">") ++ post) by (now rewrite !append_assoc).
  rewrite collapse_prefix.
  - now rewrite !append_assoc.
  - change (one_line (tagName options ++ ">") = true).
    now rewrite one_line_append, (tn_one_line _ N).
Qed.

Lemma document_closed :
  injectHTML prettyPrint fs options (S fuel)
    (VinylFile (pre ++ "<" ++ tagName options ++ written_all items ++ trail ++ ">" ++ body
                    ++ "</" ++ tagName options ++ ">" ++ post))
  = Ok (VinylFile (prettyPrint (collapse pre ++ lf ++ partial ++ lf ++ collapse post))) log.
Proof.
  pose proof (tag_name_facts _ name) as N.
  destruct (opening_facts items trail written_ok trail_spaces) as (W1 & W2 & W3).
  destruct (opening_last _ items trail name trail_spaces some_opening)
    as (W0 & d & W4 & D1 & D2 & D3).
  rewrite injectHTML_S, format_literal by apply N. rewrite bind_ok_nil.
  unfold formatted. rewrite collapse_closed_document.
  set (W := written_all (collapse_items items) ++ collapse trail) in *.
  rewrite (formatted_closed _ _ _ _ N before after W2 W3 (collapse body) W0 d W4 D1 D2 inside).
  unfold getHTML.
  rewrite (getTags_closed options _ _ _ N before after W1 W2 W3 (collapse body) W0 d W4 D2 D3
             inside (collapse_one_line body) body_no_end).
  rewrite bind_ok_nil. cbn [mapM]. unfold W at 1.
  rewrite (partial_of_written (">" ++ collapse body ++ "</" ++ tagName options ++ ">")).
  - fold W. cbn [bind ret replace_tags]. rewrite !app_nil_r.
    rewrite replace_first_put by exact verbatim.
    replace (collapse pre ++ lf ++ "<" ++ tagName options
               ++ W ++ ">" ++ collapse body ++ "</"
               ++ tagName options ++ ">" ++ lf ++ collapse post)
      with ((collapse pre ++ lf)
              ++ ("<" ++ tagName options ++ W ++ ">"
                      ++ collapse body ++ "</" ++ tagName options ++ ">")
              ++ lf ++ collapse post)
      by (now rewrite !append_assoc).
    rewrite put_first_only; [now rewrite !append_assoc|].
    replace ("<" ++ tagName options ++ W ++ ">"
                 ++ collapse body ++ "</" ++ tagName options ++ ">")
      with (("<" ++ tagName options) ++ W ++ ">"
                 ++ collapse body ++ "</" ++ tagName options ++ ">")
      by (now rewrite append_assoc).
    apply absent_in_longer. rewrite append_assoc. now apply opening_absent_break.
  - change (no_equals (collapse body ++ "</" ++ tagName options ++ ">") = true).
    rewrite no_equals_append, body_no_equals.
    change (no_equals (tagName options ++ ">") = true).
    now rewrite no_equals_append, (tn_no_equals _ N).
Qed.

End Document.

(** ** Sources the parser covers *)

Lemma literal_lacks (c : ascii) (s : string) :
  pattern_char c = false -> literal_text s = true -> lacks c s = true.
Proof.
  intros Hc. unfold lacks. apply all_chars_impl. intros a Ha.
  destruct (Ascii.eqb_spec a c) as [->|]; [congruence|reflexivity].
Qed.

Lemma uncovered_escape_lacks (s : string) :
  lacks "\" s = true -> uncovered_escape s = false.
Proof.
  unfold lacks. induction s as [|a s IH]; [reflexivity|].
  cbn [all_chars]. intros H. apply andb_prop in H as [Ha Hs]. specialize (IH Hs).
  revert Ha. destruct a as [[] [] [] [] [] [] [] []]; try discriminate; intros _; exact IH.
Qed.

Lemma uncovered_group_lacks (s : string) :
  lacks "?" s = true -> uncovered_group s = false.
Proof.
  unfold lacks. induction s as [|a s IH]; [reflexivity|].
  cbn [all_chars]. intros H. apply andb_prop in H as [_ Hs]. specialize (IH Hs).
  assert (E : uncovered_group (String a s) = uncovered_group s); [|now rewrite E].
  destruct s as [|b s]; [now destruct a as [[] [] [] [] [] [] [] []]|].
  cbn [all_chars] in Hs. apply andb_prop in Hs as [Hb _].
  destruct a as [[] [] [] [] [] [] [] []]; try reflexivity.
  revert Hb. destruct b as [[] [] [] [] [] [] [] []]; try reflexivity; discriminate.
Qed.

Lemma covered_unbalanced (name : string) :
  literal_text name = true -> covered ("<" ++ name ++ "(") = true.
Proof.
  intros L.
  assert (A : forall c, pattern_char c = false -> Ascii.eqb "<" c = false ->
                        Ascii.eqb "(" c = false -> lacks c ("<" ++ name ++ "(") = true).
  { intros c Hc H1 H2. change (lacks c (String "<" (name ++ "(")) = true).
    unfold lacks. cbn [all_chars]. rewrite H1, all_chars_append. cbn [all_chars negb andb].
    rewrite H2. cbn [negb]. rewrite andb_true_r. now apply literal_lacks. }
  unfold covered.
  rewrite (includes_lacks "{" "{" eq_refl) by (now apply A).
  rewrite uncovered_group_lacks by (now apply A).
  rewrite uncovered_escape_lacks by (now apply A). reflexivity.
Qed.

(** ** Attributes there are *)

Lemma written_all_not_empty (items : list (string * Attribute)) (trail : string) :
  Forall item_ok items -> items <> [] -> written_all items ++ trail <> "".
Proof.
  intros H N. destruct items as [|[sep a] rest]; [congruence|].
  inversion H as [|? ? (S & _) _]; subst. cbn [fst] in S.
  destruct sep as [|c sep]; [discriminate|]. cbn. discriminate.
Qed.

(** * The attribute parser and the substitutor *)

(** C10. For every tag text the attribute parser returns (it neither throws
    nor runs out of the iterations its input allows) and logs nothing; every
    attribute it returns has a key that is not empty and holds no white
    space, and a value of two characters or more. *)
Theorem C10_attributes_well_formed (tag : string) :
  exists attributes,
    getAttributes tag = Ok attributes []
    /\ Forall (fun a => key a <> ""
                        /\ all_chars (fun c => negb (is_space c)) (key a) = true
                        /\ 2 <= String.length (value a)) attributes.
Proof.
  destruct (getAttributes_well_formed tag) as (attributes & E & W).
  exists attributes. split; [exact E|].
  eapply Forall_impl; [|exact W]. intros a H; exact H.
Qed.

(** C4, as stated, fails: the value inserted for [a] is read again when the
    placeholder of [b] is replaced. *)
Lemma C4_counterexample :
  replaceAttributes default_options (Some "@@a")
    [ {| key := "a"; value := "@@b" |}; {| key := "b"; value := "zz" |} ]
  <> Ok (simultaneous "@@"
           [ {| key := "a"; value := "@@b" |}; {| key := "b"; value := "zz" |} ] "@@a") [].
Proof. vm_compute. discriminate. Qed.

(** C4, amended. The substitutions are applied in sequence, in the order of
    the attributes, each to the text the one before produced: the result is
    the left fold of the global replacement of [variablePrefix + key] over
    the attributes. *)
Theorem C4_substitutions_in_sequence (options : Options) (content : string)
        (attributes : list Attribute) :
  Forall (fun a => variablePrefix options ++ key a <> "") attributes ->
  replaceAttributes options (Some content) attributes
  = Ok (fold_left (replace_placeholder options) attributes content) [].
Proof. intros H. now rewrite replaceAttributes_fold. Qed.

Lemma C4_witness :
  replaceAttributes default_options (Some "@@a and @@b")
    [ {| key := "a"; value := "@@b" |}; {| key := "b"; value := "zz" |} ]
  = Ok "zz and zz" [].
Proof.
  rewrite C4_substitutions_in_sequence.
  - reflexivity.
  - repeat constructor; discriminate.
Defined.

(** C6, as stated, fails: a value is not inserted as it is when it holds a
    replacement pattern. *)
Lemma C6_counterexample :
  replaceAttributes default_options (Some "price: @@p")
    [ {| key := "p"; value := "$$5" |} ]
  <> Ok (substitute_all "@@p" "$$5" "price: @@p") [].
Proof. vm_compute. discriminate. Qed.

(** C6, amended. Every occurrence of the text [variablePrefix + key] (not
    empty) is replaced, the text being read literally and case-sensitively; the
    value is expanded as a replacement string of [String.prototype.replace],
    and a value without [$] is inserted as it is. *)
Theorem C6_placeholder_replaced_literally (options : Options) (content k v : string) :
  variablePrefix options ++ k <> "" ->
  replaceAttributes options (Some content) [ {| key := k; value := v |} ]
  = Ok (replace_all (variablePrefix options ++ k) v content) []
  /\ (has_dollar v = false ->
      replace_all (variablePrefix options ++ k) v content
      = substitute_all (variablePrefix options ++ k) v content).
Proof.
  intros Hp. split.
  - rewrite replaceAttributes_fold; [reflexivity|].
    constructor; [exact Hp|constructor].
  - apply replace_all_substitute.
Qed.

Lemma C6_witness :
  replaceAttributes default_options (Some "a.b @@a.b @@axb @@A.B @@a.b")
    [ {| key := "a.b"; value := "(x)" |} ]
  = Ok "a.b (x) @@axb @@A.B (x)" [].
Proof.
  destruct (C6_placeholder_replaced_literally default_options
              "a.b @@a.b @@axb @@A.B @@a.b" "a.b" "(x)") as [E S].
  - discriminate.
  - rewrite E, S by reflexivity. reflexivity.
Defined.

(** * Tags that cannot be resolved *)

(** C2, as stated, fails: the empty text is not put at the place of the
    tag, it replaces the first occurrence of the tag's text in the text reached
    so far.  Below, the partial of the first tag is the text of the second
    tag, which has no [src]: the partial just inserted is removed and the
    second tag stays where it was, while the first tag on its own resolves to
    its partial. *)
Lemma C2_counterexample :
  let fs := files [("p.html", "<@@x title='ab'/>")] in
  injectHTML keep_text fs default_options 2
    (VinylFile "A<partial src='p.html' x='partial'/>B<partial title='ab'/>C")
  = Ok (VinylFile ("A" ++ lf ++ "B" ++ lf ++ "<partial title='ab'/>C"))
       [Log pluginName "Some partial does not have 'src' attribute"]
  /\ injectHTML keep_text fs default_options 2
       (VinylFile "A<partial src='p.html' x='partial'/>BC")
     = Ok (VinylFile ("A" ++ lf ++ "<partial title='ab'/>BC")) []
  /\ "A" ++ lf ++ "B" ++ lf ++ "<partial title='ab'/>C"
     <> "A" ++ lf ++ "<partial title='ab'/>B" ++ lf ++ "C".
Proof. repeat split; try (vm_compute; reflexivity). vm_compute. discriminate. Qed.

(** C2, amended. A tag whose attributes hold no [src], or whose path
    [basePath + src] is not a file, resolves to the empty text and logs one
    line (which names the path when the file is missing); [getHTML] does not
    abort on it: the other tags get the partials and log the lines they get
    on their own, and the empty text replaces the first occurrence of the
    tag's text in the text in which the tags before it have been replaced. *)
Theorem C2_unresolvable_tag (fs : FileSystem) (options : Options)
        (inject : string -> Result string) (html : string)
        (tags1 tags2 : list string) (tag : string) (attributes : list Attribute)
        (partials1 partials2 : list string) (log1 log2 : list LogEntry) :
  getTags options html = Ok (tags1 ++ tag :: tags2)%list [] ->
  getAttributes tag = Ok attributes [] ->
  src_of attributes = None
  \/ (exists v, src_of attributes = Some v /\ fs (basePath options ++ v) = None) ->
  mapM (partial_of fs options inject) tags1 = Ok partials1 log1 ->
  mapM (partial_of fs options inject) tags2 = Ok partials2 log2 ->
  partial_of fs options inject tag = Ok "" [unresolved_entry options attributes]
  /\ getHTML fs options inject html
     = Ok (replace_tags (remove_first tag (replace_tags html tags1 partials1))
                        tags2 partials2)
          (log1 ++ unresolved_entry options attributes :: log2)%list.
Proof.
  intros T A U M1 M2.
  pose proof (partial_of_unresolved fs options inject tag attributes A U) as P.
  split; [exact P|].
  unfold getHTML. rewrite T, bind_ok_nil.
  rewrite (mapM_middle _ _ _ _ _ _ _ _ _ _ M1 P M2). cbn [bind ret app].
  rewrite replace_tags_middle by (eapply mapM_length; eauto).
  now rewrite replace_first_empty, app_nil_r.
Qed.

Lemma C2_witness :
  getHTML (files [("o.html", "fine")]) default_options
          (include keep_text (files [("o.html", "fine")]) default_options 1)
          ("<p>" ++ lf ++ "<partial title='ab'/>" ++ lf ++ "<partial src='o.html'/>"
                 ++ lf ++ "<partial src='none.html'/></p>")
  = Ok ("<p>" ++ lf ++ lf ++ "fine" ++ lf ++ "</p>")
       [Log pluginName "Some partial does not have 'src' attribute";
        Log pluginName "File none.html does not exist."].
Proof.
  pose (fs := files [("o.html", "fine")]).
  pose (inject := include keep_text fs default_options 1).
  pose (html := "<p>" ++ lf ++ "<partial title='ab'/>" ++ lf ++ "<partial src='o.html'/>"
                      ++ lf ++ "<partial src='none.html'/></p>").
  destruct (C2_unresolvable_tag fs default_options inject html
              [] ["<partial src='o.html'/>"; "<partial src='none.html'/>"]
              "<partial title='ab'/>" [ {| key := "title"; value := "ab" |} ]
              [] ["fine"; ""] [] [Log pluginName "File none.html does not exist."])
    as [_ E].
  - vm_compute. reflexivity.
  - vm_compute. reflexivity.
  - left. reflexivity.
  - reflexivity.
  - vm_compute. reflexivity.
  - fold fs inject html. rewrite E. vm_compute. reflexivity.
Defined.

(** * The stream boundary and the module state *)

(** C8. A file whose contents are a stream makes the callback emit the error
    [Streams are not supported] and hand the file downstream as it is; the
    outcome does not depend on the pretty printer, the file system, the
    options or the fuel ([injectHTML] is not called), and the files that
    follow are processed as if the stream had not been there. *)
Theorem C8_stream_rejected (prettyPrint : string -> string) (fs : FileSystem)
        (fuel : nat) (options : Options) (chunks : list string) (rest : list Call) :
  on_file prettyPrint fs options fuel (Stream chunks)
  = Ok {| errors := ["Streams are not supported"]; passed := [Stream chunks] |} []
  /\ run prettyPrint fs fuel options (File (Stream chunks) :: rest)
     = Ok {| errors := ["Streams are not supported"]; passed := [Stream chunks] |} []
       :: run prettyPrint fs fuel options rest.
Proof. split; reflexivity. Qed.

(** C9, at the failing input. [transform({tagName: 'include'})] followed by
    [transform({})] leaves [tagName] at ['include']: the document is handed on
    unresolved, where a first call [transform({})] resolves it. *)
Theorem C9_settings_persist :
  let fs := files [("f.html", "hello")] in
  let doc := Buffer "<partial src='f.html'/>" in
  let include_tag :=
    {| config_tagName := Some "include"; config_basePath := None;
       config_variablePrefix := None |} in
  run keep_text fs 2 default_options [Transform no_config; File doc]
  = [Ok {| errors := []; passed := [Buffer (lf ++ "hello")] |} []]
  /\ run keep_text fs 2 default_options
         [Transform include_tag; Transform no_config; File doc]
     = [Ok {| errors := []; passed := [doc] |} []].
Proof. split; vm_compute; reflexivity. Qed.

(** * Inclusion *)

(** C3, at the failing input. The attribute parser reads the values of
    [a="1"] and [b="2"] with their opening quote, so the output holds
    ["1-"2] and not [1-2]. *)
Theorem C3_one_character_values :
  let tag := "<partial src=" ++ dq ++ "f.html" ++ dq ++ " a=" ++ dq ++ "1" ++ dq
             ++ " b=" ++ dq ++ "2" ++ dq ++ "/>" in
  let fs := files [("f.html", "@@a-@@b")] in
  getAttributes tag
  = Ok [ {| key := "src"; value := "f.html" |};
         {| key := "a"; value := dq ++ "1" |};
         {| key := "b"; value := dq ++ "2" |} ] []
  /\ injectHTML keep_text fs default_options 2 (VinylFile tag)
     = Ok (VinylFile (lf ++ dq ++ "1-" ++ dq ++ "2")) []
  /\ includes "1-2" (lf ++ dq ++ "1-" ++ dq ++ "2") = false.
Proof. repeat split; vm_compute; reflexivity. Qed.




(** * The formatter *)




(** * Closed and self-closing tags *)

(** C5, as stated, fails: the attribute parser reads the body of a closed
    tag, so an attribute written in the body is substituted. *)
Lemma C5_counterexample :
  exists closed self,
    injectHTML keep_text (files [("f.html", "<i>@@a</i>")]) default_options 2
      (VinylFile "<partial src='f.html'> a=bb </partial>") = Ok (VinylFile closed) []
    /\ injectHTML keep_text (files [("f.html", "<i>@@a</i>")]) default_options 2
         (VinylFile "<partial src='f.html'/>") = Ok (VinylFile self) []
    /\ without_space closed = "<i>bb</partial</i>"
    /\ without_space self = "<i>@@a</i>".
Proof.
  exists (lf ++ "<i>bb </partial</i>" ++ lf), (lf ++ "<i>@@a</i>").
  repeat split; vm_compute; reflexivity.
Qed.

(** C5, amended. In a document that holds one tag, with an ordinary tag name
    and one attribute or more written [key="value"], the self-closing form and
    the closed form are both found, the same attributes are read from them, and
    both are replaced by the same partial with the same lines logged, provided
    the body of the closed form, with its line breaks replaced by spaces, holds
    no [=], no [/>], no [<tagName] and no [tagName>], and the partial holds no
    [$].  White space of any kind may separate the attributes and stand before
    [/>] and [>].  The two texts handed to the pretty printer differ by the
    line break the formatter puts after the closed form.  (A body that holds
    [key=value] is read as attributes, as above.) *)
Theorem C5_forms_resolve_alike (prettyPrint : string -> string) (fs : FileSystem)
        (options : Options) (fuel : nat) (pre post body trail partial : string)
        (items : list (string * Attribute)) (log : list LogEntry) :
  tag_name (tagName options) = true ->
  Forall item_ok items -> items <> [] ->
  all_chars is_space trail = true ->
  tagless (tagName options) (collapse pre) = true ->
  tagless (tagName options) (collapse post) = true ->
  tagless (tagName options) (collapse body) = true ->
  no_equals (collapse body) = true ->
  includes "/>" (collapse body) = false ->
  getPartial fs options (include prettyPrint fs options fuel) (attributes_of items)
  = Ok partial log ->
  has_dollar partial = false ->
  injectHTML prettyPrint fs options (S fuel)
    (VinylFile (pre ++ "<" ++ tagName options ++ written_all items ++ trail ++ "/>" ++ post))
  = Ok (VinylFile (prettyPrint (collapse pre ++ lf ++ partial ++ collapse post))) log
  /\ injectHTML prettyPrint fs options (S fuel)
       (VinylFile (pre ++ "<" ++ tagName options ++ written_all items ++ trail ++ ">" ++ body
                       ++ "</" ++ tagName options ++ ">" ++ post))
     = Ok (VinylFile (prettyPrint (collapse pre ++ lf ++ partial ++ lf ++ collapse post))) log.
Proof.
  intros N I Ne T Bp Ap Bb Be Bs P D. split.
  - now apply document_self_closing.
  - apply document_closed; auto. now apply written_all_not_empty.
Qed.

Lemma C5_witness :
  injectHTML keep_text (files [("f.html", "<h1>@@title</h1>")]) default_options 2
    (VinylFile ("<p><partial src=" ++ dq ++ "f.html" ++ dq ++ " title=" ++ dq ++ "Some title"
                ++ dq ++ " >not" ++ lf ++ "read</partial></p>"))
  = Ok (VinylFile ("<p>" ++ lf ++ "<h1>Some title</h1>" ++ lf ++ "</p>")) [].
Proof.
  destruct (C5_forms_resolve_alike keep_text (files [("f.html", "<h1>@@title</h1>")])
              default_options 1 "<p>" "</p>" ("not" ++ lf ++ "read") " " "<h1>Some title</h1>"
              [ (" ", {| key := "src"; value := "f.html" |});
                (" ", {| key := "title"; value := "Some title" |}) ] [])
    as [_ E].
  - reflexivity.
  - repeat constructor; cbn; try discriminate; lia.
  - discriminate.
  - reflexivity.
  - reflexivity.
  - reflexivity.
  - reflexivity.
  - reflexivity.
  - reflexivity.
  - vm_compute. reflexivity.
  - reflexivity.
  - exact E.
Defined.

(** * Further properties of the functions *)

(** ** Escaping *)

(** X1. [escapeRegExp] never throws and returns the text with a backslash
    put before each of the characters [- / \ ^ $ * + ? . ( ) | [ ] { }] and
    nothing else changed. *)
Theorem X1_escapeRegExp_escapes (s : string) :
  escapeRegExp s = Ok (escaped s) [].
Proof. apply escapeRegExp_escaped. Qed.

(** X2. Escaping round trip: the pattern [replaceAttributes] builds from a
    text, [new RegExp(escapeRegExp(s))], is never a syntax error, has no group
    and is the pattern that reads [s] character by character: it matches at a
    position exactly when the input continues with [s] there, and reads
    [s.length] characters. *)
Theorem X2_escaped_pattern_reads_the_text (s : string) :
  (source <- escapeRegExp s ;; new_RegExp source) = Ok (literal s, 0) []
  /\ forall input i,
       matcher (literal s) input i no_captures accept
       = match starts s input with
         | Some _ => Some (i + String.length s, no_captures)
         | None => None
         end.
Proof.
  split.
  - rewrite escapeRegExp_escaped, bind_ok_nil. unfold new_RegExp. now rewrite parse_escaped.
  - intros input i. rewrite matcher_literal. now destruct (starts s input).
Qed.

(** X3. [replaceAttributes] never throws and logs nothing, whatever the
    characters of the prefix, the keys and the values, for a file that is there
    as for one that is not ([undefined]). *)
Theorem X3_replaceAttributes_never_throws (options : Options) (file : option string)
        (attributes : list Attribute) :
  exists html, replaceAttributes options file attributes = Ok html [].
Proof.
  unfold replaceAttributes.
  generalize (match file with Some text => text | None => "" end) as html.
  induction attributes as [|a rest IH]; intros html.
  - now exists html.
  - cbn [replaceAttributes_loop].
    rewrite escapeRegExp_escaped, bind_ok_nil.
    unfold new_RegExp. rewrite parse_escaped. unfold ret. rewrite bind_ok_nil.
    apply IH.
Qed.

(** X4. A tag text without [=] has no attributes; the tag then resolves to
    the empty text and logs that it has no [src] attribute. *)
Theorem X4_tag_without_equals (fs : FileSystem) (options : Options)
        (inject : string -> Result string) (tag : string) :
  no_equals tag = true ->
  getAttributes tag = Ok [] []
  /\ partial_of fs options inject tag
     = Ok "" [Log pluginName "Some partial does not have 'src' attribute"].
Proof.
  intros H.
  pose proof (getAttributes_rendered tag "" [] H eq_refl (Forall_nil _)) as A.
  cbn [render_all append] in A. rewrite append_nil_r in A.
  split; [exact A|].
  unfold partial_of. rewrite A, bind_ok_nil.
  apply getPartial_missing_src; [constructor|reflexivity].
Qed.

Lemma X4_witness :
  partial_of (files []) default_options (include keep_text (files []) default_options 1)
             "<partial/>"
  = Ok "" [Log pluginName "Some partial does not have 'src' attribute"].
Proof. apply X4_tag_without_equals. reflexivity. Defined.

(** ** The tag scanner *)

(** X5. For a tag name without pattern characters [getTags] does not throw
    and returns the closed tags, then the self-closed ones, each list from left
    to right without overlap.  A closed tag goes from [<tagName] to the last
    [/tagName>] of the line, a self-closed one from [<tagName] to the first
    [/>] of the line; a place where [<tagName] is not followed by the closing
    text on its line is skipped. *)
Theorem X5_getTags_scans (options : Options) (html : string) :
  literal_text (tagName options) = true ->
  getTags options html
  = Ok (all_occurrences (reads_closed (tagName options)) html
        ++ all_occurrences (reads_self_closed (tagName options)) html)%list [].
Proof. apply getTags_occurrences. Qed.

Lemma X5_witness :
  getTags default_options
    ("<partial src='a.html'/>" ++ lf ++ "<partial src='b.html'><br/></partial>")
  = Ok ["<partial src='b.html'><br/></partial>"; "<partial src='a.html'/>";
        "<partial src='b.html'><br/>"] [].
Proof. rewrite X5_getTags_scans by reflexivity. vm_compute. reflexivity. Defined.

(** X6. When [<tagName] does not occur in the text, [getTags] finds no tag
    and [getHTML] returns the text as it is, logs nothing and never reads a
    file (the result is the same for every [inject]). *)
Theorem X6_no_tag_no_change (fs : FileSystem) (options : Options)
        (inject : string -> Result string) (html : string) :
  literal_text (tagName options) = true ->
  includes ("<" ++ tagName options) html = false ->
  getTags options html = Ok [] []
  /\ getHTML fs options inject html = Ok html [].
Proof.
  intros L I. pose proof (getTags_none options html L I) as T.
  split; [exact T|]. unfold getHTML. now rewrite T.
Qed.

Lemma X6_witness :
  getHTML (files []) default_options (fun _ => Throws) "<p>no partial/></p>"
  = Ok "<p>no partial/></p>" [].
Proof. apply X6_no_tag_no_change; reflexivity. Defined.



(** X8. Every tag [getTags] returns is [<tagName], a body without line
    terminator, then [/tagName>] or [/>]; in the second case the [/>] that ends
    the tag is the first [/>] after [<tagName]. *)
Theorem X8_tag_shape (options : Options) (html : string) :
  literal_text (tagName options) = true ->
  exists tags,
    getTags options html = Ok tags []
    /\ Forall (fun tag =>
                 exists body,
                   one_line body = true
                   /\ (tag = "<" ++ tagName options ++ body ++ "/" ++ tagName options ++ ">"
                       \/ (tag = "<" ++ tagName options ++ body ++ "/>"
                           /\ split_at "/>" (body ++ "/>") = Some (body, "")))) tags.
Proof.
  intros L. eexists. split; [now apply getTags_occurrences|].
  apply Forall_app. split; apply occurrences_Forall; intros s n H.
  - destruct (reads_closed_shape _ _ _ H) as (body & E & O).
    exists body. split; [exact O|]. now left.
  - destruct (reads_self_closed_shape _ _ _ H) as (body & E & O & S).
    exists body. split; [exact O|]. now right.
Qed.

Lemma X8_witness :
  exists tags,
    getTags default_options "<partial a/><partial b/></partial>" = Ok tags []
    /\ Forall (fun tag =>
                 exists body,
                   one_line body = true
                   /\ (tag = "<" ++ "partial" ++ body ++ "/" ++ "partial" ++ ">"
                       \/ (tag = "<" ++ "partial" ++ body ++ "/>"
                           /\ split_at "/>" (body ++ "/>") = Some (body, "")))) tags.
Proof. apply (X8_tag_shape default_options). reflexivity. Defined.

(** X9. The closed pattern is greedy: of a text on one line that starts with
    [<tagName] and ends with [/tagName>], the first tag [getTags] returns is
    the whole text, whatever stands in between (other closing or opening tags
    of the same name included). *)
Theorem X9_closed_tag_on_one_line (options : Options) (body : string) :
  literal_text (tagName options) = true ->
  one_line body = true ->
  exists selfClosed,
    getTags options ("<" ++ tagName options ++ body ++ "/" ++ tagName options ++ ">")
    = Ok (("<" ++ tagName options ++ body ++ "/" ++ tagName options ++ ">") :: selfClosed) [].
Proof.
  intros L O. eexists. rewrite getTags_occurrences by exact L.
  set (t := tagName options). set (line := "<" ++ t ++ body ++ "/" ++ t ++ ">").
  replace (String.length line + 2) with (S (S (String.length line))) by lia.
  rewrite occurrences_whole; [reflexivity| |reflexivity].
  unfold reads_closed, line.
  replace ("<" ++ t ++ body ++ "/" ++ t ++ ">")
    with (("<" ++ t) ++ body ++ "/" ++ t ++ ">") by (now rewrite append_assoc).
  rewrite starts_append, greedy_scan_line by exact O.
  cbn [option_map]. now rewrite !length_append.
Qed.

Lemma X9_witness :
  exists selfClosed,
    getTags default_options "<partial a></partial> and <partial b></partial>"
    = Ok ("<partial a></partial> and <partial b></partial>" :: selfClosed) [].
Proof. apply (X9_closed_tag_on_one_line default_options " a></partial> and <partial b><"); reflexivity. Defined.

(** ** Inclusion *)

(** X10. A tag whose first [src] attribute names an existing file resolves
    to the text [injectHTML] makes of that file, in which the placeholders of
    the attributes other than [src] are replaced in attribute order; every
    [src] attribute is left out of the substitution (a further [src] is neither
    read nor substituted), and the lines logged are those of the inclusion. *)
Theorem X10_included_partial (fs : FileSystem) (options : Options)
        (inject : string -> Result string) (attributes : list Attribute)
        (v bytes text : string) (log : list LogEntry) :
  src_of attributes = Some v -> v <> "" ->
  fs (basePath options ++ v) = Some bytes ->
  inject bytes = Ok text log ->
  Forall (fun a => variablePrefix options ++ key a <> "") attributes ->
  getPartial fs options inject attributes
  = Ok (fold_left (replace_placeholder options)
          (filter (fun a => negb (is_src a)) attributes) text) log.
Proof. apply getPartial_resolved. Qed.

Lemma X10_witness :
  getPartial (files [("a.html", "@@src @@title @@src"); ("b.html", "b")]) default_options
    (fun bytes => Ok bytes [])
    [ {| key := "title"; value := "T" |}; {| key := "src"; value := "a.html" |};
      {| key := "src"; value := "b.html" |} ]
  = Ok "@@src T @@src" [].
Proof.
  rewrite (X10_included_partial _ _ _ _ "a.html" "@@src @@title @@src"
             "@@src @@title @@src" []).
  - reflexivity.
  - reflexivity.
  - discriminate.
  - reflexivity.
  - reflexivity.
  - repeat constructor; discriminate.
Defined.

(** X11. [getHTML] on a text with one tag: the first occurrence of the tag
    is replaced by the partial expanded as a replacement string of
    [String.prototype.replace] (so [$&] in an included file gives the tag
    back); a partial without [$] is inserted as it is. *)
Theorem X11_partial_text_is_a_replacement (fs : FileSystem) (options : Options)
        (inject : string -> Result string) (html tag partial before after : string)
        (log : list LogEntry) :
  getTags options html = Ok [tag] [] ->
  partial_of fs options inject tag = Ok partial log ->
  split_at tag html = Some (before, after) ->
  getHTML fs options inject html
  = Ok (before ++ expand tag before after [] partial ++ after) log
  /\ (has_dollar partial = false ->
      getHTML fs options inject html = Ok (before ++ partial ++ after) log).
Proof.
  intros T P S.
  assert (E : getHTML fs options inject html
              = Ok (before ++ expand tag before after [] partial ++ after) log).
  { unfold getHTML. rewrite T, bind_ok_nil. cbn [mapM]. rewrite P.
    cbn [bind ret replace_tags]. unfold replace_first. rewrite S.
    now rewrite !app_nil_r. }
  split; [exact E|].
  intros D. now rewrite E, expand_no_dollar.
Qed.

Lemma X11_witness :
  getHTML (files [("f.html", "[$&]")]) default_options (fun bytes => Ok bytes [])
          "<p><partial src='f.html'/></p>"
  = Ok "<p>[<partial src='f.html'/>]</p>" [].
Proof.
  destruct (X11_partial_text_is_a_replacement
              (files [("f.html", "[$&]")]) default_options (fun bytes => Ok bytes [])
              "<p><partial src='f.html'/></p>" "<partial src='f.html'/>" "[$&]"
              "<p>" "</p>" []) as [E _].
  - vm_compute. reflexivity.
  - vm_compute. reflexivity.
  - reflexivity.
  - rewrite E. reflexivity.
Defined.

(** X12. A file whose first tag includes the file itself is never resolved:
    whatever the depth allowed, [injectHTML] does not return (the recursion of
    the source has no end). *)
Theorem X12_self_inclusion_never_ends (prettyPrint : string -> string) (fs : FileSystem)
        (options : Options) (bytes content tag : string) (tags : list string)
        (attributes : list Attribute) (v : string) :
  format options bytes = Ok content [] ->
  getTags options content = Ok (tag :: tags) [] ->
  getAttributes tag = Ok attributes [] ->
  src_of attributes = Some v ->
  fs (basePath options ++ v) = Some bytes ->
  forall fuel, injectHTML prettyPrint fs options fuel (NodeBuffer bytes) = OutOfFuel.
Proof.
  intros F T A S E. induction fuel as [|fuel IH]; [reflexivity|].
  rewrite injectHTML_S, F, bind_ok_nil.
  unfold getHTML. rewrite T, bind_ok_nil. cbn [mapM].
  unfold partial_of. rewrite A, bind_ok_nil.
  destruct (getAttributes_well_formed tag) as (attributes' & A' & W).
  rewrite A in A'. injection A' as <-.
  unfold getPartial. rewrite partition_as_filter. cbn [fst snd].
  unfold src_of in S. destruct (filter is_src attributes) as [|a l] eqn:Fl; [discriminate|].
  injection S as S.
  assert (Wa : well_formed a).
  { assert (I : In a (filter is_src attributes)) by (rewrite Fl; now left).
    apply filter_In in I as [I _]. revert I. now apply Forall_forall. }
  destruct Wa as (_ & _ & V). rewrite S in V |- *.
  destruct v as [|c v']; [simpl in V; lia|].
  rewrite E. fold (include prettyPrint fs options fuel bytes).
  unfold include. rewrite IH. reflexivity.
Qed.

Lemma X12_witness :
  injectHTML keep_text (files [("a.html", "<b>a</b><partial src='a.html'/>")])
             default_options 1000 (NodeBuffer "<b>a</b><partial src='a.html'/>")
  = OutOfFuel.
Proof.
  apply (X12_self_inclusion_never_ends keep_text _ default_options
           "<b>a</b><partial src='a.html'/>"
           ("<b>a</b>" ++ lf ++ "<partial src='a.html'/>")
           "<partial src='a.html'/>" [] [ {| key := "src"; value := "a.html" |} ] "a.html").
  - vm_compute. reflexivity.
  - vm_compute. reflexivity.
  - vm_compute. reflexivity.
  - reflexivity.
  - reflexivity.
Defined.

(** X14. The two branches of [injectHTML] compute the same text and log the
    same lines: a vinyl file and a buffer with the same contents are resolved
    alike. *)
Theorem X14_both_file_kinds (prettyPrint : string -> string) (fs : FileSystem)
        (options : Options) (fuel : nat) (text : string) :
  (file <- injectHTML prettyPrint fs options fuel (VinylFile text) ;; ret (text_of file))
  = (file <- injectHTML prettyPrint fs options fuel (NodeBuffer text) ;; ret (text_of file)).
Proof.
  destruct fuel as [|fuel]; [reflexivity|]. rewrite !injectHTML_S.
  destruct (format options text) as [content l| |]; [|reflexivity|reflexivity].
  cbn [bind].
  destruct (getHTML fs options (include prettyPrint fs options fuel) content);
    reflexivity.
Qed.

(** X15. The tag name is written into the patterns unescaped: with a tag
    name made of characters without pattern meaning followed by one opening
    parenthesis (such as [include(]), [injectHTML] throws on every file and
    buffer, with or without tags. *)
Theorem X15_unbalanced_tag_name_throws (prettyPrint : string -> string) (fs : FileSystem)
        (options : Options) (fuel : nat) (file : FileObject) (name : string) :
  literal_text name = true ->
  tagName options = name ++ "(" ->
  injectHTML prettyPrint fs options (S fuel) file = Throws.
Proof.
  intros L E.
  assert (F : forall text, format options text = Throws).
  { intros text. unfold format, new_RegExp.
    rewrite parse_line_break_source. unfold ret. rewrite bind_ok_nil.
    rewrite E, (parse_unbalanced name L), (covered_unbalanced name L). reflexivity. }
  rewrite injectHTML_S. destruct file; now rewrite F.
Qed.

Lemma X15_witness :
  injectHTML keep_text (files [])
    {| tagName := "include("; basePath := ""; variablePrefix := "@@" |} 1
    (VinylFile "<p>no tag</p>")
  = Throws.
Proof. apply (X15_unbalanced_tag_name_throws _ _ _ _ _ "include"); reflexivity. Defined.

(** ** The module state and the formatter *)

(** X16. Settings accumulate over the calls of [transform]: a file is
    processed with, for each key, the value of the latest call that gave the
    key, and the value before the calls when none did; the files after it are
    processed with the same settings. *)
Theorem X16_settings_accumulate (prettyPrint : string -> string) (fs : FileSystem)
        (fuel : nat) (options : Options) (configs : list Config) (file : Contents)
        (rest : list Call) :
  let settings :=
    {| tagName := latest config_tagName configs (tagName options);
       basePath := latest config_basePath configs (basePath options);
       variablePrefix := latest config_variablePrefix configs (variablePrefix options) |} in
  run prettyPrint fs fuel options (map Transform configs ++ File file :: rest)%list
  = on_file prettyPrint fs settings fuel file :: run prettyPrint fs fuel settings rest.
Proof.
  cbv zeta. rewrite run_transforms, fold_assign_latest. reflexivity.
Qed.

(** X17. The first replacement of [injectHTML] leaves no line terminator in
    the text, and leaves a text without line terminators as it is. *)
Theorem X17_line_breaks_removed (content : string) :
  exists re,
    new_RegExp line_break_source = Ok re []
    /\ one_line (replace_global re " " content) = true
    /\ (one_line content = true -> replace_global re " " content = content).
Proof.
  exists (line_break_pattern, 0). split; [reflexivity|].
  rewrite replace_line_breaks. split; [apply collapse_one_line|apply collapse_fixed].
Qed.

(** ** The scanner and the attribute parser, continued *)

(** X18. A closed tag whose body holds [/>] is found twice: [getTags] returns
    the whole tag, and then the text from [<tagName] to the first [/>] of the
    body as a self-closed tag, so [getHTML] resolves the partial a second
    time. *)
Theorem X18_closed_tag_listed_twice (options : Options) (a b : string) :
  literal_text (tagName options) = true ->
  one_line a = true -> one_line b = true ->
  split_at "/>" (a ++ "/>") = Some (a, "") ->
  exists others,
    getTags options ("<" ++ tagName options ++ a ++ "/>" ++ b ++ "/" ++ tagName options ++ ">")
    = Ok (("<" ++ tagName options ++ a ++ "/>" ++ b ++ "/" ++ tagName options ++ ">")
            :: ("<" ++ tagName options ++ a ++ "/>") :: others) [].
Proof.
  intros L Oa Ob Hfirst. eexists. rewrite getTags_occurrences by exact L.
  set (t := tagName options).
  set (line := "<" ++ t ++ a ++ "/>" ++ b ++ "/" ++ t ++ ">").
  replace (String.length line + 2) with (S (S (String.length line))) by lia.
  rewrite occurrences_whole; [| |reflexivity].
  - cbn [occurrences]. rewrite find_unfold.
    assert (R : reads_self_closed t line
                = Some (String.length ("<" ++ t) + (String.length a + 2))).
    { unfold reads_self_closed, line.
      replace ("<" ++ t ++ a ++ "/>" ++ b ++ "/" ++ t ++ ">")
        with (("<" ++ t) ++ a ++ "/>" ++ b ++ "/" ++ t ++ ">") by (now rewrite append_assoc).
      rewrite starts_append, lazy_scan_first by assumption. reflexivity. }
    rewrite R.
    assert (T : take (String.length ("<" ++ t) + (String.length a + 2)) line
                = "<" ++ t ++ a ++ "/>").
    { unfold line.
      replace ("<" ++ t ++ a ++ "/>" ++ b ++ "/" ++ t ++ ">")
        with (("<" ++ t) ++ (a ++ "/>") ++ b ++ "/" ++ t ++ ">")
        by (now rewrite !append_assoc).
      transitivity (("<" ++ t) ++ take (String.length a + 2) ((a ++ "/>") ++ b ++ "/" ++ t ++ ">"));
        [apply (take_append ("<" ++ t))|].
      replace (String.length a + 2) with (String.length (a ++ "/>"))
        by (rewrite length_append; reflexivity).
      rewrite take_length_append. now rewrite append_assoc. }
    rewrite T. reflexivity.
  - unfold reads_closed, line.
    replace ("<" ++ t ++ a ++ "/>" ++ b ++ "/" ++ t ++ ">")
      with (("<" ++ t) ++ (a ++ "/>" ++ b) ++ "/" ++ t ++ ">")
      by (now rewrite !append_assoc).
    rewrite starts_append, greedy_scan_line
      by (rewrite !one_line_append, Oa, Ob; reflexivity).
    cbn [option_map]. now rewrite !length_append.
Qed.

Lemma X18_witness :
  exists others,
    getTags default_options "<partial src='f.html'><br/><hr/></partial>"
    = Ok ("<partial src='f.html'><br/><hr/></partial>" :: "<partial src='f.html'><br/>"
         :: others) [].
Proof.
  apply (X18_closed_tag_listed_twice default_options " src='f.html'><br" "<hr/><");
    reflexivity.
Defined.


(** X19. The attribute parser on attributes written as [key="value"], the
    values of one character or more: a value of two characters or more is read
    as written, a value of one character is read with its opening quote before
    it. *)
Theorem X19_one_character_values (name closing : string) (attributes : list Attribute) :
  no_equals name = true -> no_equals closing = true -> Forall readable attributes ->
  getAttributes (name ++ render_all attributes ++ closing)
  = Ok (map read_back attributes) [].
Proof. apply getAttributes_readable. Qed.

Lemma X19_witness :
  getAttributes ("<partial src=" ++ dq ++ "f.html" ++ dq ++ " a=" ++ dq ++ "1" ++ dq
                 ++ " b=" ++ dq ++ "22" ++ dq ++ "/>")
  = Ok [ {| key := "src"; value := "f.html" |};
         {| key := "a"; value := dq ++ "1" |};
         {| key := "b"; value := "22" |} ] [].
Proof.
  apply (X19_one_character_values "<partial" "/>"
           [ {| key := "src"; value := "f.html" |}; {| key := "a"; value := "1" |};
             {| key := "b"; value := "22" |} ]).
  - reflexivity.
  - reflexivity.
  - repeat constructor; cbn; try discriminate; lia.
Defined.






(** X21. The attribute parser on attributes written as [key="value"] and
    separated by white space of any kind and length (spaces, tabs, line
    breaks): it returns them in order, as X19 says of attributes separated by
    one space, whatever text without [=] stands before the first and after
    the last. *)
Theorem X21_attributes_after_white_space (name closing : string)
        (items : list (string * Attribute)) :
  no_equals name = true -> no_equals closing = true -> Forall item_readable items ->
  getAttributes (name ++ written_all items ++ closing) = Ok (attributes_of items) [].
Proof. apply getAttributes_written. Qed.

Lemma X21_witness :
  getAttributes ("<partial" ++ lf ++ "  src=" ++ dq ++ "f.html" ++ dq ++ cr ++ lf
                 ++ "  n=" ++ dq ++ "1" ++ dq ++ " />")
  = Ok [ {| key := "src"; value := "f.html" |}; {| key := "n"; value := dq ++ "1" |} ] [].
Proof.
  apply (X21_attributes_after_white_space "<partial" " />"
           [ (lf ++ "  ", {| key := "src"; value := "f.html" |});
             (cr ++ lf ++ "  ", {| key := "n"; value := "1" |}) ]).
  - reflexivity.
  - reflexivity.
  - repeat constructor; cbn; try discriminate; lia.
Defined.
